(** * SoftLimiter (include/soft_limiter.h): a shallow embedding

    The limiter reads a block of interleaved stereo [float] samples and
    writes a block of [int16_t] samples.  The embedding keeps the data of
    the C++ class as it is:

    - [float] is IEEE-754 binary32 and [double] is binary64, both given by
      the Standard Library's [SpecFloat] operations (round to nearest, ties
      to even);
    - [std::array] objects are lists read and written by index, iterators
      are integer offsets from [begin()];
    - behaviour that C++ leaves undefined (a float-to-integer conversion
      whose truncated value does not fit, an access outside an array, a
      signed overflow) and a failed [assert] are results of their own.

    The last part of the file embeds the path translation of
    misc/fs_utils.cpp, whose strings are lists of characters. *)

From Stdlib Require Import ZArith QArith Bool Lia SpecFloat Ascii String.
From stdpp Require Import base list.

Local Open Scope Z_scope.

(** ** Binary32 and binary64 arithmetic *)

Module F32.
Definition prec : Z := 24.
Definition emax : Z := 128.
Definition float := spec_float.

Definition valid (x : float) : bool := valid_binary prec emax x.
Definition add : float -> float -> float := SFadd prec emax.
Definition sub : float -> float -> float := SFsub prec emax.
Definition mul : float -> float -> float := SFmul prec emax.
Definition div : float -> float -> float := SFdiv prec emax.
Definition abs : float -> float := SFabs.
Definition ltb : float -> float -> bool := SFltb.
Definition leb : float -> float -> bool := SFleb.
(** [a > b] of C++ is [b < a]. *)
Definition gtb (a b : float) : bool := SFltb b a.
(** Conversion of an integer; exact for every 16-bit value. *)
Definition of_Z (z : Z) : float := binary_normalize prec emax z 0 false.
Definition zero : float := S754_zero false.
Definition one : float := of_Z 1.
(** [std::max(a, b)] is [(a < b) ? b : a]; [std::min(a, b)] is
    [(b < a) ? b : a]. *)
Definition max (a b : float) : float := if ltb a b then b else a.
Definition min (a b : float) : float := if ltb b a then b else a.

(** The integer part of a float, rounding toward zero; [None] for an
    infinity or a NaN. *)
Definition trunc (x : float) : option Z :=
  match x with
  | S754_zero _ => Some 0
  | S754_finite s m e =>
      let mag := if 0 <=? e then Z.shiftl (Zpos m) e
                 else Z.shiftr (Zpos m) (- e) in
      Some (cond_Zopp s mag)
  | S754_infinity _ | S754_nan => None
  end.
End F32.

Module F64.
Definition prec : Z := 53.
Definition emax : Z := 1024.
Definition double := spec_float.

Definition add : double -> double -> double := SFadd prec emax.
Definition sub : double -> double -> double := SFsub prec emax.
Definition mul : double -> double -> double := SFmul prec emax.
Definition div : double -> double -> double := SFdiv prec emax.
Definition ltb : double -> double -> bool := SFltb.
Definition gtb (a b : double) : bool := SFltb b a.
Definition of_Z (z : Z) : double := binary_normalize prec emax z 0 false.
(** [static_cast<double>] of a float (exact). *)
Definition of_float (x : F32.float) : double :=
  match x with
  | S754_finite s m e => binary_round prec emax s m e
  | _ => x
  end.
(** [static_cast<float>] of a double (rounds). *)
Definition to_float (x : double) : F32.float :=
  match x with
  | S754_finite s m e => binary_round F32.prec F32.emax s m e
  | _ => x
  end.
(** The literals [0.5], [0.2] and [0.6]: the doubles nearest to the
    decimal fractions. *)
Definition half : double := div (of_Z 1) (of_Z 2).
Definition lit_0_2 : double := div (of_Z 2) (of_Z 10).
Definition lit_0_6 : double := div (of_Z 6) (of_Z 10).
End F64.

Abbreviation float := F32.float.
Abbreviation double := F64.double.

(** ** Results of a call *)

Inductive fault :=
| AssertionFailed                      (* assert(samples <= in.size()) *)
| OutOfBounds (i : Z)                  (* access outside an array *)
| CastOutOfRange (v : option Z)        (* static_cast<int16_t> does not fit *)
| SignedOverflow                       (* ++limited_ms at INT_MAX *)
| NullIterator                         (* use of a peak position never set *)
| OutOfFuel.

Inductive result (A : Type) :=
| Ok (a : A)
| Fail (f : fault).
Arguments Ok {A} a.
Arguments Fail {A} f.

Definition bind {A B} (r : result A) (k : A -> result B) : result B :=
  match r with
  | Ok a => k a
  | Fail f => Fail f
  end.

Notation "'do' x <- r ; k" := (bind r (fun x => k))
  (at level 10, x name, r at level 100, k at level 200,
   format "'[v' 'do'  x  <-  r ; '/' k ']'").

(** ** Arrays *)

Definition INT16_MIN : Z := -32768.
Definition INT16_MAX : Z := 32767.
Definition INT_MAX : Z := 2147483647.

Definition in_int16 (z : Z) : bool := (INT16_MIN <=? z) && (z <=? INT16_MAX).

Definition read {A} (l : list A) (i : Z) : result A :=
  if i <? 0 then Fail (OutOfBounds i)
  else match l !! Z.to_nat i with
       | Some x => Ok x
       | None => Fail (OutOfBounds i)
       end.

Definition write {A} (l : list A) (i : Z) (x : A) : result (list A) :=
  if (0 <=? i) && (i <? Z.of_nat (length l)) then Ok (<[Z.to_nat i := x]> l)
  else Fail (OutOfBounds i).

(** [static_cast<int16_t>(x)]: the value truncated toward zero when it is
    representable, undefined otherwise. *)
Definition cast_int16 (x : float) : result Z :=
  match F32.trunc x with
  | Some z => if in_int16 z then Ok z else Fail (CastOutOfRange (Some z))
  | None => Fail (CastOutOfRange None)
  end.

(** ** The class *)

(** Modelled from the spec: [AudioFrame] is declared in mixer.h, which is
    not part of the sources at hand; the spec's data model has it as a
    pair of reals {left, right}, and the limiter uses exactly these two
    [float] members. *)
Record AudioFrame := mkFrame { left : float; right : float }.

(** The members of [SoftLimiter<array_frames>] that its functions touch.
    [prescale] is a reference to a frame owned by the caller, so every
    operation that reads it takes the frame's current value as an
    argument.  [channel_name] only labels the log lines. *)
Record SoftLimiter := mkLimiter {
  out : list Z;
  limit_scale : AudioFrame;
  peak : AudioFrame;
  tail : AudioFrame;
  peak_pos_left : option Z;
  peak_pos_right : option Z;
  limited_ms : Z;
  non_limited_ms : Z
}.

Definition upper_bound : float := F32.of_Z INT16_MAX.
Definition lower_bound : float := F32.of_Z INT16_MIN.
Definition LEFT : Z := 0.
Definition RIGHT : Z := 1.

(** The constructor leaves [out] without an initialiser: its content is
    whatever the storage holds, here the argument [out0]. *)
Definition construct (out0 : list Z) : SoftLimiter :=
  {| out := out0;
     limit_scale := mkFrame F32.one F32.one;
     peak := mkFrame F32.one F32.one;
     tail := mkFrame F32.zero F32.zero;
     peak_pos_left := None;
     peak_pos_right := None;
     limited_ms := 0;
     non_limited_ms := 0 |}.

(** The value [ScaleSide] computes for a sample [x]:
    [poly_add + x * poly_mult]. *)
Definition adjusted (poly_add poly_mult x : float) : float :=
  F32.add poly_add (F32.mul x poly_mult).

(** The slope [TriageSignal] takes for a new peak [local] after the tail
    value [add]: [(upper_bound - add) / (local - add)]. *)
Definition peak_mult (add local : float) : float :=
  F32.div (F32.sub upper_bound add) (F32.sub local add).

(** [ScaleSide]: the loop runs while [in_pos <= in_pos_last]; both
    positions advance by two.  [fuel] bounds the number of turns; with the
    fuel the callers give, it is never used up ([Apply_fuel_suffices]
    below). *)
Fixpoint ScaleSide (fuel : nat) (inp : list float) (in_pos in_pos_last : Z)
    (o : list Z) (out_pos : Z) (poly_add poly_mult : float)
    : result (list Z) :=
  if in_pos <=? in_pos_last then
    match fuel with
    | O => Fail OutOfFuel
    | S fuel' =>
        do x <- read inp in_pos;
        do v <- cast_int16 (adjusted poly_add poly_mult x);
        do o' <- write o out_pos v;
        ScaleSide fuel' inp (in_pos + 2) in_pos_last o' (out_pos + 2)
                  poly_add poly_mult
    end
  else Ok o.

(** [TriageSignal] returns the output array and the new values of the
    referenced members [existing] (the tracked peak) and [scale]. *)
Definition TriageSignal (inp : list float) (o : list Z) (side : Z)
    (local : float) (last_pos : option Z) (pre existing add scale : float)
    : result (list Z * float * float) :=
  let fuel := S (length inp) in
  let in_end := Z.of_nat (length inp) in
  let local := F32.mul local pre in
  if F32.gtb local existing && F32.gtb local upper_bound then
    let existing := local in
    let mult := peak_mult add local in
    match last_pos with
    | None => Fail NullIterator
    | Some last_pos =>
        do o1 <- ScaleSide fuel inp side last_pos o side add mult;
        let scale := F32.div upper_bound existing in
        do o2 <- ScaleSide fuel inp (last_pos + side + 2)
                           (in_end - (side + 2)) o1
                           (last_pos + side + 2) F32.zero scale;
        Ok (o2, existing, scale)
    end
  else if F32.gtb existing upper_bound then
    let scale := F32.div upper_bound existing in
    do o1 <- ScaleSide fuel inp side (in_end - (side + 2)) o side
                       F32.zero scale;
    Ok (o1, existing, scale)
  else
    do o1 <- ScaleSide fuel inp side (in_end - (side + 2)) o side
                       F32.zero F32.one;
    Ok (o1, existing, scale).

(** [AudioFrame local_peak{}]: both members zero. *)
Definition no_peak : AudioFrame := mkFrame F32.zero F32.zero.

(** The scan of [FindPeaks]: two samples a turn while [pos < pos_end]. *)
Fixpoint scan_peaks (fuel : nat) (inp : list float) (pos pos_end : Z)
    (local_peak : AudioFrame) (ppl ppr : option Z)
    : result (AudioFrame * option Z * option Z) :=
  if pos <? pos_end then
    match fuel with
    | O => Fail OutOfFuel
    | S fuel' =>
        do x <- read inp pos;
        let val_left := F32.abs x in
        let '(pl, ppl) :=
          if F32.gtb val_left (left local_peak) then (val_left, Some pos)
          else (left local_peak, ppl) in
        let pos := pos + 1 in
        do y <- read inp pos;
        let val_right := F32.abs y in
        let '(pr, ppr) :=
          if F32.gtb val_right (right local_peak) then (val_right, Some pos)
          else (right local_peak, ppr) in
        let pos := pos + 1 in
        scan_peaks fuel' inp pos pos_end (mkFrame pl pr) ppl ppr
    end
  else Ok (local_peak, ppl, ppr).

Definition FindPeaks (prescale : AudioFrame) (s : SoftLimiter)
    (inp : list float) (samples : Z) : result SoftLimiter :=
  do found <-
     scan_peaks (S (length inp)) inp 0 samples no_peak
                (peak_pos_left s) (peak_pos_right s);
  let '(local_peak, ppl, ppr) := found in
  do tl <-
     TriageSignal inp (out s) LEFT (left local_peak) ppl (left prescale)
                  (left (peak s)) (left (tail s)) (left (limit_scale s));
  let '(o1, peak_l, scale_l) := tl in
  do tr <-
     TriageSignal inp o1 RIGHT (right local_peak) ppr (right prescale)
                  (right (peak s)) (right (tail s)) (right (limit_scale s));
  let '(o2, peak_r, scale_r) := tr in
  Ok {| out := o2;
        limit_scale := mkFrame scale_l scale_r;
        peak := mkFrame peak_l peak_r;
        tail := tail s;
        peak_pos_left := ppl;
        peak_pos_right := ppr;
        limited_ms := limited_ms s;
        non_limited_ms := non_limited_ms s |}.

Definition set_tail (s : SoftLimiter) (t : AudioFrame) : SoftLimiter :=
  {| out := out s; limit_scale := limit_scale s; peak := peak s; tail := t;
     peak_pos_left := peak_pos_left s; peak_pos_right := peak_pos_right s;
     limited_ms := limited_ms s; non_limited_ms := non_limited_ms s |}.

Definition SaveTailFrame (s : SoftLimiter) (req_frames : Z)
    : result SoftLimiter :=
  if req_frames =? 0 then Ok (set_tail s (mkFrame F32.zero F32.zero))
  else
    let offset := (req_frames - 1) * 2 in
    do l <- read (out s) offset;
    do r <- read (out s) (offset + 1);
    Ok (set_tail s (mkFrame (F32.of_Z l) (F32.of_Z r))).

(** [0.002709201f], the float nearest to the decimal literal. *)
Definition delta_db : float := S754_finite false 11635930 (-32).
Definition release_amplitude : float := F32.mul upper_bound delta_db.

Definition release_side (p : float) : float :=
  if F32.gtb p upper_bound then F32.sub p release_amplitude else p.

Definition Release (s : SoftLimiter) : result SoftLimiter :=
  if limited_ms s =? INT_MAX then Fail SignedOverflow
  else
    Ok {| out := out s; limit_scale := limit_scale s;
          peak := mkFrame (release_side (left (peak s)))
                          (release_side (right (peak s)));
          tail := tail s;
          peak_pos_left := peak_pos_left s;
          peak_pos_right := peak_pos_right s;
          limited_ms := limited_ms s + 1;
          non_limited_ms := non_limited_ms s |}.

(** [Apply]: [req_frames] is a [uint16_t]; the product [req_frames * 2]
    is computed in [int] and stored into the [uint16_t] [samples], which
    keeps its low sixteen bits. *)
Definition UINT16_MOD : Z := 65536.
Definition samples_of (req_frames : Z) : Z := (req_frames * 2) mod UINT16_MOD.

Definition Apply (array_frames : Z) (prescale : AudioFrame)
    (s : SoftLimiter) (inp : list float) (req_frames : Z)
    : result SoftLimiter :=
  let samples := samples_of req_frames in
  if samples <=? array_frames * 2 then
    do s1 <- FindPeaks prescale s inp samples;
    do s2 <- SaveTailFrame s1 req_frames;
    Release s2
  else Fail AssertionFailed.

Definition Reset (s : SoftLimiter) : SoftLimiter :=
  {| out := out s; limit_scale := limit_scale s;
     peak := mkFrame F32.one F32.one;
     tail := tail s;
     peak_pos_left := peak_pos_left s; peak_pos_right := peak_pos_right s;
     limited_ms := 0;
     non_limited_ms := 0 |}.

Definition GetPeaks (s : SoftLimiter) : AudioFrame := peak s.

(** ** Diagnostics

    [LOG_MSG] is an external collaborator; a log line is recorded with
    the numbers handed to it (all of them [double]s after the default
    argument promotions), not with its formatted text. *)
Inductive log_line :=
| LogPeak (percent : double)
| LogLouder (mix : double)
| LogQuieter (percent minutes_limited minutes_total mix : double).

Definition ms_per_minute : Z := 1000 * 60.

Definition PrintStats (prescale : AudioFrame) (s : SoftLimiter)
    : list log_line :=
  let ms_total :=
    F64.add (F64.of_Z (limited_ms s)) (F64.of_Z (non_limited_ms s)) in
  let minutes_total := F64.div ms_total (F64.of_Z ms_per_minute) in
  if F64.ltb minutes_total F64.half then []
  else
    let peak_sample := F32.max (left (peak s)) (right (peak s)) in
    let five_percent_of_max := F32.div upper_bound (F32.of_Z 20) in
    if F32.ltb peak_sample five_percent_of_max then []
    else
      let peak_ratio := F32.div peak_sample upper_bound in
      let peak_ratio := F32.min peak_ratio F32.one in
      let scale := F32.max (left prescale) (right prescale) in
      let well_below_3db := F64.to_float F64.lit_0_6 in
      let time_ratio :=
        F64.div (F64.of_Z (limited_ms s)) (F64.add ms_total (F64.of_Z 1)) in
      [LogPeak (F64.mul (F64.of_Z 100) (F64.of_float peak_ratio))]
      ++ (if F32.ltb (F32.div peak_ratio scale) well_below_3db then
            let suggested_mix_val :=
              F32.div (F32.mul (F32.of_Z 100) scale) peak_ratio in
            [LogLouder (F64.of_float suggested_mix_val)]
          else [])
      ++ (if F64.gtb time_ratio F64.lit_0_2 then
            let minutes_limited :=
              F64.div (F64.of_Z (limited_ms s)) (F64.of_Z ms_per_minute) in
            let reduction_ratio :=
              F64.sub (F64.of_Z 1) (F64.div time_ratio (F64.of_Z 2)) in
            let suggested_mix_val :=
              F64.mul (F64.mul (F64.of_Z 100) reduction_ratio)
                      (F64.of_float scale) in
            [LogQuieter (F64.mul (F64.of_Z 100) time_ratio) minutes_limited
                        minutes_total suggested_mix_val]
          else []).

(** ** Sequences of operations on one instance *)

Inductive operation :=
| OpApply (prescale : AudioFrame) (inp : list float) (req_frames : Z)
| OpReset
| OpGetPeaks
| OpPrintStats (prescale : AudioFrame).

Definition step (array_frames : Z) (s : SoftLimiter) (o : operation)
    : result SoftLimiter :=
  match o with
  | OpApply prescale inp req_frames => Apply array_frames prescale s inp req_frames
  | OpReset => Ok (Reset s)
  | OpGetPeaks => Ok s
  | OpPrintStats _ => Ok s
  end.

Fixpoint run (array_frames : Z) (s : SoftLimiter) (ops : list operation)
    : result SoftLimiter :=
  match ops with
  | [] => Ok s
  | o :: ops' => do s' <- step array_frames s o; run array_frames s' ops'
  end.

(** ** Host paths (src/misc/fs_utils.cpp)

    [std::string] is a list of characters.  [isalpha], [tolower] and
    [toupper] are those of the "C" locale, in which the letters are the
    52 ASCII letters.  [glob(3)] searches the host file system and is an
    external collaborator: [to_posix_path] takes it as a function from
    the pattern to what it reports.  [fs_exists] is a bare call of
    [stat(2)] and has no counterpart here. *)

Definition backslash : ascii := "092"%char.
Definition slash : ascii := "047"%char.
Definition question_mark : ascii := "063"%char.
Definition asterisk : ascii := "042"%char.
Definition left_bracket : ascii := "091"%char.
Definition right_bracket : ascii := "093"%char.

Definition char_in (lo hi : N) (c : ascii) : bool :=
  (lo <=? N_of_ascii c)%N && (N_of_ascii c <=? hi)%N.

Definition isupper (c : ascii) : bool := char_in 65 90 c.
Definition islower (c : ascii) : bool := char_in 97 122 c.
Definition isalpha (c : ascii) : bool := isupper c || islower c.
Definition tolower (c : ascii) : ascii :=
  if isupper c then ascii_of_N (N_of_ascii c + 32) else c.
Definition toupper (c : ascii) : ascii :=
  if islower c then ascii_of_N (N_of_ascii c - 32) else c.

(** The characters of the four cases of the switch that are escaped:
    the question mark, the asterisk and the two square brackets. *)
Definition is_glob_special (c : ascii) : bool :=
  Ascii.eqb c question_mark || Ascii.eqb c asterisk
  || Ascii.eqb c left_bracket || Ascii.eqb c right_bracket.

(** The loop of [translate_to_glob_pattern] over the characters of
    [win_path]; [glob_pattern] is the string built so far.  A letter
    appends the four characters of [one_char_pattern], a backslash
    appends a slash, a glob metacharacter is appended after a
    backslash, any other character is appended as it is. *)
Fixpoint translate_loop (win_path glob_pattern : list ascii) : list ascii :=
  match win_path with
  | [] => glob_pattern
  | c :: rest =>
      if isalpha c then
        translate_loop rest
          (glob_pattern ++ [left_bracket; tolower c; toupper c; right_bracket])
      else if Ascii.eqb c backslash then
        translate_loop rest (glob_pattern ++ [slash])
      else if is_glob_special c then
        translate_loop rest ((glob_pattern ++ [backslash]) ++ [c])
      else translate_loop rest (glob_pattern ++ [c])
  end.

Definition translate_to_glob_pattern (win_path : list ascii) : list ascii :=
  translate_loop win_path [].

(** What [glob] reports: the paths found ([gl_pathv[0]] and the others),
    [GLOB_NOMATCH], or another error code. *)
Inductive glob_result :=
| GlobMatches (first : list ascii) (others : list (list ascii))
| GlobNoMatch
| GlobError.

(** [to_posix_path]: the first path found, or the empty string.  (The
    messages logged in debug builds have no counterpart here.) *)
Definition to_posix_path (glob : list ascii -> glob_result)
    (win_path : list ascii) : list ascii :=
  match glob (translate_to_glob_pattern win_path) with
  | GlobNoMatch => []
  | GlobError => []
  | GlobMatches first _ => first
  end.

(** ** Notions used in the statements *)

(** The fraction [limited_ms / (ms_total + 1)] of PrintStats, as an exact
    rational. *)
Definition limited_fraction (s : SoftLimiter) : Q :=
  Qmake (limited_ms s)
        (Z.to_pos (limited_ms s + non_limited_ms s + 1)).

Definition is_reset (o : operation) : bool :=
  match o with OpReset => true | _ => false end.

Definition is_apply (o : operation) : bool :=
  match o with OpApply _ _ _ => true | _ => false end.

(** The positions one run of [ScaleSide] visits: from [pos] to [last] in
    steps of two. *)
Definition in_pass (pos last j : Z) : Prop :=
  pos <= j <= last /\ (j - pos) mod 2 = 0.

(** Slot [j] of the output holds the conversion of
    [c.1 + inp[j] * c.2]. *)
Definition written_as (inp : list float) (o : list Z) (j : Z)
    (c : float * float) : Prop :=
  exists x v,
    inp !! Z.to_nat j = Some x /\
    cast_int16 (adjusted (fst c) (snd c) x) = Ok v /\
    o !! Z.to_nat j = Some v.

(** The offset and factor pairs [TriageSignal] hands to [ScaleSide], read
    off its three branches. *)
Definition triage_curve (local pre existing add : float)
    : list (float * float) :=
  let local := F32.mul local pre in
  if F32.gtb local existing && F32.gtb local upper_bound then
    [(add, peak_mult add local); (F32.zero, F32.div upper_bound local)]
  else if F32.gtb existing upper_bound then
    [(F32.zero, F32.div upper_bound existing)]
  else [(F32.zero, F32.one)].

(** The values a running maximum of absolute values can take. *)
Definition nonneg (x : float) : Prop :=
  match x with
  | S754_zero false | S754_infinity false | S754_finite false _ _ => True
  | _ => False
  end.

(** A running peak is still the initial zero, or its position was set
    during the scan, to an index below [pos_end] of the channel's
    parity. *)
Definition fresh_pos (parity pos_end : Z) (v : float) (pp : option Z)
    : Prop :=
  v = F32.zero \/
  exists p, pp = Some p /\ 0 <= p < pos_end /\ p mod 2 = parity.

(** The tracked peak [TriageSignal] leaves in [existing]. *)
Definition triage_peak (local pre existing : float) : float :=
  let local := F32.mul local pre in
  if F32.gtb local existing && F32.gtb local upper_bound then local
  else existing.

(** A float that is a binary32 value and not below 1. *)
Definition at_least_one (p : float) : Prop :=
  F32.valid p = true /\ F32.leb F32.one p = true.

(** The arguments of a call are binary32 values (a NaN and the infinities
    included). *)
Definition valid_frame (f : AudioFrame) : Prop :=
  F32.valid (left f) = true /\ F32.valid (right f) = true.

Definition valid_operation (o : operation) : Prop :=
  match o with
  | OpApply prescale inp _ =>
      valid_frame prescale /\ Forall (fun x => F32.valid x = true) inp
  | _ => True
  end.

(** The coverage of a call: [covers slots] says that in every call that
    returns, each output position [j] picked by [slots] (given the number
    of requested frames) holds the conversion of [offset + in[j] * factor]
    for a pair of the call's two curves. *)
Definition covers (slots : Z -> Z -> bool) : Prop :=
  forall af pre s inp n s',
    Z.of_nat (length inp) = af * 2 ->
    Apply af pre s inp n = Ok s' ->
    exists lp ppl ppr,
      scan_peaks (S (length inp)) inp 0 (samples_of n) no_peak
                 (peak_pos_left s) (peak_pos_right s) = Ok (lp, ppl, ppr) /\
      forall j, 0 <= j < af * 2 -> slots n j = true ->
        exists c,
          c ∈ triage_curve (left lp) (left pre) (left (peak s))
                (left (tail s))
              ++ triage_curve (right lp) (right pre) (right (peak s))
                   (right (tail s)) /\
          written_as inp (out s') j c.

(** Every position beyond the requested frames, and every left-channel
    position. *)
Definition beyond_frames (n j : Z) : bool := 2 * n <=? j.
Definition left_slots (n j : Z) : bool := j mod 2 =? 0.

(** The block a call returns (Apply returns a reference to [out]) and
    the tail it leaves behind. *)
Definition block_of (r : result SoftLimiter) : result (list Z) :=
  do s <- r; Ok (out s).
Definition tail_of (r : result SoftLimiter) : result AudioFrame :=
  do s <- r; Ok (tail s).

(** What a later operation can read of a limiter: the output buffer, the
    tracked peaks, the tail and the two counters.  ([limit_scale] and
    the two peak positions are the other members.) *)
Definition live (s : SoftLimiter)
    : list Z * AudioFrame * AudioFrame * Z * Z :=
  (out s, peak s, tail s, limited_ms s, non_limited_ms s).

Definition live_of (r : result SoftLimiter)
    : result (list Z * AudioFrame * AudioFrame * Z * Z) :=
  do s <- r; Ok (live s).

(** [cur] and [pp] are the largest absolute value among the samples of
    one channel (the indices below [pos_end] with the given parity) and
    the index of its first occurrence: no such sample compares greater
    than [cur]; and either [cur] is still zero and the position is the
    old one [pp0], or [cur] is the absolute value of the sample at [pp]
    and every earlier sample of the channel is a NaN or compares less. *)
Definition first_maximum (inp : list float) (parity pos_end : Z)
    (cur : float) (pp pp0 : option Z) : Prop :=
  (forall j y, 0 <= j < pos_end -> j mod 2 = parity ->
     inp !! Z.to_nat j = Some y -> F32.gtb (F32.abs y) cur = false) /\
  ((cur = F32.zero /\ pp = pp0) \/
   exists p x,
     pp = Some p /\ 0 <= p < pos_end /\ p mod 2 = parity /\
     inp !! Z.to_nat p = Some x /\ cur = F32.abs x /\
     forall j y, 0 <= j < p -> j mod 2 = parity ->
       inp !! Z.to_nat j = Some y ->
       y = S754_nan \/ F32.ltb (F32.abs y) (F32.abs x) = true).

(** The prescale of the channel that sample [j] belongs to, and a block
    none of whose first [k] samples exceeds the bound after
    prescaling. *)
Definition prescale_of (pre : AudioFrame) (j : Z) : float :=
  if j mod 2 =? 0 then left pre else right pre.

Definition no_sample_over (pre : AudioFrame) (inp : list float) (k : Z)
    : Prop :=
  forall j x, 0 <= j < k -> inp !! Z.to_nat j = Some x ->
    F32.gtb (F32.mul (F32.abs x) (prescale_of pre j)) upper_bound = false.

(** A sample that is a number: a zero or a finite value. *)
Definition finite_sample (x : float) : bool :=
  match x with
  | S754_zero _ | S754_finite _ _ _ => true
  | S754_infinity _ | S754_nan => false
  end.

(** The tracked peak of the channel of position [j]. *)
Definition peak_of (s : SoftLimiter) (j : Z) : float :=
  if j mod 2 =? 0 then left (peak s) else right (peak s).

(** The factor [TriageSignal] takes when it finds no new peak. *)
Definition steady_factor (existing : float) : float :=
  if F32.gtb existing upper_bound then F32.div upper_bound existing
  else F32.one.

(** None of the first [k] samples, prescaled, is above both the tracked
    peak of its channel and the bound. *)
Definition no_new_peak (pre : AudioFrame) (s : SoftLimiter)
    (inp : list float) (k : Z) : Prop :=
  forall j x, 0 <= j < k -> inp !! Z.to_nat j = Some x ->
    F32.gtb (F32.mul (F32.abs x) (prescale_of pre j)) (peak_of s j)
    && F32.gtb (F32.mul (F32.abs x) (prescale_of pre j)) upper_bound
    = false.

(** No sample of the array is above both the tracked peak of its channel
    and the bound. *)
Definition no_sample_over_peak (s : SoftLimiter) (inp : list float)
    : Prop :=
  forall j x, 0 <= j -> inp !! Z.to_nat j = Some x ->
    F32.gtb (F32.abs x) (peak_of s j) && F32.gtb (F32.abs x) upper_bound
    = false.

(** 32678.23..., what one release step leaves of the smallest float
    above the bound; a tracked peak is 1 or not below it. *)
Definition lowest_released_peak : float := S754_finite false 16731254 (-9).

Definition one_or_near_bound (p : float) : Prop :=
  p = F32.one \/
  (F32.valid p = true /\ F32.leb lowest_released_peak p = true).

(** A character with its case and the kind of its separator forgotten;
    the pattern of one character; all 256 characters. *)
Definition fold_char (c : ascii) : ascii :=
  if isalpha c then tolower c
  else if Ascii.eqb c backslash then slash else c.

Definition char_pattern (c : ascii) : list ascii :=
  translate_to_glob_pattern [c].

Definition all_chars : list ascii :=
  map (fun n => ascii_of_nat n) (seq 0 256).

(** The rational number a float stands for (0 for an infinity or a
    NaN). *)
Definition value_of (x : float) : Q :=
  match x with
  | S754_finite s m e =>
      ((if s then -1 else 1) * inject_Z (Zpos m) * Qpower (2 # 1) e)%Q
  | _ => 0%Q
  end.

(** ** Concrete data used in the examples *)

Definition fz (z : Z) : float := F32.of_Z z.
Definition unit_prescale : AudioFrame := mkFrame F32.one F32.one.

Definition zeros (n : nat) : list Z := replicate n 0.

(** A block of four samples (two frames) that needs no limiting. *)
Definition quiet_block : list float := map fz [1; 2; 3; 4].

(** A block whose right channel peaks in its last sample. *)
Definition last_sample_peak_block : list float := map fz [0; 0; 0; 40000].

(** A block with a right-channel peak in its first frame and a louder
    left-channel peak in its third frame. *)
Definition crossing_block : list float :=
  map fz [0; 40000; 0; 0; 100000; 0; 0; 0].

(** A loud but legal block, and a block that peaks right after it. *)
Definition loud_block : list float :=
  map fz [30000; 0; 30000; 0; 30000; 0; 30000; 0].
Definition peak_block : list float :=
  map fz [40000; 0; 0; 0; 0; 0; 0; 0].

(** A block whose right channel peaks in the first frame and is quiet
    afterwards. *)
Definition right_peak_block : list float :=
  map fz [0; 40000; 0; 10; 20; 30; 40; 50].

(** Two quiet blocks with a GetPeaks and a PrintStats around them. *)
Definition quiet_session : list operation :=
  [OpApply unit_prescale quiet_block 2; OpGetPeaks;
   OpApply unit_prescale quiet_block 2; OpPrintStats unit_prescale].
Definition after_quiet_session : SoftLimiter :=
  Eval vm_compute in
    match run 2 (construct (zeros 4)) quiet_session with
    | Ok s => s
    | Fail _ => construct []
    end.

(** The state a fresh limiter reaches on the block with the right-channel
    peak: the right peak is 40000 less one release step. *)
Definition after_right_peak_block : SoftLimiter :=
  Eval vm_compute in
    match Apply 4 unit_prescale (construct (zeros 8)) right_peak_block 4 with
    | Ok s => s
    | Fail _ => construct []
    end.

(** A limiter over a buffer of sevens asked for the first frame only. *)
Definition after_short_call_over_sevens : SoftLimiter :=
  Eval vm_compute in
    match Apply 2 unit_prescale (construct [7; 7; 7; 7]) quiet_block 1 with
    | Ok s => s
    | Fail _ => construct []
    end.

(** A session with a right-channel peak, a silent block during the
    release and a look at the peaks. *)
Definition silent_block : list float := map fz [0; 0; 0; 0; 0; 0; 0; 0].
Definition peak_session : list operation :=
  [OpApply unit_prescale right_peak_block 4;
   OpApply unit_prescale silent_block 4; OpGetPeaks].
Definition after_peak_session : SoftLimiter :=
  Eval vm_compute in
    match run 4 (construct (zeros 8)) peak_session with
    | Ok s => s
    | Fail _ => construct []
    end.

(** A limiter forty seconds into a stream whose left channel once peaked
    at 40000, and what PrintStats logs for it. *)
Definition long_loud_state : SoftLimiter :=
  {| out := zeros 8;
     limit_scale := unit_prescale;
     peak := mkFrame (fz 40000) F32.one;
     tail := no_peak;
     peak_pos_left := Some 0;
     peak_pos_right := None;
     limited_ms := 40000;
     non_limited_ms := 0 |}.
Definition long_loud_log : list log_line :=
  Eval vm_compute in PrintStats unit_prescale long_loud_state.

(** The states a fresh limiter reaches on the quiet block, on the block
    with a left-channel peak, and on a block that differs from the quiet
    one beyond the first frame. *)
Definition after_quiet_block : SoftLimiter :=
  Eval vm_compute in
    match Apply 2 unit_prescale (construct (zeros 4)) quiet_block 2 with
    | Ok s => s
    | Fail _ => construct []
    end.

Definition after_peak_block : SoftLimiter :=
  Eval vm_compute in
    match Apply 4 unit_prescale (construct (zeros 8)) peak_block 4 with
    | Ok s => s
    | Fail _ => construct []
    end.

(** A block whose left channel peaks at 2^32, and the state a fresh
    limiter reaches on it. *)
Definition huge_block : list float := map fz [4294967296; 0; 0; 0].
Definition after_huge_block : SoftLimiter :=
  Eval vm_compute in
    match Apply 2 unit_prescale (construct (zeros 4)) huge_block 2 with
    | Ok s => s
    | Fail _ => construct []
    end.

(** Thirty seconds of calls of one frame each: a stream whose first frame
    peaks at 40000 on the left, and a stream that stays quiet; the states
    a fresh limiter reaches on them ([loud_half_minute_run] and
    [quiet_half_minute_run] below) and what PrintStats logs then. *)
Definition loud_frame : list float := map fz [40000; 0].
Definition quiet_frame : list float := map fz [1; 2].
Definition loud_half_minute : list operation :=
  OpApply unit_prescale loud_frame 1
  :: replicate (Z.to_nat 29999) (OpApply unit_prescale quiet_frame 1).
Definition quiet_half_minute : list operation :=
  replicate (Z.to_nat 30000) (OpApply unit_prescale quiet_frame 1).
Definition after_loud_half_minute : SoftLimiter :=
  {| out := [1; 0];
     limit_scale := mkFrame (S754_finite false 16755559 (-24)) F32.one;
     peak := mkFrame (S754_finite false 16752937 (-9)) F32.one;
     tail := mkFrame F32.one F32.zero;
     peak_pos_left := Some 0;
     peak_pos_right := Some 1;
     limited_ms := 30000;
     non_limited_ms := 0 |}.
Definition after_quiet_half_minute : SoftLimiter :=
  {| out := [1; 0];
     limit_scale := unit_prescale;
     peak := unit_prescale;
     tail := mkFrame F32.one F32.zero;
     peak_pos_left := Some 0;
     peak_pos_right := Some 1;
     limited_ms := 30000;
     non_limited_ms := 0 |}.
Definition loud_half_minute_log : list log_line :=
  Eval vm_compute in PrintStats unit_prescale after_loud_half_minute.

(** A block below the peak the limiter tracks after [peak_block], and
    the state it leaves. *)
Definition steady_block : list float :=
  map fz [39000; -100; 20000; 300; -35000; 7; 0; 9].
Definition after_steady_block : SoftLimiter :=
  Eval vm_compute in
    match Apply 4 unit_prescale after_peak_block steady_block 4 with
    | Ok s => s
    | Fail _ => construct []
    end.

Definition other_second_frame : list float := map fz [1; 2; 30; 40].
Definition after_short_call_other_frame : SoftLimiter :=
  Eval vm_compute in
    match Apply 2 unit_prescale (construct [7; 7; 7; 7])
                other_second_frame 1 with
    | Ok s => s
    | Fail _ => construct []
    end.

(** A limiter with the members no operation reads set back to their
    initial values. *)
Definition forget_positions_and_scale (s : SoftLimiter) : SoftLimiter :=
  {| out := out s; limit_scale := unit_prescale; peak := peak s;
     tail := tail s; peak_pos_left := None; peak_pos_right := None;
     limited_ms := limited_ms s; non_limited_ms := non_limited_ms s |}.

(** The path of the test in tests/fs_utils.cpp, another spelling of it,
    and a file system that holds the one file. *)
Definition dos_path : list ascii :=
  list_ascii_of_string "tests\files\PATHS\EMPTY.TXT".
Definition mixed_path : list ascii :=
  list_ascii_of_string "Tests/Files\paths/Empty.txt".
Definition host_path : list ascii :=
  list_ascii_of_string "tests/files/paths/empty.txt".
Definition one_file_glob (pattern : list ascii) : glob_result :=
  if String.eqb (string_of_list_ascii pattern)
                (string_of_list_ascii (translate_to_glob_pattern host_path))
  then GlobMatches host_path [] else GlobNoMatch.

(** * Properties *)

(** ** Rounding to nearest: what [binary_round_aux] returns

    The facts about the Standard Library's float operations that the
    proofs below need: the number of binary digits, the right shift with
    its lost bits, and the shape of a rounded result. *)

Lemma digits2_pos_size (p : positive) : digits2_pos p = Pos.size p.
Proof. induction p; simpl; congruence. Qed.

Lemma Zdigits2_bounds (m : Z) :
  0 < m -> 2 ^ (Zdigits2 m - 1) <= m < 2 ^ Zdigits2 m.
Proof.
  destruct m as [|p|p]; try lia. intros _. simpl Zdigits2.
  rewrite digits2_pos_size.
  pose proof (Pos.size_gt p) as Hgt. pose proof (Pos.size_le p) as Hle.
  assert (Hs : 0 < Zpos (Pos.size p)) by lia.
  split.
  - apply Pos2Z.pos_le_pos in Hle. rewrite Pos2Z.inj_pow in Hle.
    replace (Zpos (Pos.size p)) with (Z.succ (Zpos (Pos.size p) - 1)) in Hle by lia.
    rewrite Z.pow_succ_r in Hle by lia. lia.
  - apply Pos2Z.pos_lt_pos in Hgt. rewrite Pos2Z.inj_pow in Hgt. exact Hgt.
Qed.

Lemma Zdigits2_unique (m d : Z) :
  0 < m -> 2 ^ (d - 1) <= m < 2 ^ d -> Zdigits2 m = d.
Proof.
  intros Hm [Hlo Hhi]. pose proof (Zdigits2_bounds m Hm) as [Hlo' Hhi'].
  assert (Hd : 0 < Zdigits2 m) by (destruct m; simpl; lia).
  assert (0 < d).
  { destruct (Z_lt_le_dec 0 d); auto. 
    assert (2 ^ d <= 2 ^ 0) by (apply Z.pow_le_mono_r; lia). simpl in *. lia. }
  destruct (Z_lt_le_dec (Zdigits2 m) d).
  - assert (2 ^ Zdigits2 m <= 2 ^ (d - 1)) by (apply Z.pow_le_mono_r; lia). lia.
  - destruct (Z_lt_le_dec d (Zdigits2 m)); [|lia].
    assert (2 ^ d <= 2 ^ (Zdigits2 m - 1)) by (apply Z.pow_le_mono_r; lia). lia.
Qed.


Lemma Zdigits2_pos m : 0 < m -> 0 < Zdigits2 m.
Proof. destruct m; simpl; lia. Qed.


Lemma iter_pos_nat {A} (f : A -> A) p : forall x,
  SpecFloat.iter_pos f p x = Nat.iter (Pos.to_nat p) f x.
Proof.
  induction p; intros x; cbn [SpecFloat.iter_pos].
  - rewrite !IHp, <- Nat.iter_add, Nat.iter_swap.
    replace (Pos.to_nat p~1) with (S (Pos.to_nat p + Pos.to_nat p)) by lia.
    reflexivity.
  - rewrite !IHp, <- Nat.iter_add.
    replace (Pos.to_nat p~0) with (Pos.to_nat p + Pos.to_nat p)%nat by lia.
    reflexivity.
  - reflexivity.
Qed.

Lemma shr_1_m mrs : 0 <= shr_m mrs -> shr_m (shr_1 mrs) = shr_m mrs / 2.
Proof.
  destruct mrs as [m r s]; simpl. intros Hm.
  destruct m as [|[p|p|]|p]; simpl; try lia; try reflexivity.
  - apply Z.div_unique with 1; lia.
  - apply Z.div_unique with 0; lia.
Qed.

Lemma shr_iter_m k : forall mrs, 0 <= shr_m mrs ->
  shr_m (Nat.iter k shr_1 mrs) = shr_m mrs / 2 ^ Z.of_nat k.
Proof.
  induction k; intros mrs Hm.
  - simpl. rewrite Z.div_1_r. reflexivity.
  - rewrite Nat2Z.inj_succ, Z.pow_succ_r by lia. rewrite Nat.iter_succ.
    rewrite shr_1_m.
    + rewrite IHk by assumption.
      assert (0 < 2 ^ Z.of_nat k) by (apply Z.pow_pos_nonneg; lia).
      rewrite Z.div_div by lia. f_equal. lia.
    + rewrite IHk by assumption. apply Z.div_pos; lia.
Qed.

Lemma shr_spec mrs e n :
  0 <= shr_m mrs -> 0 <= n ->
  shr_m (fst (shr mrs e n)) = shr_m mrs / 2 ^ n /\ snd (shr mrs e n) = e + n.
Proof.
  intros Hm Hn. destruct n as [|p|p]; simpl; try lia.
  - rewrite Z.div_1_r. split; [reflexivity | lia].
  - split; [|reflexivity]. rewrite iter_pos_nat, shr_iter_m by assumption.
    rewrite positive_nat_Z. reflexivity.
Qed.

Lemma shr_record_of_loc_m m l : shr_m (shr_record_of_loc m l) = m.
Proof. destruct l as [|[]]; reflexivity. Qed.

Lemma round_nearest_even_bounds m l :
  m <= round_nearest_even m l <= m + 1.
Proof.
  destruct l as [|[]]; simpl; try lia. destruct (Z.even m); lia.
Qed.

Lemma shr_nonpos mrs e n : n <= 0 -> shr mrs e n = (mrs, e).
Proof. destruct n; simpl; try reflexivity. lia. Qed.

Lemma Pos_iter_xO (m d : positive) :
  Zpos (Pos.iter xO m d) = Zpos m * 2 ^ Zpos d.
Proof.
  induction d as [|d IH] using Pos.peano_ind.
  - simpl. lia.
  - rewrite Pos.iter_succ, Pos2Z.inj_xO, IH, Pos2Z.inj_succ.
    rewrite Z.pow_succ_r by lia. lia.
Qed.

Lemma shl_align_spec (mx : positive) (ex ex' : Z) :
  let '(m', e') := shl_align mx ex ex' in
  (ex' < ex /\ Zpos m' = Zpos mx * 2 ^ (ex - ex') /\ e' = ex') \/
  (ex <= ex' /\ m' = mx /\ e' = ex).
Proof.
  unfold shl_align. destruct (ex' - ex) as [|d|d] eqn:Hd.
  - right. split; [lia|]. split; reflexivity.
  - right. split; [lia|]. split; reflexivity.
  - left. split; [lia|]. split; [|reflexivity].
    rewrite Pos_iter_xO. f_equal. f_equal. lia.
Qed.

Section Rounding.
Variables prec emax : Z.
Hypothesis Hprec : 0 < prec.

Abbreviation fexp := (fexp prec emax).
Abbreviation emin := (emin prec emax).

Lemma fexp_spec e : fexp e = Z.max (e - prec) emin.
Proof. reflexivity. Qed.


Lemma binary_round_aux_spec s M E l :
  0 < M -> E <= fexp (Zdigits2 M + E) ->
  let e1 := fexp (Zdigits2 M + E) in
  let m1 := M / 2 ^ (e1 - E) in
  let r := binary_round_aux prec emax s M E l in
  valid_binary prec emax r = true /\
  (emin < e1 -> 2 ^ (prec - 1) <= m1) /\
  ((r = S754_zero s /\ m1 = 0) \/
   (r = S754_infinity s /\ emax - prec <= e1) \/
   exists m e,
     r = S754_finite s m e /\
     ((e = e1 /\ m1 <= Zpos m <= m1 + 1) \/
      (e = e1 + 1 /\ m1 = 2 ^ prec - 1 /\ Zpos m = 2 ^ (prec - 1)))).
Proof.
  intros HM Hn e1 m1 r.
  assert (HD := Zdigits2_bounds M HM).
  assert (HDpos := Zdigits2_pos M HM).
  set (D := Zdigits2 M) in *.
  assert (Hmin : emin <= e1) by (unfold e1; rewrite fexp_spec; lia).
  assert (Hn1 : D - prec <= e1 - E) by (unfold e1; rewrite fexp_spec; lia).
  assert (Hn0 : 0 <= e1 - E) by (unfold e1; lia).
  assert (Hp2 : 0 < 2 ^ (e1 - E)) by (apply Z.pow_pos_nonneg; lia).
  assert (Hm1lo : 0 <= m1) by (apply Z.div_pos; lia).
  assert (Hm1hi : m1 < 2 ^ prec).
  { apply Z.div_lt_upper_bound; [exact Hp2|].
    rewrite <- Z.pow_add_r by lia.
    assert (2 ^ D <= 2 ^ (e1 - E + prec)) by (apply Z.pow_le_mono_r; lia).
    lia. }
  assert (Hnormal : emin < e1 -> 2 ^ (prec - 1) <= m1).
  { intros Hlt. assert (He : e1 - E = D - prec)
      by (unfold e1 in *; rewrite fexp_spec in *; lia).
    apply Z.div_le_lower_bound; [exact Hp2|].
    rewrite <- Z.pow_add_r by lia. rewrite He.
    replace (D - prec + (prec - 1)) with (D - 1) by lia. lia. }
  unfold r, binary_round_aux, shr_fexp. fold D. fold e1.
  destruct (shr_spec (shr_record_of_loc M l) E (e1 - E)) as [S1m S1e];
    [rewrite shr_record_of_loc_m; lia | exact Hn0 |].
  destruct (shr (shr_record_of_loc M l) E (e1 - E)) as [mrs' e'].
  simpl in S1m, S1e. rewrite shr_record_of_loc_m in S1m. fold m1 in S1m.
  assert (He' : e' = e1) by lia. clear S1e. subst e'.
  pose proof (round_nearest_even_bounds (shr_m mrs') (loc_of_shr_record mrs'))
    as Hrnd.
  set (m2 := round_nearest_even (shr_m mrs') (loc_of_shr_record mrs')) in *.
  rewrite S1m in Hrnd.
  destruct (Z.eq_dec m2 0) as [Hz|Hnz].
  - (* the rounded mantissa is zero *)
    rewrite Hz. simpl Zdigits2. rewrite Z.add_0_l.
    rewrite shr_nonpos by (rewrite fexp_spec; lia).
    simpl. split; [reflexivity|]. split; [exact Hnormal|].
    left. split; [reflexivity | lia].
  - assert (Hm2 : 0 < m2) by lia.
    assert (HD2 := Zdigits2_bounds m2 Hm2).
    destruct (Z.eq_dec m2 (2 ^ prec)) as [Hcarry|Hnc].
    + (* the rounding carried into a new bit *)
      assert (HD2e : Zdigits2 m2 = prec + 1).
      { apply Zdigits2_unique; [exact Hm2|].
        replace (prec + 1 - 1) with prec by lia. rewrite Hcarry.
        split; [lia|]. rewrite Z.pow_add_r by lia. 
        assert (0 < 2 ^ prec) by (apply Z.pow_pos_nonneg; lia). lia. }
      rewrite HD2e.
      replace (fexp (prec + 1 + e1) - e1) with 1
        by (rewrite fexp_spec; lia).
      destruct (shr_spec (shr_record_of_loc m2 loc_Exact) e1 1) as [S2m S2e];
        [simpl; lia | lia |].
      destruct (shr (shr_record_of_loc m2 loc_Exact) e1 1) as [mrs'' e''].
      cbn [fst snd] in S2m, S2e. subst e''.
      assert (Hhalf : shr_m mrs'' = 2 ^ (prec - 1)).
      { rewrite S2m. cbn [shr_m shr_record_of_loc]. rewrite Hcarry.
        replace prec with (prec - 1 + 1) at 1 by lia.
        rewrite Z.pow_add_r by lia. apply Z.div_mul. lia. }
      rewrite Hhalf.
      assert (Hpp : 0 < 2 ^ (prec - 1)) by (apply Z.pow_pos_nonneg; lia).
      destruct (2 ^ (prec - 1)) as [|q|q] eqn:Hq; try lia.
      assert (Hdq : Zpos (digits2_pos q) = prec).
      { change (Zdigits2 (Zpos q) = prec). apply Zdigits2_unique; [lia|].
        rewrite <- Hq. split; [lia|].
        apply Z.pow_lt_mono_r; lia. }
      destruct (e1 + 1 <=? emax - prec) eqn:Hov.
      * split.
        -- simpl. unfold bounded, canonical_mantissa. rewrite Hdq, Hov.
           rewrite andb_true_r. apply Z.eqb_eq. rewrite fexp_spec. lia.
        -- split; [exact Hnormal|].
           right; right. exists q, (e1 + 1). split; [reflexivity|].
           right. split; [reflexivity|]. split; [lia | reflexivity].
      * split; [reflexivity|]. split; [exact Hnormal|].
        right; left. split; [reflexivity|].
        apply Z.leb_gt in Hov. lia.
    + (* no carry *)
      assert (Hlt2 : m2 < 2 ^ prec) by lia.
      assert (HD2p : Zdigits2 m2 <= prec).
      { destruct (Z_le_gt_dec (Zdigits2 m2) prec); [assumption|].
        assert (2 ^ prec <= 2 ^ (Zdigits2 m2 - 1))
          by (apply Z.pow_le_mono_r; lia). lia. }
      assert (Hcanon : fexp (Zdigits2 m2 + e1) = e1).
      { rewrite fexp_spec.
        destruct (Z.eq_dec e1 emin) as [->|Hne]; [lia|].
        assert (Hlo : 2 ^ (prec - 1) <= m2) by (specialize (Hnormal ltac:(lia)); lia).
        assert (Zdigits2 m2 = prec) by (apply Zdigits2_unique; lia).
        lia. }
      rewrite Hcanon, Z.sub_diag. simpl shr. cbn [fst snd shr_m shr_record_of_loc].
      destruct m2 as [|q|q] eqn:Hq; try lia.
      destruct (e1 <=? emax - prec) eqn:Hov.
      * split.
        -- simpl. unfold bounded, canonical_mantissa. rewrite Hov.
           rewrite andb_true_r. apply Z.eqb_eq. exact Hcanon.
        -- split; [exact Hnormal|].
           right; right. exists q, e1. split; [reflexivity|].
           left. split; [reflexivity | lia].
      * split; [reflexivity|]. split; [exact Hnormal|].
        right; left. split; [reflexivity|].
        apply Z.leb_gt in Hov. lia.
Qed.

(** A mantissa already in canonical position is kept as it is. *)
Lemma binary_round_aux_exact s (m : positive) E :
  bounded prec emax m E = true ->
  binary_round_aux prec emax s (Zpos m) E loc_Exact = S754_finite s m E.
Proof.
  unfold bounded, canonical_mantissa. intros Hb.
  apply andb_prop in Hb. destruct Hb as [Hc He].
  apply Z.eqb_eq in Hc.
  unfold binary_round_aux, shr_fexp.
  change (Zdigits2 (Zpos m)) with (Zpos (digits2_pos m)).
  rewrite Hc, Z.sub_diag.
  cbn [shr shr_record_of_loc loc_of_shr_record shr_m round_nearest_even].
  change (Zdigits2 (Zpos m)) with (Zpos (digits2_pos m)).
  rewrite Hc, Z.sub_diag.
  cbn [shr shr_record_of_loc shr_m]. rewrite He. reflexivity.
Qed.

Lemma bounded_spec (m : positive) (e : Z) :
  bounded prec emax m e = true <->
  emin <= e <= emax - prec /\ Zdigits2 (Zpos m) <= prec /\
  (e = emin \/ Zdigits2 (Zpos m) = prec).
Proof.
  unfold bounded, canonical_mantissa. rewrite andb_true_iff, Z.eqb_eq, Z.leb_le.
  simpl Zdigits2. rewrite fexp_spec. lia.
Qed.

Lemma binary_round_spec s (m : positive) E :
  let D := Zdigits2 (Zpos m) in
  let r := binary_round prec emax s m E in
  valid_binary prec emax r = true /\
  (emin < D + E - prec ->
   r = S754_infinity s \/
   exists m' e', r = S754_finite s m' e' /\ D + E - prec <= e') /\
  (bounded prec emax m E = true -> r = S754_finite s m E).
Proof.
  intros D r. unfold r, binary_round.
  assert (HD := Zdigits2_bounds (Zpos m) ltac:(lia)).
  assert (HDp := Zdigits2_pos (Zpos m) ltac:(lia)).
  change (Zpos (digits2_pos m)) with (Zdigits2 (Zpos m)). fold D in HD, HDp |- *.
  pose proof (shl_align_spec m E (fexp (D + E))) as Hsh.
  destruct (shl_align m E (fexp (D + E))) as [mz ez].
  assert (Hin : ez <= fexp (Zdigits2 (Zpos mz) + ez) /\
                Zdigits2 (Zpos mz) + ez = D + E).
  { destruct Hsh as [(Hlt & Hm & ->)|(Hge & -> & ->)].
    - assert (Hdz : Zdigits2 (Zpos mz) = D + (E - fexp (D + E))).
      { apply Zdigits2_unique; [lia|]. rewrite Hm.
        replace (D + (E - fexp (D + E)) - 1)
          with (D - 1 + (E - fexp (D + E))) by lia.
        rewrite !Z.pow_add_r by lia.
        assert (0 < 2 ^ (E - fexp (D + E))) by (apply Z.pow_pos_nonneg; lia).
        nia. }
      rewrite Hdz.
      replace (D + (E - fexp (D + E)) + fexp (D + E)) with (D + E) by lia.
      lia.
    - fold D. lia. }
  destruct Hin as [Hin Hsum].
  destruct (binary_round_aux_spec s (Zpos mz) ez loc_Exact ltac:(lia) Hin)
    as (Hv & Hnorm & Hcases).
  rewrite Hsum in Hnorm, Hcases.
  split; [exact Hv|]. split.
  - intros Hn.
    assert (He1 : fexp (D + E) = D + E - prec) by (rewrite fexp_spec; lia).
    specialize (Hnorm ltac:(lia)).
    assert (0 < 2 ^ (prec - 1)) by (apply Z.pow_pos_nonneg; lia).
    destruct Hcases as [[_ Hz]|[[Hr _]|(m' & e' & Hr & Hc)]].
    + lia.
    + left. exact Hr.
    + right. exists m', e'. split; [exact Hr|]. lia.
  - intros Hb.
    destruct Hsh as [(Hlt & Hm & ->)|(Hge & -> & ->)].
    + apply bounded_spec in Hb. fold D in Hb. rewrite fexp_spec in Hlt. lia.
    + apply binary_round_aux_exact. exact Hb.
Qed.

Hypothesis Hemin : emin <= 0.

Lemma Zdigits2_mul_lower (a b : positive) :
  Zdigits2 (Zpos a) + Zdigits2 (Zpos b) - 1 <= Zdigits2 (Zpos (a * b)).
Proof.
  assert (Ha := Zdigits2_bounds (Zpos a) ltac:(lia)).
  assert (Hb := Zdigits2_bounds (Zpos b) ltac:(lia)).
  assert (Hab := Zdigits2_bounds (Zpos (a * b)) ltac:(lia)).
  assert (Hda := Zdigits2_pos (Zpos a) ltac:(lia)).
  assert (Hdb := Zdigits2_pos (Zpos b) ltac:(lia)).
  set (da := Zdigits2 (Zpos a)) in *. set (db := Zdigits2 (Zpos b)) in *.
  set (dab := Zdigits2 (Zpos (a * b))) in *.
  destruct (Z_le_gt_dec (da + db - 1) dab) as [|Hgt]; [assumption|].
  exfalso.
  assert (H1 : 2 ^ dab <= 2 ^ (da - 1 + (db - 1)))
    by (apply Z.pow_le_mono_r; lia).
  rewrite Z.pow_add_r in H1 by lia.
  rewrite Pos2Z.inj_mul in Hab.
  assert (2 ^ (da - 1) * 2 ^ (db - 1) <= Zpos a * Zpos b)
    by (apply Z.mul_le_mono_nonneg; lia).
  lia.
Qed.

Theorem SFmul_valid (x y : spec_float) :
  valid_binary prec emax x = true -> valid_binary prec emax y = true ->
  valid_binary prec emax (SFmul prec emax x y) = true.
Proof.
  destruct x as [sx|sx| |sx mx ex], y as [sy|sy| |sy my ey];
    try reflexivity.
  simpl valid_binary at 1 2. intros Hx Hy.
  apply bounded_spec in Hx, Hy.
  unfold SFmul.
  pose proof (Zdigits2_mul_lower mx my) as Hd.
  pose proof (Zdigits2_pos (Zpos mx) ltac:(lia)).
  pose proof (Zdigits2_pos (Zpos my) ltac:(lia)).
  apply binary_round_aux_spec; [lia|].
  rewrite fexp_spec. lia.
Qed.
End Rounding.

Lemma shr_1_double (z : Z) :
  0 <= z ->
  shr_1 (Build_shr_record (2 * z) false false) = Build_shr_record z false false.
Proof. destruct z as [|p|p]; simpl; try reflexivity; lia. Qed.

Lemma shr_iter_exact (k : nat) : forall z,
  0 <= z ->
  Nat.iter k shr_1 (Build_shr_record (z * 2 ^ Z.of_nat k) false false)
  = Build_shr_record z false false.
Proof.
  induction k as [|k IH]; intros z Hz.
  - simpl. rewrite Z.mul_1_r. reflexivity.
  - rewrite Nat.iter_succ_r. rewrite Nat2Z.inj_succ, Z.pow_succ_r by lia.
    replace (z * (2 * 2 ^ Z.of_nat k)) with (2 * (z * 2 ^ Z.of_nat k)) by lia.
    rewrite shr_1_double.
    + apply IH. exact Hz.
    + apply Z.mul_nonneg_nonneg; [exact Hz|]. apply Z.pow_nonneg. lia.
Qed.

Lemma Zdigits2_shift (m k : Z) :
  0 < m -> 0 <= k -> Zdigits2 (m * 2 ^ k) = Zdigits2 m + k.
Proof.
  intros Hm Hk. assert (Hb := Zdigits2_bounds m Hm).
  assert (Hd := Zdigits2_pos m Hm).
  assert (0 < 2 ^ k) by (apply Z.pow_pos_nonneg; lia).
  apply Zdigits2_unique; [nia|].
  replace (Zdigits2 m + k - 1) with (Zdigits2 m - 1 + k) by lia.
  rewrite !Z.pow_add_r by lia. nia.
Qed.

Section Exact.
Variables prec emax : Z.

(** A mantissa whose low [n] bits are zero is shifted into canonical
    position without rounding. *)
Lemma binary_round_aux_exact_shift s (m0 p : positive) (E n : Z) :
  0 < n -> Zpos p = Zpos m0 * 2 ^ n ->
  bounded prec emax m0 (E + n) = true ->
  binary_round_aux prec emax s (Zpos p) E loc_Exact = S754_finite s m0 (E + n).
Proof.
  intros Hn Hp Hb.
  assert (Hb' := Hb). unfold bounded, canonical_mantissa in Hb'.
  apply andb_prop in Hb'. destruct Hb' as [Hc He]. apply Z.eqb_eq in Hc.
  change (Zpos (digits2_pos m0)) with (Zdigits2 (Zpos m0)) in Hc.
  unfold binary_round_aux, shr_fexp.
  rewrite Hp, Zdigits2_shift by lia.
  replace (Zdigits2 (Zpos m0) + n + E) with (Zdigits2 (Zpos m0) + (E + n))
    by lia.
  rewrite Hc. replace (E + n - E) with n by lia.
  destruct n as [|k|k]; try lia.
  cbn [shr shr_record_of_loc].
  rewrite iter_pos_nat.
  replace (Zpos m0 * 2 ^ Zpos k)
    with (Zpos m0 * 2 ^ Z.of_nat (Pos.to_nat k))
    by (rewrite positive_nat_Z; reflexivity).
  rewrite shr_iter_exact by lia.
  cbn [loc_of_shr_record shr_m round_nearest_even].
  rewrite Hc, Z.sub_diag.
  cbn [shr shr_record_of_loc shr_m]. rewrite He. reflexivity.
Qed.

(** [binary_round] returns the canonical representation of a number that
    has one. *)
Lemma binary_round_canonical s (p m0 : positive) (E : Z) :
  let ec := Zdigits2 (Zpos p) + E - prec in
  (ec <= E -> Zpos m0 = Zpos p * 2 ^ (E - ec)) ->
  (E < ec -> Zpos p = Zpos m0 * 2 ^ (ec - E)) ->
  emin prec emax <= ec <= emax - prec ->
  binary_round prec emax s p E = S754_finite s m0 ec.
Proof.
  intros ec Hle Hgt Hrange.
  assert (Hfexp : fexp prec emax (Zdigits2 (Zpos p) + E) = ec)
    by (unfold ec; rewrite fexp_spec; lia).
  assert (Hdp := Zdigits2_pos (Zpos p) ltac:(lia)).
  assert (Hb : bounded prec emax m0 ec = true).
  { apply bounded_spec.
    assert (Zdigits2 (Zpos m0) = prec).
    { destruct (Z_le_gt_dec ec E) as [H|H].
      - rewrite (Hle H), Zdigits2_shift by lia. unfold ec. lia.
      - assert (Hs := Zdigits2_shift (Zpos m0) (ec - E) ltac:(lia) ltac:(lia)).
        rewrite <- (Hgt ltac:(lia)) in Hs. unfold ec in *. lia. }
    lia. }
  unfold binary_round.
  change (Zpos (digits2_pos p)) with (Zdigits2 (Zpos p)). rewrite Hfexp.
  pose proof (shl_align_spec p E ec) as Hsh.
  destruct (shl_align p E ec) as [mz ez].
  destruct Hsh as [(Hlt & Hm & ->)|(Hge & -> & ->)].
  - assert (mz = m0) by (specialize (Hle ltac:(lia)); lia). subst mz.
    apply binary_round_aux_exact. exact Hb.
  - destruct (Z.eq_dec E ec) as [Heq|Hne].
    + assert (p = m0).
      { specialize (Hle ltac:(lia)). rewrite Heq, Z.sub_diag in Hle.
        simpl in Hle. lia. }
      subst p. rewrite Heq in *. apply binary_round_aux_exact. exact Hb.
    + replace ec with (E + (ec - E)) by lia.
      apply binary_round_aux_exact_shift; [lia | apply Hgt; lia |].
      replace (E + (ec - E)) with ec by lia. exact Hb.
Qed.
End Exact.


(** ** Inversion of the sequencing *)

Lemma bind_Ok {A B} (r : result A) (k : A -> result B) (b : B) :
  bind r k = Ok b -> exists a, r = Ok a /\ k a = Ok b.
Proof. destruct r as [a|f]; simpl; [eauto | discriminate]. Qed.

Ltac bind_inv H :=
  let a := fresh "a" in
  let Ha := fresh "H" a in
  apply bind_Ok in H; destruct H as (a & Ha & H).

Lemma Apply_Ok af pre s inp n s' :
  Apply af pre s inp n = Ok s' ->
  exists s1 s2,
    samples_of n <= af * 2 /\
    FindPeaks pre s inp (samples_of n) = Ok s1 /\
    SaveTailFrame s1 n = Ok s2 /\
    Release s2 = Ok s'.
Proof.
  unfold Apply.
  destruct (samples_of n <=? af * 2) eqn:Hle; [|discriminate].
  intros H. bind_inv H. bind_inv H.
  exists a, a0. repeat split; auto. lia.
Qed.

Lemma FindPeaks_frame pre s inp k s1 :
  FindPeaks pre s inp k = Ok s1 ->
  tail s1 = tail s /\ limited_ms s1 = limited_ms s /\
  non_limited_ms s1 = non_limited_ms s.
Proof.
  unfold FindPeaks. intros H. bind_inv H.
  destruct a as [[lp ppl] ppr].
  bind_inv H. destruct a as [[o1 pl] sl].
  bind_inv H. destruct a as [[o2 pr] sr].
  injection H as <-. simpl. auto.
Qed.

Lemma SaveTailFrame_frame s n s2 :
  SaveTailFrame s n = Ok s2 ->
  out s2 = out s /\ peak s2 = peak s /\ limit_scale s2 = limit_scale s /\
  limited_ms s2 = limited_ms s /\ non_limited_ms s2 = non_limited_ms s.
Proof.
  unfold SaveTailFrame. destruct (n =? 0).
  - intros [= <-]. simpl. auto.
  - intros H. bind_inv H. bind_inv H. injection H as <-. simpl. auto.
Qed.

Lemma Release_frame s s' :
  Release s = Ok s' ->
  out s' = out s /\ tail s' = tail s /\ limit_scale s' = limit_scale s /\
  limited_ms s' = limited_ms s + 1 /\
  non_limited_ms s' = non_limited_ms s /\
  peak s' = mkFrame (release_side (left (peak s)))
                    (release_side (right (peak s))).
Proof.
  unfold Release. destruct (limited_ms s =? INT_MAX); [discriminate|].
  intros [= <-]. simpl. repeat split; reflexivity.
Qed.

(** ** Comparisons *)

Lemma SFcompare_antisym (x y : spec_float) :
  SFcompare y x = option_map CompOpp (SFcompare x y).
Proof.
  destruct x as [sx|sx| |sx mx ex], y as [sy|sy| |sy my ey]; simpl;
    try destruct sx; try destruct sy; try reflexivity.
  all: rewrite (Z.compare_antisym ey ex).
  all: assert (Hm : Pos.compare_cont Eq my mx
                    = CompOpp (Pos.compare_cont Eq mx my))
         by (symmetry; apply (Pos.compare_cont_antisym mx my Eq)).
  all: destruct (ey ?= ex); simpl; rewrite ?Hm, ?CompOpp_involutive;
    reflexivity.
Qed.

Lemma leb_not_gtb (x y : float) : F32.leb x y = true -> F32.gtb x y = false.
Proof.
  unfold F32.leb, F32.gtb, SFleb, SFltb.
  rewrite (SFcompare_antisym x y).
  destruct (SFcompare x y) as [[]|]; simpl; congruence.
Qed.

Lemma read_Ok {A} (l : list A) (i : Z) (x : A) :
  read l i = Ok x -> 0 <= i /\ l !! Z.to_nat i = Some x.
Proof.
  unfold read. destruct (i <? 0) eqn:Hi; [discriminate|].
  destruct (l !! Z.to_nat i); [|discriminate].
  intros [= ->]. split; [lia | reflexivity].
Qed.

(** ** Release (C5) *)

(** C5, as amended: every call to Apply runs FindPeaks, then the tail
    capture, then the release step; the release step adds exactly one to
    [limited_ms] and, for each channel on its own, replaces a tracked
    peak above the bound by the binary32 difference of the peak and
    [upper_bound * 0.002709201f] (a binary32 product), and leaves a
    tracked peak at or below the bound as it is.  The difference is
    rounded, so the peak does not drop by exactly that product
    ([release_decrement_is_not_exact] below). *)
Theorem Apply_releases_after_tail_capture af pre s inp n s' :
  Apply af pre s inp n = Ok s' ->
  exists s1 s2,
    FindPeaks pre s inp (samples_of n) = Ok s1 /\
    SaveTailFrame s1 n = Ok s2 /\
    tail s' = tail s2 /\
    limited_ms s' = limited_ms s + 1 /\
    (F32.gtb (left (peak s2)) upper_bound = true ->
     left (peak s') = F32.sub (left (peak s2)) (F32.mul upper_bound delta_db)) /\
    (F32.leb (left (peak s2)) upper_bound = true ->
     left (peak s') = left (peak s2)) /\
    (F32.gtb (right (peak s2)) upper_bound = true ->
     right (peak s') = F32.sub (right (peak s2)) (F32.mul upper_bound delta_db)) /\
    (F32.leb (right (peak s2)) upper_bound = true ->
     right (peak s') = right (peak s2)).
Proof.
  intros H. apply Apply_Ok in H. destruct H as (s1 & s2 & _ & H1 & H2 & H3).
  exists s1, s2.
  apply Release_frame in H3. destruct H3 as (_ & Ht & _ & Hl & _ & Hp).
  apply FindPeaks_frame in H1 as H1'. destruct H1' as (_ & Hl1 & _).
  apply SaveTailFrame_frame in H2 as H2'.
  destruct H2' as (_ & _ & _ & Hl2 & _).
  repeat split; auto; try lia; rewrite Hp; simpl; unfold release_side;
    intros Hc; try apply leb_not_gtb in Hc; rewrite Hc; reflexivity.
Qed.

Lemma Apply_releases_after_tail_capture_witness :
  exists s1 s2,
    FindPeaks unit_prescale (construct (zeros 8)) right_peak_block
              (samples_of 4) = Ok s1 /\
    SaveTailFrame s1 4 = Ok s2 /\
    tail after_right_peak_block = tail s2 /\
    limited_ms after_right_peak_block = limited_ms (construct (zeros 8)) + 1 /\
    (F32.gtb (left (peak s2)) upper_bound = true ->
     left (peak after_right_peak_block)
     = F32.sub (left (peak s2)) (F32.mul upper_bound delta_db)) /\
    (F32.leb (left (peak s2)) upper_bound = true ->
     left (peak after_right_peak_block) = left (peak s2)) /\
    (F32.gtb (right (peak s2)) upper_bound = true ->
     right (peak after_right_peak_block)
     = F32.sub (right (peak s2)) (F32.mul upper_bound delta_db)) /\
    (F32.leb (right (peak s2)) upper_bound = true ->
     right (peak after_right_peak_block) = right (peak s2)).
Proof.
  apply (Apply_releases_after_tail_capture 4 unit_prescale
           (construct (zeros 8)) right_peak_block 4 after_right_peak_block).
  vm_compute. reflexivity.
Defined.

(** C5, the claim as worded fails: a peak above the bound is not lowered
    by exactly [upper_bound * 0.002709201].  On a fresh limiter the block
    with the peak of 40000 leaves, after the tail capture, a tracked left
    peak of 40000, and the release step takes it to 39911.2265625: a drop
    of 88.7734375, which is neither the binary32 product
    [upper_bound * 0.002709201f] = 11635575 / 2^17 = 88.7723... nor the
    real product 32767 * 0.002709201.  And a tracked peak of 2^32 is not
    lowered at all. *)
Lemma release_decrement_is_not_exact :
  (Apply 4 unit_prescale (construct (zeros 8)) peak_block 4
   = Ok after_peak_block /\
   exists s1 s2,
     FindPeaks unit_prescale (construct (zeros 8)) peak_block (samples_of 4)
     = Ok s1 /\
     SaveTailFrame s1 4 = Ok s2 /\ Release s2 = Ok after_peak_block /\
     F32.gtb (left (peak s2)) upper_bound = true /\
     (value_of (left (peak s2)) - value_of (left (peak after_peak_block))
      == 11363 # 128)%Q /\
     (value_of (F32.mul upper_bound delta_db) == 11635575 # 131072)%Q /\
     ~ (11363 # 128 == 11635575 # 131072)%Q /\
     ~ (11363 # 128 == 32767 * (2709201 # 1000000000))%Q) /\
  (Apply 2 unit_prescale (construct (zeros 4)) huge_block 2
   = Ok after_huge_block /\
   exists s1 s2,
     FindPeaks unit_prescale (construct (zeros 4)) huge_block (samples_of 2)
     = Ok s1 /\
     SaveTailFrame s1 2 = Ok s2 /\ Release s2 = Ok after_huge_block /\
     F32.gtb (left (peak s2)) upper_bound = true /\
     left (peak after_huge_block) = left (peak s2)).
Proof.
  split; (split; [vm_compute; reflexivity|]).
  - destruct (FindPeaks unit_prescale (construct (zeros 8)) peak_block
                (samples_of 4)) as [s1|] eqn:E1; [|vm_compute in E1; discriminate].
    destruct (SaveTailFrame s1 4) as [s2|] eqn:E2;
      [|vm_compute in E1; injection E1 as <-; vm_compute in E2; discriminate].
    exists s1, s2. vm_compute in E1. injection E1 as <-.
    vm_compute in E2. injection E2 as <-.
    split; [reflexivity|]. split; [reflexivity|].
    split; [vm_compute; reflexivity|]. split; [vm_compute; reflexivity|].
    split; [vm_compute; reflexivity|]. split; [vm_compute; reflexivity|].
    split; vm_compute; discriminate.
  - destruct (FindPeaks unit_prescale (construct (zeros 4)) huge_block
                (samples_of 2)) as [s1|] eqn:E1; [|vm_compute in E1; discriminate].
    destruct (SaveTailFrame s1 2) as [s2|] eqn:E2;
      [|vm_compute in E1; injection E1 as <-; vm_compute in E2; discriminate].
    exists s1, s2. vm_compute in E1. injection E1 as <-.
    vm_compute in E2. injection E2 as <-.
    split; [reflexivity|]. split; [reflexivity|].
    split; [vm_compute; reflexivity|]. split; vm_compute; reflexivity.
Qed.

(** ** Tail capture (C3) *)

(** SaveTailFrame reads the two last requested slots of the block that is
    returned: after a call with [n > 0] frames the tail holds the content
    of [out] at indices [2(n-1)] and [2(n-1)+1], converted to [float];
    after a call with [n = 0] it is {0, 0}. *)
Lemma Apply_tail_reads_last_slots af pre s inp n s' :
  0 <= n < UINT16_MOD ->
  Apply af pre s inp n = Ok s' ->
  (n = 0 -> tail s' = mkFrame F32.zero F32.zero) /\
  (0 < n ->
   exists l r,
     out s' !! Z.to_nat (2 * (n - 1)) = Some l /\
     out s' !! Z.to_nat (2 * (n - 1) + 1) = Some r /\
     tail s' = mkFrame (F32.of_Z l) (F32.of_Z r)).
Proof.
  intros Hn H. apply Apply_Ok in H. destruct H as (s1 & s2 & _ & _ & H2 & H3).
  apply Release_frame in H3. destruct H3 as (Ho & Ht & _).
  apply SaveTailFrame_frame in H2 as H2'. destruct H2' as (Ho2 & _).
  rewrite Ht, Ho. clear Ht Ho.
  unfold SaveTailFrame in H2. split.
  - intros ->. simpl in H2. injection H2 as <-. reflexivity.
  - intros Hpos. destruct (n =? 0) eqn:E; [lia|].
    bind_inv H2. bind_inv H2. injection H2 as <-. simpl.
    apply read_Ok in Ha, Ha0.
    replace (2 * (n - 1)) with ((n - 1) * 2) by lia.
    exists a, a0. intuition.
Qed.

(** C3 (what the code does on a full block): the scaling pass of the
    right channel stops two samples early, so the slot the tail of the
    right channel is read from is not written in the call.  On the block
    {1, 2, 3, 4} with two frames the left tail is 3, the sample just
    written, but the right tail is whatever the buffer held before (7 in
    one run, 9 in the other), not the conversion of the last right
    sample; after a call that did write the slot (a right peak in the
    last sample) the right tail of the next call is still that call's
    32767. *)
Theorem right_tail_reads_unwritten_slot :
  block_of (Apply 2 unit_prescale (construct [7; 7; 7; 7]) quiet_block 2)
  = Ok [1; 2; 3; 7] /\
  tail_of (Apply 2 unit_prescale (construct [7; 7; 7; 7]) quiet_block 2)
  = Ok (mkFrame (fz 3) (fz 7)) /\
  block_of (Apply 2 unit_prescale (construct [9; 9; 9; 9]) quiet_block 2)
  = Ok [1; 2; 3; 9] /\
  tail_of (Apply 2 unit_prescale (construct [9; 9; 9; 9]) quiet_block 2)
  = Ok (mkFrame (fz 3) (fz 9)) /\
  block_of (do s <- Apply 2 unit_prescale (construct (zeros 4))
                          last_sample_peak_block 2;
            Apply 2 unit_prescale s quiet_block 2)
  = Ok [1; 1; 3; 32767] /\
  tail_of (do s <- Apply 2 unit_prescale (construct (zeros 4))
                         last_sample_peak_block 2;
           Apply 2 unit_prescale s quiet_block 2)
  = Ok (mkFrame (fz 3) (fz 32767)) /\
  map cast_int16 quiet_block = [Ok 1; Ok 2; Ok 3; Ok 4].
Proof.
  split; [|split; [|split; [|split; [|split; [|split]]]]];
    vm_compute; reflexivity.
Qed.

(** ** Counters (C10) *)

Lemma step_counters af s o s' :
  step af s o = Ok s' ->
  (is_reset o = true /\ limited_ms s' = 0 /\ non_limited_ms s' = 0) \/
  (is_apply o = true /\ limited_ms s' = limited_ms s + 1 /\
   non_limited_ms s' = non_limited_ms s) \/
  (is_reset o = false /\ is_apply o = false /\
   limited_ms s' = limited_ms s /\ non_limited_ms s' = non_limited_ms s).
Proof.
  destruct o as [pre inp n| | |pre]; simpl; intros H.
  - right; left. apply Apply_Ok in H.
    destruct H as (s1 & s2 & _ & H1 & H2 & H3).
    apply FindPeaks_frame in H1. apply SaveTailFrame_frame in H2.
    apply Release_frame in H3. intuition congruence.
  - left. injection H as <-. auto.
  - right; right. injection H as <-. auto.
  - right; right. injection H as <-. auto.
Qed.

Lemma run_counters af ops : forall s s',
  forallb (fun o => negb (is_reset o)) ops = true ->
  run af s ops = Ok s' ->
  limited_ms s' = limited_ms s + Z.of_nat (length (filter is_apply ops)) /\
  non_limited_ms s' = non_limited_ms s.
Proof.
  induction ops as [|o ops IH]; simpl; intros s s' Hr H.
  - injection H as <-. lia.
  - apply andb_prop in Hr. destruct Hr as [Ho Hr].
    bind_inv H. apply (IH _ _ Hr) in H. destruct H as [Hl Hn].
    apply step_counters in Ha.
    destruct Ha as [(Hx & _)|[(Hx & Hl' & Hn')|(_ & Hx & Hl' & Hn')]].
    + rewrite Hx in Ho. discriminate.
    + rewrite filter_cons. rewrite Hx. simpl length. lia.
    + rewrite filter_cons. rewrite Hx. simpl. lia.
Qed.

(** C10: no operation adds to [non_limited_ms] (an operation leaves it as
    it is, except Reset, which stores 0); every Apply adds one to
    [limited_ms] whatever the signal was.  So [k] calls of Apply after the
    construction or after a Reset (with GetPeaks and PrintStats between
    them at will) leave [limited_ms = k] and [non_limited_ms = 0], and
    the fraction [limited_ms / (ms_total + 1)] is [k / (k + 1)], within
    [1 / (k + 1)] of 1. *)
Theorem limited_ms_counts_every_call af s0 ops s' :
  (exists o0, s0 = construct o0) \/ (exists s, s0 = Reset s) ->
  forallb (fun o => negb (is_reset o)) ops = true ->
  run af s0 ops = Ok s' ->
  let k := Z.of_nat (length (filter is_apply ops)) in
  limited_ms s' = k /\
  non_limited_ms s' = 0 /\
  (forall o s1 s2, step af s1 o = Ok s2 ->
     non_limited_ms s2 = non_limited_ms s1 \/
     (o = OpReset /\ non_limited_ms s2 = 0)) /\
  (limited_fraction s' == k # Z.to_pos (k + 1))%Q /\
  (1 - limited_fraction s' == 1 # Z.to_pos (k + 1))%Q.
Proof.
  intros H0 Hr H k.
  assert (Hz : limited_ms s0 = 0 /\ non_limited_ms s0 = 0)
    by (destruct H0 as [[o0 ->]|[s ->]]; split; reflexivity).
  destruct (run_counters af ops s0 s' Hr H) as [Hl Hn].
  assert (Hk : limited_ms s' = k) by (unfold k; lia).
  assert (Hn0 : non_limited_ms s' = 0) by lia.
  split; [exact Hk|]. split; [exact Hn0|]. split.
  - intros o s1 s2 Hs. apply step_counters in Hs.
    destruct Hs as [(Hx & _ & Hy)|[(_ & _ & Hy)|(_ & _ & _ & Hy)]]; auto.
    right. destruct o; try discriminate. auto.
  - unfold limited_fraction. rewrite Hk, Hn0.
    replace (k + 0 + 1) with (k + 1) by lia.
    split; [reflexivity|].
    unfold Qeq, Qminus, Qplus, Qopp. simpl.
    assert (Hp : Z.pos (Z.to_pos (k + 1)) = k + 1)
      by (apply Z2Pos.id; unfold k; lia).
    rewrite Pos2Z.inj_mul, !Hp. ring.
Qed.

Lemma limited_ms_counts_every_call_witness :
  limited_ms after_quiet_session = 2 /\
  non_limited_ms after_quiet_session = 0 /\
  (forall o s1 s2, step 2 s1 o = Ok s2 ->
     non_limited_ms s2 = non_limited_ms s1 \/
     (o = OpReset /\ non_limited_ms s2 = 0)) /\
  (limited_fraction after_quiet_session == 2 # 3)%Q /\
  (1 - limited_fraction after_quiet_session == 1 # 3)%Q.
Proof.
  apply (limited_ms_counts_every_call 2 (construct (zeros 4)) quiet_session
           after_quiet_session).
  - left. exists (zeros 4). reflexivity.
  - reflexivity.
  - vm_compute. reflexivity.
Defined.

(** ** The capacity check (C8) *)

Lemma Apply_rejects_unwrapped af pre s inp n :
  0 <= n < 32768 -> af * 2 < n * 2 ->
  Apply af pre s inp n = Fail AssertionFailed.
Proof.
  intros Hn Hlt. unfold Apply, samples_of.
  rewrite Z.mod_small by (unfold UINT16_MOD; lia).
  destruct (n * 2 <=? af * 2) eqn:E; [lia | reflexivity].
Qed.

(** C8 (what the code does at a frame count whose double does not fit
    sixteen bits): for [req_frames = 32768] the tested [samples] is 0, so
    the assertion holds although [2 * 32768] exceeds the capacity of a
    48-frame limiter, and the call goes on to read [out[65534]]. *)
Theorem Apply_assert_misses_wrapped_count :
  48 * 2 < 32768 * 2 /\
  samples_of 32768 = 0 /\
  Apply 48 unit_prescale (construct (zeros 96)) (replicate 96 F32.zero) 32768
  = Fail (OutOfBounds 65534).
Proof. split; [lia|]. split; vm_compute; reflexivity. Qed.

(** ** Range of the output (C1) *)

(** C1 (what the code does on three blocks): a right-channel peak makes
    the scalar pass of the right channel run over the left channel's
    samples after it, so the left sample 100000 is scaled by 32767/40000
    and 81917 is converted to int16_t; a peak that follows a tail of 30000
    is mapped to 41068 by the ramp; a sample beyond the requested frames
    is converted without having been scanned. *)
Theorem Apply_converts_out_of_range :
  Apply 4 unit_prescale (construct (zeros 8)) crossing_block 4
  = Fail (CastOutOfRange (Some 81917)) /\
  (do s <- Apply 4 unit_prescale (construct (zeros 8)) loud_block 4;
   Apply 4 unit_prescale s peak_block 4)
  = Fail (CastOutOfRange (Some 41068)) /\
  Apply 4 unit_prescale (construct (zeros 8))
        (map fz [0; 0; 0; 0; 100000; 0; 0; 0]) 2
  = Fail (CastOutOfRange (Some 100000)).
Proof. split; [|split]; vm_compute; reflexivity. Qed.

(** ** The two-segment curve (C2) *)

(** C2 (what the code does): with tail 30000 and new peak 40000 the ramp
    [add + x * mult] takes the tail to 38301 and the peak to 41068, not to
    30000 and 32767; and after a right-channel peak at index 1 the scalar
    pass starts at index 4, a left slot: the right samples 10, 30, 50 are
    not written (the slots keep their zeros) and the left sample 20 is
    replaced by 20 * 32767/40000. *)
Theorem new_peak_curve_misses :
  let add := fz 30000 in
  let local := fz 40000 in
  F32.trunc (adjusted add (peak_mult add local) add) = Some 38301 /\
  F32.trunc (adjusted add (peak_mult add local) local) = Some 41068 /\
  block_of (Apply 4 unit_prescale (construct (zeros 8)) right_peak_block 4)
  = Ok [0; 32767; 0; 0; 16; 0; 40; 0].
Proof. split; [|split]; vm_compute; reflexivity. Qed.

(** ** Pass-through (C4) *)

(** C4 (what the code does): on a fresh limiter and a block with no
    sample above the bound, the last right-channel slot is not written:
    the returned block ends in what the buffer held ([v3]; 0 over a
    zeroed buffer), not in the sample 4. *)
Theorem pass_through_skips_last_right_sample :
  block_of (Apply 2 unit_prescale (construct (zeros 4)) quiet_block 2)
  = Ok [1; 2; 3; 0] /\
  (forall v0 v1 v2 v3 : Z,
     block_of (Apply 2 unit_prescale (construct [v0; v1; v2; v3])
                     quiet_block 2)
     = Ok [1; 2; 3; v3]) /\
  map cast_int16 quiet_block = [Ok 1; Ok 2; Ok 3; Ok 4].
Proof.
  split; [|split]; [vm_compute; reflexivity | | vm_compute; reflexivity].
  intros v0 v1 v2 v3. vm_compute. reflexivity.
Qed.

(** ** What one run of ScaleSide writes *)

Lemma write_Ok {A} (l : list A) (i : Z) (x : A) (l' : list A) :
  write l i x = Ok l' ->
  0 <= i < Z.of_nat (length l) /\ l' = <[Z.to_nat i := x]> l.
Proof.
  unfold write.
  destruct ((0 <=? i) && (i <? Z.of_nat (length l))) eqn:E; [|discriminate].
  apply andb_prop in E. destruct E as [E1 E2].
  intros [= <-]. split; [lia | reflexivity].
Qed.

Lemma in_pass_step pos last j :
  in_pass pos last j <-> j = pos /\ pos <= last \/ in_pass (pos + 2) last j.
Proof.
  unfold in_pass. split.
  - intros [Hr Hm]. destruct (Z.eq_dec j pos) as [->|Hne]; [left; lia|].
    right. assert (j <> pos + 1).
    { intros ->. replace (pos + 1 - pos) with 1 in Hm by lia.
      discriminate. }
    split; [lia|].
    replace (j - (pos + 2)) with (j - pos + (-1) * 2) by lia.
    rewrite Z.mod_add by lia. exact Hm.
  - intros [[-> Hl]|[Hr Hm]].
    + split; [lia|]. rewrite Z.sub_diag. reflexivity.
    + split; [lia|]. replace (j - pos) with (j - (pos + 2) + 1 * 2) by lia.
      rewrite Z.mod_add by lia. exact Hm.
Qed.

Lemma ScaleSide_spec fuel inp pa pm : forall pos last o o',
  ScaleSide fuel inp pos last o pos pa pm = Ok o' ->
  length o' = length o /\
  (forall j, in_pass pos last j -> written_as inp o' j (pa, pm)) /\
  (forall j, 0 <= j -> ~ in_pass pos last j ->
             o' !! Z.to_nat j = o !! Z.to_nat j).
Proof.
  induction fuel as [|fuel IH]; intros pos last o o'; simpl.
  - destruct (pos <=? last) eqn:E; [discriminate|].
    intros [= <-]. split; [reflexivity|]. split.
    + intros j [Hr _]. lia.
    + reflexivity.
  - destruct (pos <=? last) eqn:E.
    + intros H. bind_inv H. bind_inv H. bind_inv H.
      apply read_Ok in Ha. destruct Ha as [Hpos Hx].
      apply write_Ok in Ha1. destruct Ha1 as [Hb ->].
      apply IH in H. destruct H as (Hlen & Hin & Hout).
      rewrite length_insert in Hlen.
      split; [exact Hlen|]. split.
      * intros j Hj. apply in_pass_step in Hj.
        destruct Hj as [[-> _]|Hj]; [|auto].
        exists a, a0. split; [exact Hx|]. split; [exact Ha0|].
        rewrite Hout; [|lia|unfold in_pass; lia].
        apply list_lookup_insert_eq. lia.
      * intros j Hj Hn.
        rewrite Hout; [|lia|].
        -- apply list_lookup_insert_ne. intros Heq.
           apply Hn. apply in_pass_step. left. split; lia.
        -- intros Hc. apply Hn. apply in_pass_step. right. exact Hc.
    + intros [= <-]. split; [reflexivity|]. split.
      * intros j [Hr _]. lia.
      * reflexivity.
Qed.

(** ** What the scan of FindPeaks finds *)

Lemma gtb_abs_nonneg (x cur : float) :
  nonneg cur -> F32.gtb (F32.abs x) cur = true ->
  nonneg (F32.abs x) /\ F32.abs x <> F32.zero.
Proof.
  destruct x as [s|s| |s m e], cur as [[]|[]| |[] m' e']; simpl;
    intros Hc H; try contradiction; try discriminate;
    split; try exact I; discriminate.
Qed.

Lemma mul_zero_not_above (pre : float) :
  F32.gtb (F32.mul F32.zero pre) upper_bound = false.
Proof. destruct pre as [s|s| |s m e]; reflexivity. Qed.

Lemma even_lt_succ (a b : Z) :
  a mod 2 = 0 -> b mod 2 = 0 -> a < b -> a + 1 < b.
Proof.
  intros Ha Hb Hlt.
  pose proof (Z.div_mod a 2). pose proof (Z.div_mod b 2). lia.
Qed.

Lemma scan_peaks_fresh fuel inp pos_end :
  pos_end mod 2 = 0 ->
  forall pos lp ppl ppr lp' ppl' ppr',
    0 <= pos -> pos mod 2 = 0 ->
    nonneg (left lp) -> nonneg (right lp) ->
    fresh_pos 0 pos_end (left lp) ppl ->
    fresh_pos 1 pos_end (right lp) ppr ->
    scan_peaks fuel inp pos pos_end lp ppl ppr = Ok (lp', ppl', ppr') ->
    fresh_pos 0 pos_end (left lp') ppl' /\
    fresh_pos 1 pos_end (right lp') ppr'.
Proof.
  intros Hend.
  induction fuel as [|fuel IH];
    intros pos lp ppl ppr lp' ppl' ppr' Hpos Hpar Hnl Hnr Hfl Hfr; simpl;
    (destruct (pos <? pos_end) eqn:E;
     [|intros [= <- <- <-]; split; assumption]).
  - discriminate.
  - intros H. bind_inv H. apply read_Ok in Ha. destruct Ha as [_ Hx].
    destruct (F32.gtb (F32.abs a) (left lp)) eqn:Gl;
      bind_inv H; apply read_Ok in Ha0; destruct Ha0 as [_ Hy];
      (destruct (F32.gtb (F32.abs a0) (right lp)) eqn:Gr);
      apply IH in H; auto; simpl;
      try lia;
      try (replace (pos + 1 + 1) with (pos + 1 * 2) by lia;
           rewrite Z.mod_add by lia; exact Hpar);
      try (apply gtb_abs_nonneg in Gl; [tauto | assumption]);
      try (apply gtb_abs_nonneg in Gr; [tauto | assumption]);
      right; eexists; (split; [reflexivity|]);
      pose proof (even_lt_succ pos pos_end Hpar Hend);
      (split; [lia|]);
      try exact Hpar;
      replace (pos + 1) with (1 + pos) by lia;
      rewrite <- Z.add_mod_idemp_r, Hpar by lia; reflexivity.
Qed.

Lemma scan_peaks_prefix fuel inp inp2 pos_end :
  pos_end mod 2 = 0 ->
  (forall i, 0 <= i < pos_end -> inp2 !! Z.to_nat i = inp !! Z.to_nat i) ->
  forall pos lp ppl ppr,
    0 <= pos -> pos mod 2 = 0 ->
    scan_peaks fuel inp2 pos pos_end lp ppl ppr
    = scan_peaks fuel inp pos pos_end lp ppl ppr.
Proof.
  intros Hend Hsame.
  induction fuel as [|fuel IH]; intros pos lp ppl ppr Hpos Hpar; simpl;
    [reflexivity|].
  destruct (pos <? pos_end) eqn:E; [|reflexivity].
  pose proof (even_lt_succ pos pos_end Hpar Hend).
  assert (R1 : read inp2 pos = read inp pos)
    by (unfold read; rewrite Hsame by lia; reflexivity).
  assert (R2 : read inp2 (pos + 1) = read inp (pos + 1))
    by (unfold read; rewrite Hsame by lia; reflexivity).
  rewrite R1. destruct (read inp pos) as [x|]; simpl; [|reflexivity].
  destruct (F32.gtb (F32.abs x) (left lp)); rewrite R2;
    (destruct (read inp (pos + 1)) as [y|]; simpl; [|reflexivity]);
    (destruct (F32.gtb (F32.abs y) (right lp)));
    apply IH; try lia;
    replace (pos + 1 + 1) with (pos + 1 * 2) by lia;
    rewrite Z.mod_add by lia; exact Hpar.
Qed.

(** ** What TriageSignal writes *)

Lemma written_as_keep inp o o' j c :
  o' !! Z.to_nat j = o !! Z.to_nat j ->
  written_as inp o j c -> written_as inp o' j c.
Proof.
  intros He (x & v & Hx & Hc & Ho). exists x, v.
  rewrite He. auto.
Qed.

Lemma in_pass_parity pos last j :
  in_pass pos last j -> j mod 2 = pos mod 2.
Proof.
  intros [_ Hm]. replace j with (pos + (j - pos)) at 1 by lia.
  rewrite <- Z.add_mod_idemp_r, Hm, Z.add_0_r by lia. reflexivity.
Qed.

Lemma in_pass_intro pos last j :
  pos <= j <= last -> j mod 2 = pos mod 2 -> in_pass pos last j.
Proof.
  intros Hr Hm. split; [exact Hr|].
  pose proof (Z.div_mod j 2). pose proof (Z.div_mod pos 2).
  replace (j - pos) with (0 + (j / 2 - pos / 2) * 2) by lia.
  rewrite Z.mod_add by lia. reflexivity.
Qed.

Lemma classic_in_pass pos last j : in_pass pos last j \/ ~ in_pass pos last j.
Proof.
  unfold in_pass.
  destruct (Z_le_dec pos j), (Z_le_dec j last),
    (Z.eq_dec ((j - pos) mod 2) 0); tauto.
Qed.

(** The left channel: every even slot of the array is written, with one
    of the pairs of the channel's curve. *)
Lemma TriageSignal_left_covers inp o local pp pre existing add scale
    pos_end o' e' sc' :
  Z.of_nat (length inp) mod 2 = 0 ->
  fresh_pos 0 pos_end local pp ->
  TriageSignal inp o LEFT local pp pre existing add scale = Ok (o', e', sc') ->
  forall j, 0 <= j < Z.of_nat (length inp) -> j mod 2 = 0 ->
    exists c, c ∈ triage_curve local pre existing add /\
              written_as inp o' j c.
Proof.
  intros HN Hfresh H j Hj Hpar.
  assert (Hlast : j <= Z.of_nat (length inp) - 2).
  { pose proof (even_lt_succ j _ Hpar HN). lia. }
  unfold TriageSignal in H. unfold triage_curve. unfold LEFT in H.
  destruct (F32.gtb (F32.mul local pre) existing
            && F32.gtb (F32.mul local pre) upper_bound) eqn:Enew.
  - apply andb_prop in Enew. destruct Enew as [_ Eub].
    destruct Hfresh as [->|(p & -> & Hp & Hpp)].
    { rewrite mul_zero_not_above in Eub. discriminate. }
    bind_inv H. bind_inv H. injection H as <- _ _.
    apply ScaleSide_spec in Ha, Ha0.
    destruct Ha as (_ & Hin1 & _). destruct Ha0 as (_ & Hin2 & Hout2).
    destruct (Z_le_gt_dec j p) as [Hle|Hgt].
    + exists (add, peak_mult add (F32.mul local pre)).
      split; [left|].
      apply (written_as_keep inp a).
      * apply Hout2; [lia|]. unfold in_pass. lia.
      * apply Hin1. apply in_pass_intro; [lia|]. rewrite Hpar. reflexivity.
    + exists (F32.zero, F32.div upper_bound (F32.mul local pre)).
      split; [right; left|].
      apply Hin2. apply in_pass_intro.
      * pose proof (even_lt_succ p j Hpp Hpar). lia.
      * replace (p + 0 + 2) with (p + 1 * 2) by lia.
        rewrite Z.mod_add by lia. congruence.
  - destruct (F32.gtb existing upper_bound) eqn:Eex.
    + bind_inv H. injection H as <- _ _.
      apply ScaleSide_spec in Ha. destruct Ha as (_ & Hin & _).
      eexists. split; [left|]. apply Hin.
      apply in_pass_intro; [lia|]. rewrite Hpar. reflexivity.
    + bind_inv H. injection H as <- _ _.
      apply ScaleSide_spec in Ha. destruct Ha as (_ & Hin & _).
      eexists. split; [left|]. apply Hin.
      apply in_pass_intro; [lia|]. rewrite Hpar. reflexivity.
Qed.

(** The right channel: an even slot keeps its content, or is written
    again with a pair of the right channel's curve. *)
Lemma TriageSignal_right_on_left_slots inp o local pp pre existing add scale
    o' e' sc' :
  TriageSignal inp o RIGHT local pp pre existing add scale
  = Ok (o', e', sc') ->
  forall j, 0 <= j -> j mod 2 = 0 ->
    o' !! Z.to_nat j = o !! Z.to_nat j \/
    exists c, c ∈ triage_curve local pre existing add /\
              written_as inp o' j c.
Proof.
  intros H j Hj Hpar.
  assert (Hodd : forall last, ~ in_pass 1 last j).
  { intros last Hc. apply in_pass_parity in Hc. rewrite Hpar in Hc.
    discriminate. }
  unfold TriageSignal in H. unfold triage_curve. unfold RIGHT in H.
  destruct (F32.gtb (F32.mul local pre) existing
            && F32.gtb (F32.mul local pre) upper_bound) eqn:Enew.
  - destruct pp as [p|]; [|discriminate].
    bind_inv H. bind_inv H. injection H as <- _ _.
    apply ScaleSide_spec in Ha, Ha0.
    destruct Ha as (_ & _ & Hout1). destruct Ha0 as (_ & Hin2 & Hout2).
    destruct (classic_in_pass (p + 1 + 2)
                (Z.of_nat (length inp) - (1 + 2)) j) as [Hin|Hnot].
    + right. eexists. split; [right; left|]. apply Hin2. exact Hin.
    + left. rewrite Hout2 by auto. apply Hout1; auto.
  - left. destruct (F32.gtb existing upper_bound) eqn:Eex;
      bind_inv H; injection H as <- _ _;
      apply ScaleSide_spec in Ha; destruct Ha as (_ & _ & Hout);
      apply Hout; auto.
Qed.

(** ** Which slots a call overwrites (C9) *)

Lemma samples_of_even n : samples_of n mod 2 = 0.
Proof.
  unfold samples_of, UINT16_MOD.
  pose proof (Z.div_mod (n * 2) 65536).
  replace ((n * 2) mod 65536)
    with (0 + (n - 32768 * (n * 2 / 65536)) * 2) by lia.
  rewrite Z.mod_add by lia. reflexivity.
Qed.


(** Every left-channel slot of the array is covered by a call. *)
Lemma left_slots_covered : covers left_slots.
Proof.
  intros af pre s inp n s' HN H. apply Apply_Ok in H.
  destruct H as (s1 & s2 & _ & H1 & H2 & H3).
  apply Release_frame in H3. destruct H3 as (Ho3 & _).
  apply SaveTailFrame_frame in H2. destruct H2 as (Ho2 & _).
  rewrite Ho3, Ho2. clear Ho3 Ho2 s2 s'.
  unfold FindPeaks in H1. bind_inv H1. destruct a as [[lp ppl] ppr].
  bind_inv H1. destruct a as [[o1 pl] sl].
  bind_inv H1. destruct a as [[o2 pr] sr].
  injection H1 as <-. cbn [out].
  exists lp, ppl, ppr. split; [exact Ha|].
  intros j Hj Hpar. apply Z.eqb_eq in Hpar.
  destruct (scan_peaks_fresh (S (length inp)) inp (samples_of n)
              (samples_of_even n) 0 no_peak (peak_pos_left s)
              (peak_pos_right s) lp ppl ppr) as [Hfl _];
    [lia | reflexivity | exact I | exact I | left; reflexivity
    | left; reflexivity | exact Ha |].
  assert (HN2 : Z.of_nat (length inp) mod 2 = 0)
    by (rewrite HN; apply Z.mod_mul; lia).
  destruct (TriageSignal_left_covers _ _ _ _ _ _ _ _ _ _ _ _ HN2 Hfl Ha0 j)
    as (c & Hc & Hw); [lia | exact Hpar |].
  destruct (TriageSignal_right_on_left_slots _ _ _ _ _ _ _ _ _ _ _ Ha1 j)
    as [Hkeep|(c' & Hc' & Hw')]; [lia | exact Hpar | |].
  - exists c. split; [apply elem_of_app; left; exact Hc|].
    apply (written_as_keep inp o1); assumption.
  - exists c'. split; [apply elem_of_app; right; exact Hc'|]. exact Hw'.
Qed.

(** The scan for peaks reads only the first [samples] entries of the
    input: a block with the same first [samples] entries gives the same
    peaks and positions. *)
Lemma scan_reads_requested_frames_only s inp inp2 n :
  length inp2 = length inp ->
  (forall i, 0 <= i < samples_of n ->
             inp2 !! Z.to_nat i = inp !! Z.to_nat i) ->
  scan_peaks (S (length inp2)) inp2 0 (samples_of n) no_peak
             (peak_pos_left s) (peak_pos_right s)
  = scan_peaks (S (length inp)) inp 0 (samples_of n) no_peak
               (peak_pos_left s) (peak_pos_right s).
Proof.
  intros Hlen Hsame. rewrite Hlen.
  apply scan_peaks_prefix; auto using samples_of_even; lia.
Qed.

(** C9 (what the code does beyond the requested frames): the scan is
    restricted to the requested frames and every left-channel slot of the
    array is overwritten (the two lemmas above), but not every position
    beyond the requested frames is.  In a call with one frame on a
    two-frame limiter the right slot 3 keeps what the buffer held (7),
    while the conversion of [in[3]] is 4: the pass of the right channel
    ends two samples before the end of the array. *)
Theorem last_right_slot_is_not_overwritten : ~ covers beyond_frames.
Proof.
  intros H.
  destruct (H 2 unit_prescale (construct [7; 7; 7; 7]) quiet_block 1
              after_short_call_over_sevens)
    as (lp & ppl & ppr & Hs & Hcov);
    [reflexivity | vm_compute; reflexivity |].
  vm_compute in Hs. injection Hs as <- _ _.
  destruct (Hcov 3) as (c & Hc & x & v & Hx & Hv & Ho);
    [lia | reflexivity |].
  vm_compute in Hx. injection Hx as <-.
  vm_compute in Ho. injection Ho as <-.
  vm_compute in Hc.
  apply elem_of_cons in Hc. destruct Hc as [->|Hc].
  - vm_compute in Hv. discriminate.
  - apply elem_of_cons in Hc. destruct Hc as [->|Hc].
    + vm_compute in Hv. discriminate.
    + apply elem_of_nil in Hc. exact Hc.
Qed.

(** ** What does hold of the curve and of the pass-through *)

(** The left channel in the new-peak branch: the ramp up to and including
    the peak position, the scalar [upper_bound / local] after it. *)
Lemma TriageSignal_left_new_peak inp o local pp pre existing add scale
    pos_end o' e' sc' :
  Z.of_nat (length inp) mod 2 = 0 ->
  fresh_pos 0 pos_end local pp ->
  F32.gtb (F32.mul local pre) existing = true ->
  F32.gtb (F32.mul local pre) upper_bound = true ->
  TriageSignal inp o LEFT local pp pre existing add scale = Ok (o', e', sc') ->
  exists p,
    pp = Some p /\ 0 <= p < pos_end /\
    e' = F32.mul local pre /\
    sc' = F32.div upper_bound (F32.mul local pre) /\
    forall j, 0 <= j < Z.of_nat (length inp) -> j mod 2 = 0 ->
      (j <= p ->
       written_as inp o' j (add, peak_mult add (F32.mul local pre))) /\
      (p < j ->
       written_as inp o' j
         (F32.zero, F32.div upper_bound (F32.mul local pre))).
Proof.
  intros HN Hfresh E1 E2 H. unfold TriageSignal in H. rewrite E1, E2 in H.
  cbn [andb] in H. unfold LEFT in H.
  destruct Hfresh as [->|(p & -> & Hp & Hpp)].
  { rewrite mul_zero_not_above in E2. discriminate. }
  bind_inv H. bind_inv H. injection H as <- <- <-.
  apply ScaleSide_spec in Ha, Ha0.
  destruct Ha as (_ & Hin1 & _). destruct Ha0 as (_ & Hin2 & Hout2).
  exists p. split; [reflexivity|]. split; [exact Hp|].
  split; [reflexivity|]. split; [reflexivity|].
  intros j Hj Hpar.
  assert (Hlast : j <= Z.of_nat (length inp) - 2).
  { pose proof (even_lt_succ j _ Hpar HN). lia. }
  split.
  - intros Hle. apply (written_as_keep inp a).
    + apply Hout2; [lia|]. unfold in_pass. lia.
    + apply Hin1. apply in_pass_intro; [lia|]. rewrite Hpar. reflexivity.
  - intros Hlt. apply Hin2. apply in_pass_intro.
    + pose proof (even_lt_succ p j Hpp Hpar). lia.
    + replace (p + 0 + 2) with (p + 1 * 2) by lia.
      rewrite Z.mod_add by lia. congruence.
Qed.

(** Pass-through: when neither channel has a tracked peak above the bound
    and neither finds a new one, every slot but the last of the right
    channel holds the conversion of [0 + in[j] * 1]. *)
Lemma pass_through_but_last_right_slot pre s inp k s1 lp ppl ppr :
  Z.of_nat (length inp) mod 2 = 0 ->
  scan_peaks (S (length inp)) inp 0 k no_peak
             (peak_pos_left s) (peak_pos_right s) = Ok (lp, ppl, ppr) ->
  F32.gtb (F32.mul (left lp) (left pre)) upper_bound = false ->
  F32.gtb (F32.mul (right lp) (right pre)) upper_bound = false ->
  F32.gtb (left (peak s)) upper_bound = false ->
  F32.gtb (right (peak s)) upper_bound = false ->
  FindPeaks pre s inp k = Ok s1 ->
  peak s1 = peak s /\
  forall j, 0 <= j < Z.of_nat (length inp) - 1 ->
            written_as inp (out s1) j (F32.zero, F32.one).
Proof.
  intros HN Hs El Er Pl Pr H. unfold FindPeaks in H. rewrite Hs in H.
  cbn [bind] in H. unfold TriageSignal in H.
  rewrite El, Er, Pl, Pr, !andb_false_r in H.
  unfold LEFT, RIGHT in H.
  bind_inv H. bind_inv Ha. injection Ha as <-.
  bind_inv H. bind_inv Ha. injection Ha as <-.
  injection H as <-. cbn [peak out].
  split; [destruct (peak s); reflexivity|].
  apply ScaleSide_spec in Ha0, Ha1.
  destruct Ha0 as (_ & Hin1 & _). destruct Ha1 as (_ & Hin2 & Hout2).
  intros j Hj.
  destruct (Z.eq_dec (j mod 2) 0) as [Hpar|Hodd].
  - apply (written_as_keep inp a0).
    + apply Hout2; [lia|]. intros Hc. apply in_pass_parity in Hc.
      rewrite Hpar in Hc. discriminate.
    + apply Hin1. apply in_pass_intro; [|rewrite Hpar; reflexivity].
      pose proof (even_lt_succ j _ Hpar HN). lia.
  - assert (Hpar : j mod 2 = 1)
      by (pose proof (Z.mod_pos_bound j 2 ltac:(lia)); lia).
    apply Hin2. apply in_pass_intro; [|rewrite Hpar; reflexivity].
    pose proof (Z.div_mod j 2). pose proof (Z.div_mod (Z.of_nat (length inp)) 2).
    lia.
Qed.

(** ** The fuel of the loops is never exhausted *)

Lemma bind_Fail {A B} (r : result A) (k : A -> result B) (f : fault) :
  bind r k = Fail f ->
  r = Fail f \/ exists a, r = Ok a /\ k a = Fail f.
Proof. destruct r as [a|f']; simpl; [eauto | intros [= ->]; auto]. Qed.

Lemma read_Fail {A} (l : list A) (i : Z) (f : fault) :
  read l i = Fail f -> f = OutOfBounds i.
Proof.
  unfold read. destruct (i <? 0); [congruence|].
  destruct (l !! Z.to_nat i); congruence.
Qed.

Lemma write_Fail {A} (l : list A) (i : Z) (x : A) (f : fault) :
  write l i x = Fail f -> f = OutOfBounds i.
Proof.
  unfold write. destruct ((0 <=? i) && (i <? Z.of_nat (length l)));
    congruence.
Qed.

Lemma cast_int16_Fail (x : float) (f : fault) :
  cast_int16 x = Fail f -> exists v, f = CastOutOfRange v.
Proof.
  unfold cast_int16. destruct (F32.trunc x) as [z|].
  - destruct (in_int16 z); intros [= <-]; eauto.
  - intros [= <-]; eauto.
Qed.

Lemma ScaleSide_fuel fuel inp pa pm last : forall pos o opos,
  (pos <= last ->
   (1 <= fuel)%nat /\ (0 <= pos -> last - pos < 2 * Z.of_nat fuel)) ->
  ScaleSide fuel inp pos last o opos pa pm <> Fail OutOfFuel.
Proof.
  induction fuel as [|fuel IH]; intros pos o opos Hf; simpl;
    destruct (pos <=? last) eqn:E; try discriminate.
  - destruct Hf as [Hf _]; lia.
  - intros H. destruct Hf as [_ Hf]; [lia|].
    apply bind_Fail in H. destruct H as [H|(x & Hx & H)].
    { apply read_Fail in H. discriminate. }
    apply read_Ok in Hx. destruct Hx as [Hpos _].
    apply bind_Fail in H. destruct H as [H|(v & Hv & H)].
    { apply cast_int16_Fail in H. destruct H as [w H]. discriminate. }
    apply bind_Fail in H. destruct H as [H|(o' & Ho & H)].
    { apply write_Fail in H. discriminate. }
    revert H. apply IH. intros Hle. specialize (Hf Hpos). lia.
Qed.

Lemma scan_peaks_fuel fuel inp pos_end : forall pos lp ppl ppr,
  (pos < pos_end ->
   (1 <= fuel)%nat /\ (0 <= pos -> pos_end - pos <= 2 * Z.of_nat fuel)) ->
  scan_peaks fuel inp pos pos_end lp ppl ppr <> Fail OutOfFuel.
Proof.
  induction fuel as [|fuel IH]; intros pos lp ppl ppr Hf; simpl;
    destruct (pos <? pos_end) eqn:E; try discriminate.
  - destruct Hf as [Hf _]; lia.
  - intros H. destruct Hf as [_ Hf]; [lia|].
    apply bind_Fail in H. destruct H as [H|(x & Hx & H)].
    { apply read_Fail in H. discriminate. }
    apply read_Ok in Hx. destruct Hx as [Hpos _]. specialize (Hf Hpos).
    destruct (F32.gtb (F32.abs x) (left lp));
      (apply bind_Fail in H; destruct H as [H|(y & Hy & H)];
       [apply read_Fail in H; discriminate|]);
      (destruct (F32.gtb (F32.abs y) (right lp)));
      revert H; apply IH; intros Hlt; lia.
Qed.

Lemma TriageSignal_fuel inp o side local pp pre existing add scale
    parity pos_end :
  0 <= side ->
  pos_end <= Z.of_nat (length inp) ->
  fresh_pos parity pos_end local pp ->
  TriageSignal inp o side local pp pre existing add scale <> Fail OutOfFuel.
Proof.
  intros Hside Hend Hfresh. unfold TriageSignal.
  destruct (F32.gtb (F32.mul local pre) existing
            && F32.gtb (F32.mul local pre) upper_bound) eqn:Enew.
  - apply andb_prop in Enew. destruct Enew as [_ Eub].
    destruct Hfresh as [->|(p & -> & Hp & _)].
    { rewrite mul_zero_not_above in Eub. discriminate. }
    intros H. apply bind_Fail in H. destruct H as [H|(o1 & _ & H)].
    { revert H. apply ScaleSide_fuel. intros _. split; lia. }
    apply bind_Fail in H. destruct H as [H|(o2 & _ & H)]; [|discriminate].
    revert H. apply ScaleSide_fuel. intros _. split; lia.
  - destruct (F32.gtb existing upper_bound); intros H;
      (apply bind_Fail in H; destruct H as [H|(o1 & _ & H)];
       [|discriminate]);
      revert H; apply ScaleSide_fuel; intros _; split; lia.
Qed.

(** With the fuel the model gives them, the loops of a call never stop
    for lack of it: a call of Apply returns a state or one of the faults
    of the code. *)
Lemma Apply_fuel_suffices af pre s inp n :
  Z.of_nat (length inp) = af * 2 ->
  Apply af pre s inp n <> Fail OutOfFuel.
Proof.
  intros HN. unfold Apply.
  destruct (samples_of n <=? af * 2) eqn:Hle; [|discriminate].
  apply Z.leb_le in Hle.
  intros H. apply bind_Fail in H. destruct H as [H|(s1 & _ & H)].
  - unfold FindPeaks in H.
    apply bind_Fail in H. destruct H as [H|([[lp ppl] ppr] & Hs & H)].
    { revert H. apply scan_peaks_fuel. intros _. split; lia. }
    destruct (scan_peaks_fresh (S (length inp)) inp (samples_of n)
                (samples_of_even n) 0 no_peak (peak_pos_left s)
                (peak_pos_right s) lp ppl ppr) as [Hfl Hfr];
      [lia | reflexivity | exact I | exact I | left; reflexivity
      | left; reflexivity | exact Hs |].
    apply bind_Fail in H. destruct H as [H|([[o1 pl] sl] & _ & H)].
    { revert H. apply (TriageSignal_fuel _ _ _ _ _ _ _ _ _ 0 (samples_of n));
        [unfold LEFT; lia | lia | exact Hfl]. }
    apply bind_Fail in H. destruct H as [H|([[o2 pr] sr] & _ & H)];
      [|discriminate].
    revert H. apply (TriageSignal_fuel _ _ _ _ _ _ _ _ _ 1 (samples_of n));
      [unfold RIGHT; lia | lia | exact Hfr].
  - apply bind_Fail in H. destruct H as [H|(s2 & _ & H)].
    + unfold SaveTailFrame in H. destruct (n =? 0); [discriminate|].
      apply bind_Fail in H. destruct H as [H|(l & _ & H)].
      { apply read_Fail in H. discriminate. }
      apply bind_Fail in H. destruct H as [H|(r & _ & H)]; [|discriminate].
      apply read_Fail in H. discriminate.
    + unfold Release in H. destruct (limited_ms s2 =? INT_MAX); discriminate.
Qed.

(** ** The tracked peak (C6) *)

Lemma F32_emin : emin F32.prec F32.emax = -149.
Proof. reflexivity. Qed.

Lemma F32_mul_valid (x y : float) :
  F32.valid x = true -> F32.valid y = true -> F32.valid (F32.mul x y) = true.
Proof.
  apply SFmul_valid; [reflexivity | rewrite F32_emin; lia].
Qed.

Lemma F32_abs_valid (x : float) :
  F32.valid x = true -> F32.valid (F32.abs x) = true.
Proof. destruct x; simpl; auto. Qed.

Lemma upper_bound_eq : upper_bound = S754_finite false 16776704 (-9).
Proof. reflexivity. Qed.

Lemma release_amplitude_eq :
  release_amplitude = S754_finite false 11635575 (-17).
Proof. reflexivity. Qed.

Lemma one_eq : F32.one = S754_finite false 8388608 (-23).
Proof. reflexivity. Qed.

Lemma gtb_upper_bound_inv (x : float) :
  F32.gtb x upper_bound = true ->
  x = S754_infinity false \/
  exists m e, x = S754_finite false m e /\
              (-9 < e \/ (e = -9 /\ (16776704 < m)%positive)).
Proof.
  rewrite upper_bound_eq. unfold F32.gtb, SFltb.
  destruct x as [s|[]| |[] m e]; cbn [SFcompare]; cbv beta iota;
    intros H; try discriminate H; auto.
  right. exists m, e. split; [reflexivity|].
  destruct (Z.compare_spec (-9) e) as [Heq|Hlt|Hgt]; try discriminate H.
  - right. split; [lia|].
    change (Pos.compare_cont Eq 16776704 m) with (16776704 ?= m)%positive in H.
    destruct (16776704 ?= m)%positive eqn:Hc; try discriminate H.
    apply Pos.compare_lt_iff in Hc. exact Hc.
  - left. exact Hlt.
Qed.

Lemma above_upper_bound_at_least_one (x : float) :
  F32.gtb x upper_bound = true -> F32.leb F32.one x = true.
Proof.
  intros H. apply gtb_upper_bound_inv in H.
  rewrite one_eq. unfold F32.leb, SFleb.
  destruct H as [->|(m & e & -> & He)]; [reflexivity|].
  cbn [SFcompare].
  destruct (Z.compare_spec (-23) e); try reflexivity; lia.
Qed.

Lemma release_above_one (x : float) :
  F32.valid x = true -> F32.gtb x upper_bound = true ->
  at_least_one (F32.sub x release_amplitude).
Proof.
  intros Hv Hg. apply gtb_upper_bound_inv in Hg.
  destruct Hg as [->|(m & e & -> & He)]; [split; reflexivity|].
  unfold F32.valid in Hv. simpl in Hv.
  apply bounded_spec in Hv. rewrite F32_emin in Hv.
  change F32.prec with 24 in Hv. change F32.emax with 128 in Hv.
  assert (Hd : Zdigits2 (Zpos m) = 24) by lia.
  pose proof (Zdigits2_bounds (Zpos m) ltac:(lia)) as Hm. rewrite Hd in Hm.
  rewrite release_amplitude_eq. unfold at_least_one, F32.valid, F32.sub, SFsub.
  rewrite Z.min_r by lia.
  pose proof (shl_align_spec m e (-17)) as Hsh.
  destruct (shl_align m e (-17)) as [ma ea].
  destruct Hsh as [(_ & Hma & _)|(Hc & _)]; [|lia].
  change (shl_align 11635575 (-17) (-17)) with (11635575%positive, -17).
  cbn [fst cond_Zopp].
  assert (Hbig : 2 ^ 30 <= Zpos ma - 11635575).
  { rewrite Hma.
    assert (2 ^ 8 <= 2 ^ (e - -17)) by (apply Z.pow_le_mono_r; lia).
    change (2 ^ 30) with 1073741824.
    change (2 ^ (24 - 1)) with 8388608 in Hm. change (2 ^ 8) with 256 in H.
    nia. }
  destruct (Zpos ma - 11635575) as [|p|p] eqn:HP;
    try (change (2 ^ 30) with 1073741824 in Hbig; lia).
  unfold binary_normalize.
  destruct (binary_round_spec F32.prec F32.emax ltac:(reflexivity) false p (-17))
    as (Hval & Hnorm & _).
  assert (HD : 31 <= Zdigits2 (Zpos p)).
  { pose proof (Zdigits2_bounds (Zpos p) ltac:(lia)) as [_ Hhi].
    destruct (Z_le_gt_dec 31 (Zdigits2 (Zpos p))); [assumption|].
    assert (2 ^ Zdigits2 (Zpos p) <= 2 ^ 30)
      by (apply Z.pow_le_mono_r; lia). lia. }
  split; [exact Hval|].
  rewrite F32_emin in Hnorm.
  destruct Hnorm as [->|(m' & e' & -> & He')];
    [unfold F32.prec; lia | reflexivity |].
  unfold F32.prec in He'.
  rewrite one_eq. unfold F32.leb, SFleb. cbn [SFcompare].
  destruct (Z.compare_spec (-23) e'); try reflexivity; lia.
Qed.

Lemma at_least_one_one : at_least_one F32.one.
Proof. split; reflexivity. Qed.

Lemma read_valid (inp : list float) (i : Z) (x : float) :
  Forall (fun x => F32.valid x = true) inp -> read inp i = Ok x ->
  F32.valid x = true.
Proof.
  intros Hall Hr. apply read_Ok in Hr. destruct Hr as [_ Hx].
  rewrite Forall_lookup in Hall. exact (Hall _ _ Hx).
Qed.

Lemma scan_peaks_valid fuel inp pos_end :
  Forall (fun x => F32.valid x = true) inp ->
  forall pos lp ppl ppr lp' ppl' ppr',
    valid_frame lp ->
    scan_peaks fuel inp pos pos_end lp ppl ppr = Ok (lp', ppl', ppr') ->
    valid_frame lp'.
Proof.
  intros Hall.
  induction fuel as [|fuel IH]; intros pos lp ppl ppr lp' ppl' ppr' Hlp;
    simpl; (destruct (pos <? pos_end); [|intros [= <- <- <-]; exact Hlp]).
  - discriminate.
  - intros H. bind_inv H. apply (read_valid _ _ _ Hall) in Ha.
    destruct Hlp as [Hl Hr].
    destruct (F32.gtb (F32.abs a) (left lp));
      bind_inv H; apply (read_valid _ _ _ Hall) in Ha0;
      (destruct (F32.gtb (F32.abs a0) (right lp)));
      apply IH in H; auto; split; simpl; auto using F32_abs_valid.
Qed.

Lemma TriageSignal_peak inp o side local pp pre existing add scale
    o' e' sc' :
  TriageSignal inp o side local pp pre existing add scale = Ok (o', e', sc') ->
  e' = triage_peak local pre existing.
Proof.
  unfold TriageSignal, triage_peak.
  destruct (F32.gtb (F32.mul local pre) existing
            && F32.gtb (F32.mul local pre) upper_bound).
  - destruct pp as [p|]; [|discriminate]. intros H.
    bind_inv H. bind_inv H. injection H as _ <- _. reflexivity.
  - destruct (F32.gtb existing upper_bound); intros H; bind_inv H;
      injection H as _ <- _; reflexivity.
Qed.

Lemma FindPeaks_peak pre s inp k s1 :
  FindPeaks pre s inp k = Ok s1 ->
  exists lp ppl ppr,
    scan_peaks (S (length inp)) inp 0 k no_peak
               (peak_pos_left s) (peak_pos_right s) = Ok (lp, ppl, ppr) /\
    peak s1 = mkFrame (triage_peak (left lp) (left pre) (left (peak s)))
                      (triage_peak (right lp) (right pre) (right (peak s))).
Proof.
  unfold FindPeaks. intros H. bind_inv H. destruct a as [[lp ppl] ppr].
  bind_inv H. destruct a as [[o1 pl] sl].
  bind_inv H. destruct a as [[o2 pr] sr].
  injection H as <-. cbn [peak].
  apply TriageSignal_peak in Ha0, Ha1. subst pl pr.
  exists lp, ppl, ppr. split; [exact Ha | reflexivity].
Qed.

Lemma triage_peak_at_least_one (local pre existing : float) :
  F32.valid local = true -> F32.valid pre = true ->
  at_least_one existing -> at_least_one (triage_peak local pre existing).
Proof.
  intros Hl Hp He. unfold triage_peak.
  destruct (F32.gtb (F32.mul local pre) existing
            && F32.gtb (F32.mul local pre) upper_bound) eqn:E;
    [|exact He].
  apply andb_prop in E. destruct E as [_ E]. split.
  - apply F32_mul_valid; assumption.
  - apply above_upper_bound_at_least_one. exact E.
Qed.

Lemma release_side_at_least_one (p : float) :
  at_least_one p -> at_least_one (release_side p).
Proof.
  intros [Hv Hl]. unfold release_side.
  destruct (F32.gtb p upper_bound) eqn:E; [|split; assumption].
  apply release_above_one; assumption.
Qed.

(** What one call of Apply does to the tracked peak of a channel: the
    triage keeps it or raises it to the prescaled local peak, the release
    step then keeps it or lowers it by [release_amplitude]. *)
Lemma Apply_peak af pre s inp n s' :
  Apply af pre s inp n = Ok s' ->
  exists lp ppl ppr,
    scan_peaks (S (length inp)) inp 0 (samples_of n) no_peak
               (peak_pos_left s) (peak_pos_right s) = Ok (lp, ppl, ppr) /\
    peak s' =
    mkFrame
      (release_side (triage_peak (left lp) (left pre) (left (peak s))))
      (release_side (triage_peak (right lp) (right pre) (right (peak s)))).
Proof.
  intros H. apply Apply_Ok in H. destruct H as (s1 & s2 & _ & H1 & H2 & H3).
  apply FindPeaks_peak in H1. destruct H1 as (lp & ppl & ppr & Hs & Hp).
  apply SaveTailFrame_frame in H2. destruct H2 as (_ & Hp2 & _).
  apply Release_frame in H3. destruct H3 as (_ & _ & _ & _ & _ & Hp3).
  exists lp, ppl, ppr. split; [exact Hs|].
  rewrite Hp3, Hp2, Hp. reflexivity.
Qed.

Lemma step_at_least_one af s o s' :
  valid_operation o ->
  at_least_one (left (peak s)) -> at_least_one (right (peak s)) ->
  step af s o = Ok s' ->
  at_least_one (left (peak s')) /\ at_least_one (right (peak s')).
Proof.
  destruct o as [pre inp n| | |pre]; simpl; intros Hv Hl Hr H.
  - destruct Hv as [[Hpl Hpr] Hall].
    apply Apply_peak in H. destruct H as (lp & ppl & ppr & Hs & ->).
    apply (scan_peaks_valid _ _ _ Hall) in Hs; [|split; reflexivity].
    destruct Hs as [Hvl Hvr]. cbn [left right].
    split; apply release_side_at_least_one, triage_peak_at_least_one;
      assumption.
  - injection H as <-. simpl. split; apply at_least_one_one.
  - injection H as <-. auto.
  - injection H as <-. auto.
Qed.

Lemma run_at_least_one af ops : forall s s',
  Forall valid_operation ops ->
  at_least_one (left (peak s)) -> at_least_one (right (peak s)) ->
  run af s ops = Ok s' ->
  at_least_one (left (peak s')) /\ at_least_one (right (peak s')).
Proof.
  induction ops as [|o ops IH]; simpl; intros s s' Hv Hl Hr H.
  - injection H as <-. auto.
  - apply Forall_cons in Hv. destruct Hv as [Ho Hv].
    bind_inv H.
    destruct (step_at_least_one _ _ _ _ Ho Hl Hr Ha) as [Hl' Hr'].
    eapply IH; eauto.
Qed.

(** C6: after any sequence of operations on a constructed limiter (the
    samples and prescale values being binary32 values, infinities and NaN
    included) neither tracked peak is below 1.  The peak starts at {1,1};
    Reset stores {1,1}; GetPeaks and PrintStats leave the state alone; a
    call of Apply changes a channel's peak only by raising it to the
    prescaled local peak when that exceeds both the peak and the bound,
    and then by subtracting the release amplitude when the peak exceeds
    the bound. *)
Theorem tracked_peak_never_below_one af o0 ops s :
  Forall valid_operation ops ->
  run af (construct o0) ops = Ok s ->
  (F32.ltb (left (peak s)) F32.one = false /\
   F32.ltb (right (peak s)) F32.one = false /\
   F32.leb F32.one (left (peak s)) = true /\
   F32.leb F32.one (right (peak s)) = true) /\
  peak (construct o0) = mkFrame F32.one F32.one /\
  (forall s1, peak (Reset s1) = mkFrame F32.one F32.one) /\
  (forall s1 pre, step af s1 OpGetPeaks = Ok s1 /\
                  step af s1 (OpPrintStats pre) = Ok s1) /\
  (forall s1 pre inp n s2,
     Apply af pre s1 inp n = Ok s2 ->
     exists lp ppl ppr,
       scan_peaks (S (length inp)) inp 0 (samples_of n) no_peak
                  (peak_pos_left s1) (peak_pos_right s1)
       = Ok (lp, ppl, ppr) /\
       peak s2 =
       mkFrame
         (release_side (triage_peak (left lp) (left pre) (left (peak s1))))
         (release_side
            (triage_peak (right lp) (right pre) (right (peak s1))))) /\
  (forall local pre existing,
     triage_peak local pre existing = existing \/
     (triage_peak local pre existing = F32.mul local pre /\
      F32.gtb (F32.mul local pre) existing = true /\
      F32.gtb (F32.mul local pre) upper_bound = true)) /\
  (forall p,
     release_side p = p \/
     (release_side p = F32.sub p release_amplitude /\
      F32.gtb p upper_bound = true)).
Proof.
  intros Hv H.
  destruct (run_at_least_one af ops (construct o0) s Hv
              at_least_one_one at_least_one_one H) as [[_ Hl] [_ Hr]].
  split.
  - assert (Hnot : forall x, F32.leb F32.one x = true ->
                             F32.ltb x F32.one = false).
    { intros x Hx. apply leb_not_gtb in Hx. exact Hx. }
    auto.
  - split; [reflexivity|]. split; [reflexivity|].
    split; [intros; split; reflexivity|].
    split; [intros s1 pre inp n s2; apply Apply_peak|]. split.
    + intros local pre existing. unfold triage_peak.
      destruct (F32.gtb (F32.mul local pre) existing) eqn:E1;
        destruct (F32.gtb (F32.mul local pre) upper_bound) eqn:E2;
        simpl; auto.
    + intros p. unfold release_side.
      destruct (F32.gtb p upper_bound); auto.
Qed.

Lemma tracked_peak_never_below_one_witness :
  F32.ltb (left (peak after_peak_session)) F32.one = false /\
  F32.ltb (right (peak after_peak_session)) F32.one = false /\
  F32.leb F32.one (left (peak after_peak_session)) = true /\
  F32.leb F32.one (right (peak after_peak_session)) = true.
Proof.
  refine (proj1 (tracked_peak_never_below_one 4 (zeros 8) peak_session
                   after_peak_session _ _)).
  - repeat first [apply Forall_nil | apply Forall_cons; split
                 | split | reflexivity | exact I].
  - vm_compute. reflexivity.
Defined.

(** ** Diagnostics (C7) *)

Lemma F64_emin : emin F64.prec F64.emax = -1074.
Proof. reflexivity. Qed.

(** The double of a positive integer below 2^53 is that integer, with its
    leading bit moved to position 53. *)
Lemma F64_of_Z_pos (t : Z) :
  0 < t < 2 ^ 53 ->
  F64.of_Z t
  = S754_finite false (Z.to_pos (t * 2 ^ (53 - Zdigits2 t)))
                (Zdigits2 t - 53).
Proof.
  intros Ht. assert (Hb := Zdigits2_bounds t ltac:(lia)).
  assert (Hd := Zdigits2_pos t ltac:(lia)).
  assert (Hd53 : Zdigits2 t <= 53).
  { destruct (Z_le_gt_dec (Zdigits2 t) 53); [assumption|].
    assert (2 ^ 53 <= 2 ^ (Zdigits2 t - 1)) by (apply Z.pow_le_mono_r; lia).
    lia. }
  assert (Hpow : 0 < 2 ^ (53 - Zdigits2 t)) by (apply Z.pow_pos_nonneg; lia).
  destruct t as [|p|p]; try lia.
  unfold F64.of_Z, binary_normalize.
  replace (Zdigits2 (Zpos p) - 53) with (Zdigits2 (Zpos p) + 0 - F64.prec)
    by (unfold F64.prec; lia).
  apply binary_round_canonical;
    rewrite ?F64_emin; unfold F64.prec, F64.emax; try lia.
  intros _. rewrite Z2Pos.id by lia.
  replace (0 - (Zdigits2 (Z.pos p) + 0 - 53)) with (53 - Zdigits2 (Z.pos p))
    by lia.
  reflexivity.
Qed.

Lemma F64_of_Z_0 : F64.of_Z 0 = S754_zero false.
Proof. reflexivity. Qed.

Lemma shl_align_fst (m : positive) (e ez : Z) :
  ez <= e -> Zpos (fst (shl_align m e ez)) = Zpos m * 2 ^ (e - ez).
Proof.
  intros Hle. pose proof (shl_align_spec m e ez) as H.
  destruct (shl_align m e ez) as [m' e'].
  destruct H as [(_ & H & _)|(Hge & -> & _)]; [exact H|].
  replace (e - ez) with 0 by lia. simpl. lia.
Qed.

(** Adding the doubles of two counters is exact. *)
Lemma F64_add_of_Z (a b : Z) :
  0 <= a -> 0 <= b -> a + b < 2 ^ 53 ->
  F64.add (F64.of_Z a) (F64.of_Z b) = F64.of_Z (a + b).
Proof.
  intros Ha Hb Hab.
  destruct (Z.eq_dec a 0) as [->|Ha0].
  { rewrite F64_of_Z_0, Z.add_0_l.
    destruct (Z.eq_dec b 0) as [->|Hb0]; [reflexivity|].
    rewrite F64_of_Z_pos by lia. reflexivity. }
  destruct (Z.eq_dec b 0) as [->|Hb0].
  { rewrite F64_of_Z_0, Z.add_0_r. rewrite F64_of_Z_pos by lia. reflexivity. }
  rewrite (F64_of_Z_pos a), (F64_of_Z_pos b), (F64_of_Z_pos (a + b)) by lia.
  assert (Hba := Zdigits2_bounds a ltac:(lia)).
  assert (Hbb := Zdigits2_bounds b ltac:(lia)).
  assert (Hbs := Zdigits2_bounds (a + b) ltac:(lia)).
  assert (Hda := Zdigits2_pos a ltac:(lia)).
  assert (Hdb := Zdigits2_pos b ltac:(lia)).
  set (da := Zdigits2 a) in *. set (db := Zdigits2 b) in *.
  set (ds := Zdigits2 (a + b)) in *.
  assert (Hds53 : ds <= 53).
  { destruct (Z_le_gt_dec ds 53); [assumption|].
    assert (2 ^ 53 <= 2 ^ (ds - 1)) by (apply Z.pow_le_mono_r; lia). lia. }
  assert (Hdas : da <= ds).
  { destruct (Z_le_gt_dec da ds); [assumption|].
    assert (2 ^ ds <= 2 ^ (da - 1)) by (apply Z.pow_le_mono_r; lia). lia. }
  assert (Hdbs : db <= ds).
  { destruct (Z_le_gt_dec db ds); [assumption|].
    assert (2 ^ ds <= 2 ^ (db - 1)) by (apply Z.pow_le_mono_r; lia). lia. }
  unfold F64.add, SFadd. set (ez := Z.min (da - 53) (db - 53)).
  rewrite !shl_align_fst by (unfold ez; lia).
  cbn [cond_Zopp].
  assert (Hpa : 0 < 2 ^ (53 - da)) by (apply Z.pow_pos_nonneg; lia).
  assert (Hpb : 0 < 2 ^ (53 - db)) by (apply Z.pow_pos_nonneg; lia).
  rewrite !Z2Pos.id by nia.
  assert (Hsum : a * 2 ^ (53 - da) * 2 ^ (da - 53 - ez)
                 + b * 2 ^ (53 - db) * 2 ^ (db - 53 - ez)
                 = (a + b) * 2 ^ (- ez)).
  { rewrite <- !Z.mul_assoc, <- !Z.pow_add_r by (unfold ez; lia).
    replace (53 - da + (da - 53 - ez)) with (- ez) by lia.
    replace (53 - db + (db - 53 - ez)) with (- ez) by lia. ring. }
  rewrite Hsum.
  assert (Hpz : 0 < 2 ^ (- ez)) by (apply Z.pow_pos_nonneg; unfold ez; lia).
  destruct ((a + b) * 2 ^ (- ez)) as [|p|p] eqn:HP; try nia.
  unfold binary_normalize.
  assert (Hdp : Zdigits2 (Zpos p) = ds - ez).
  { rewrite <- HP, Zdigits2_shift by (unfold ez; lia). fold ds. lia. }
  replace (ds - 53) with (Zdigits2 (Zpos p) + ez - F64.prec)
    by (unfold F64.prec; lia).
  assert (Hps : 0 < 2 ^ (53 - ds)) by (apply Z.pow_pos_nonneg; lia).
  apply binary_round_canonical;
    rewrite ?F64_emin; unfold F64.prec, F64.emax; rewrite Hdp;
    try (unfold ez; lia).
  - intros Hle. rewrite Z2Pos.id by nia. rewrite <- HP.
    rewrite <- Z.mul_assoc, <- Z.pow_add_r by (unfold ez; lia).
    f_equal. f_equal. lia.
  - intros Hlt. rewrite Z2Pos.id by nia. rewrite <- HP.
    rewrite <- Z.mul_assoc, <- Z.pow_add_r by (unfold ez; lia).
    f_equal. f_equal. lia.
Qed.

Lemma div_eucl_div_mod (a b : Z) : Z.div_eucl a b = (a / b, a mod b).
Proof.
  unfold Z.div, Z.modulo. destruct (Z.div_eucl a b). reflexivity.
Qed.

(** The quotient, exponent and remainder location handed to the rounding
    by the division of two normal doubles. *)
Lemma F64_div_core (m1 m2 : positive) (e1 e2 : Z) :
  Zdigits2 (Zpos m1) = 53 -> Zdigits2 (Zpos m2) = 53 ->
  -1074 <= e1 - e2 - 53 ->
  SFdiv_core_binary F64.prec F64.emax (Zpos m1) e1 (Zpos m2) e2
  = (Zpos m1 * 2 ^ 53 / Zpos m2, e1 - e2 - 53,
     new_location (Zpos m2) (Zpos m1 * 2 ^ 53 mod Zpos m2)).
Proof.
  intros H1 H2 He. unfold SFdiv_core_binary. rewrite H1, H2.
  replace (53 + e1 - (53 + e2)) with (e1 - e2) by lia.
  assert (Hf : fexp F64.prec F64.emax (e1 - e2) = e1 - e2 - 53).
  { rewrite fexp_spec, F64_emin. unfold F64.prec. lia. }
  rewrite Hf, Z.min_l by lia.
  replace (e1 - e2 - (e1 - e2 - 53)) with 53 by lia.
  rewrite Z.shiftl_mul_pow2 by lia.
  rewrite div_eucl_div_mod. reflexivity.
Qed.

Lemma F64_half_eq : F64.half = S754_finite false 4503599627370496 (-53).
Proof. reflexivity. Qed.

Lemma F64_sixty_thousand_eq :
  F64.of_Z ms_per_minute = S754_finite false 8246337208320000 (-37).
Proof. reflexivity. Qed.

(** Comparing a positive double with one half. *)
Lemma F64_ltb_half (m : positive) (e : Z) :
  2 ^ 52 <= Zpos m ->
  F64.ltb (S754_finite false m e) F64.half = (e <? -53).
Proof.
  intros Hm. rewrite F64_half_eq. unfold F64.ltb, SFltb. cbn [SFcompare].
  destruct (Z.compare_spec e (-53)) as [Heq|Hlt|Hgt].
  - destruct (Pos.compare_cont Eq m 4503599627370496) eqn:Hc.
    + symmetry. apply Z.ltb_ge. lia.
    + exfalso.
      apply (proj1 (Pos.compare_lt_iff m 4503599627370496)) in Hc.
      apply Pos2Z.pos_lt_pos in Hc. apply (Z.lt_irrefl (Zpos m)).
      eapply Z.lt_le_trans; [exact Hc | exact Hm].
    + symmetry. apply Z.ltb_ge. lia.
  - symmetry. apply Z.ltb_lt. lia.
  - symmetry. apply Z.ltb_ge. lia.
Qed.

(** The quotient of a counter by 60000, as PrintStats computes it, is
    below one half exactly when the counter is below 30000. *)
Lemma minutes_below_half (t : Z) :
  0 <= t < 2 ^ 53 ->
  F64.ltb (F64.div (F64.of_Z t) (F64.of_Z ms_per_minute)) F64.half
  = (t <? 30000).
Proof.
  intros Ht. destruct (Z.eq_dec t 0) as [->|Hn0]; [reflexivity|].
  rewrite F64_sixty_thousand_eq, F64_of_Z_pos by lia.
  assert (Hb := Zdigits2_bounds t ltac:(lia)).
  assert (Hd := Zdigits2_pos t ltac:(lia)).
  set (d := Zdigits2 t) in *.
  assert (Hd53 : d <= 53).
  { destruct (Z_le_gt_dec d 53); [assumption|].
    assert (2 ^ 53 <= 2 ^ (d - 1)) by (apply Z.pow_le_mono_r; lia). lia. }
  assert (Hpow : 0 < 2 ^ (53 - d)) by (apply Z.pow_pos_nonneg; lia).
  set (mx := Z.to_pos (t * 2 ^ (53 - d))).
  assert (Hmx : Zpos mx = t * 2 ^ (53 - d)) by (apply Z2Pos.id; nia).
  assert (Hdx : Zdigits2 (Zpos mx) = 53).
  { rewrite Hmx, Zdigits2_shift by lia. fold d. lia. }
  assert (Hbx := Zdigits2_bounds (Zpos mx) ltac:(lia)). rewrite Hdx in Hbx.
  change (2 ^ (53 - 1)) with 4503599627370496 in Hbx.
  change (2 ^ 53) with 9007199254740992 in Hbx.
  unfold F64.div, SFdiv.
  rewrite F64_div_core by (try reflexivity; try assumption; lia).
  cbn [xorb]. cbv beta iota zeta.
  set (mc := 8246337208320000) in *.
  set (q := Zpos mx * 2 ^ 53 / mc).
  set (l := new_location mc (Zpos mx * 2 ^ 53 mod mc)).
  assert (Hq : 2 ^ 52 <= q < 2 ^ 54).
  { unfold q, mc. change (2 ^ 52) with 4503599627370496.
    change (2 ^ 53) with 9007199254740992.
    change (2 ^ 54) with 18014398509481984. split.
    - apply Z.div_le_lower_bound; lia.
    - apply Z.div_lt_upper_bound; lia. }
  assert (Hdq : 53 <= Zdigits2 q <= 54).
  { pose proof (Zdigits2_bounds q ltac:(lia)) as [Hlo Hhi]. split.
    - destruct (Z_le_gt_dec 53 (Zdigits2 q)); [assumption|].
      assert (2 ^ Zdigits2 q <= 2 ^ 52) by (apply Z.pow_le_mono_r; lia). lia.
    - destruct (Z_le_gt_dec (Zdigits2 q) 54); [assumption|].
      assert (2 ^ 54 <= 2 ^ (Zdigits2 q - 1))
        by (apply Z.pow_le_mono_r; lia). lia. }
  assert (Hfexp : fexp F64.prec F64.emax (Zdigits2 q + (d - 53 - -37 - 53))
                  = Zdigits2 q + d - 122).
  { rewrite fexp_spec, F64_emin. unfold F64.prec. lia. }
  destruct (binary_round_aux_spec F64.prec F64.emax ltac:(reflexivity)
              false q (d - 53 - -37 - 53) l ltac:(lia)
              ltac:(rewrite Hfexp; lia)) as (_ & Hnorm & Hcases).
  rewrite Hfexp in Hnorm, Hcases. rewrite F64_emin in Hnorm.
  set (r := binary_round_aux F64.prec F64.emax false q (d - 53 - -37 - 53) l)
    in *.
  unfold F64.prec, F64.emax in Hnorm, Hcases.
  specialize (Hnorm ltac:(lia)).
  replace (Zdigits2 q + d - 122 - (d - 53 - -37 - 53)) with (Zdigits2 q - 53)
    in Hnorm, Hcases by lia.
  change (2 ^ (53 - 1)) with 4503599627370496 in Hnorm, Hcases.
  change (2 ^ 53) with 9007199254740992 in Hcases.
  set (m1 := q / 2 ^ (Zdigits2 q - 53)) in *.
  destruct Hcases as [[_ Hz]|[[_ Hinf]|(m & e & Hr & Hc)]]; try lia.
  rewrite Hr.
  rewrite F64_ltb_half
    by (change (2 ^ 52) with 4503599627370496; lia).
  destruct (Z_lt_le_dec t 30000) as [Hsmall|Hlarge].
  - (* below 30000: the exponent stays below -53 *)
    rewrite (proj2 (Z.ltb_lt t 30000) Hsmall). apply Z.ltb_lt.
    assert (Hd15 : d <= 15).
    { destruct (Z_le_gt_dec d 15); [assumption|].
      assert (2 ^ 15 <= 2 ^ (d - 1)) by (apply Z.pow_le_mono_r; lia).
      change (2 ^ 15) with 32768 in *. lia. }
    destruct (Z_le_gt_dec d 13) as [H13|H13]; [lia|].
    destruct (Z.eq_dec d 14) as [H14|H14].
    + (* 8192 <= t < 16384 *)
      rewrite H14 in *. change (2 ^ (53 - 14)) with 549755813888 in Hmx.
      change (2 ^ 14) with 16384 in Hb.
      assert (Hq2 : q < 2 * 9007199254740991).
      { unfold q, mc. rewrite Hmx. change (2 ^ 53) with 9007199254740992.
        apply Z.div_lt_upper_bound; lia. }
      destruct Hc as [[-> Hm]|(-> & Hm1 & _)].
      * destruct (Z.eq_dec (Zdigits2 q) 54) as [E54|E54]; [|lia].
        lia.
      * destruct (Z.eq_dec (Zdigits2 q) 54) as [E54|E54]; [|lia].
        exfalso. unfold m1 in Hm1. rewrite E54 in Hm1.
        change (2 ^ (54 - 53)) with 2 in Hm1.
        pose proof (Z.mul_div_le q 2 ltac:(lia)). lia.
    + (* 16384 <= t < 30000 *)
      assert (H15 : d = 15) by lia. rewrite H15 in *.
      change (2 ^ (53 - 15)) with 274877906944 in Hmx.
      assert (Hq2 : q < 9007199254740991).
      { unfold q, mc. rewrite Hmx. change (2 ^ 53) with 9007199254740992.
        apply Z.div_lt_upper_bound; lia. }
      assert (E53 : Zdigits2 q = 53).
      { apply Zdigits2_unique; [lia|].
        change (2 ^ (53 - 1)) with 4503599627370496.
        change (2 ^ 53) with 9007199254740992.
        change (2 ^ 52) with 4503599627370496 in Hq. lia. }
      destruct Hc as [[-> Hm]|(-> & Hm1 & _)]; [lia|].
      exfalso. unfold m1 in Hm1. rewrite E53 in Hm1.
      change (2 ^ (53 - 53)) with 1 in Hm1. rewrite Z.div_1_r in Hm1. lia.
  - (* at least 30000: the exponent is at least -53 *)
    rewrite (proj2 (Z.ltb_ge t 30000) Hlarge). apply Z.ltb_ge.
    assert (Hd15 : 15 <= d).
    { destruct (Z_le_gt_dec 15 d); [assumption|].
      assert (2 ^ d <= 2 ^ 14) by (apply Z.pow_le_mono_r; lia).
      change (2 ^ 14) with 16384 in *. lia. }
    assert (He1 : -53 <= Zdigits2 q + d - 122).
    { destruct (Z.eq_dec d 15) as [H15|H15]; [|lia].
      rewrite H15 in *. change (2 ^ (53 - 15)) with 274877906944 in Hmx.
      assert (Hq2 : 2 ^ 53 <= q).
      { unfold q, mc. rewrite Hmx. change (2 ^ 53) with 9007199254740992.
        apply Z.div_le_lower_bound; lia. }
      assert (54 <= Zdigits2 q); [|lia].
      pose proof (Zdigits2_bounds q ltac:(lia)) as [_ Hhi].
      destruct (Z_le_gt_dec 54 (Zdigits2 q)); [assumption|].
      assert (2 ^ Zdigits2 q <= 2 ^ 53) by (apply Z.pow_le_mono_r; lia).
      lia. }
    destruct Hc as [[-> _]|(-> & _)]; lia.
Qed.

(** The counters of a limiter stay within the range the thresholds of
    PrintStats are proved for: [limited_ms] counts calls and cannot pass
    [INT_MAX] without a fault, [non_limited_ms] stays 0. *)
Lemma step_counters_in_range af s o s' :
  0 <= limited_ms s <= INT_MAX -> non_limited_ms s = 0 ->
  step af s o = Ok s' ->
  0 <= limited_ms s' <= INT_MAX /\ non_limited_ms s' = 0.
Proof.
  intros Hl Hn H. unfold INT_MAX in *.
  destruct o as [pre inp n| | |pre]; simpl in H.
  - apply Apply_Ok in H. destruct H as (s1 & s2 & _ & H1 & H2 & H3).
    apply FindPeaks_frame in H1. apply SaveTailFrame_frame in H2.
    assert (Hno : limited_ms s2 <> 2147483647).
    { intros E. unfold Release in H3. rewrite E in H3. discriminate. }
    apply Release_frame in H3. intuition lia.
  - injection H as <-. simpl. lia.
  - injection H as <-. auto.
  - injection H as <-. auto.
Qed.

Lemma run_counters_in_range af ops : forall s s',
  0 <= limited_ms s <= INT_MAX -> non_limited_ms s = 0 ->
  run af s ops = Ok s' ->
  0 <= limited_ms s' <= INT_MAX /\ non_limited_ms s' = 0.
Proof.
  induction ops as [|o ops IH]; simpl; intros s s' Hl Hn H.
  - injection H as <-. auto.
  - bind_inv H.
    destruct (step_counters_in_range _ _ _ _ Hl Hn Ha) as [Hl' Hn'].
    eapply IH; eauto.
Qed.

Lemma min_capped (x : float) : F32.ltb F32.one (F32.min x F32.one) = false.
Proof.
  unfold F32.min. destruct (F32.ltb F32.one x) eqn:E; [reflexivity | exact E].
Qed.

(** C7: with counters that are non-negative ints, PrintStats logs nothing
    when [limited_ms + non_limited_ms] is below 30000 or when the larger
    tracked peak is below [upper_bound / 20]; otherwise it logs the peak
    ratio capped at 1 (as a percentage), then the louder-mix line with
    [100 * scale / peak_ratio] exactly when [peak_ratio / scale] is below
    0.6, then the quieter-mix line with [100 * (1 - time_ratio / 2) * scale]
    exactly when [time_ratio = limited_ms / (ms_total + 1)] exceeds 0.2. *)
Theorem PrintStats_thresholds (prescale : AudioFrame) (s : SoftLimiter) :
  0 <= limited_ms s <= INT_MAX -> 0 <= non_limited_ms s <= INT_MAX ->
  let total := limited_ms s + non_limited_ms s in
  let peak_sample := F32.max (left (peak s)) (right (peak s)) in
  let peak_ratio := F32.min (F32.div peak_sample upper_bound) F32.one in
  let scale := F32.max (left prescale) (right prescale) in
  let time_ratio :=
    F64.div (F64.of_Z (limited_ms s)) (F64.add (F64.of_Z total) (F64.of_Z 1)) in
  let louder :=
    LogLouder (F64.of_float (F32.div (F32.mul (F32.of_Z 100) scale)
                                     peak_ratio)) in
  let quieter :=
    LogQuieter (F64.mul (F64.of_Z 100) time_ratio)
      (F64.div (F64.of_Z (limited_ms s)) (F64.of_Z ms_per_minute))
      (F64.div (F64.of_Z total) (F64.of_Z ms_per_minute))
      (F64.mul (F64.mul (F64.of_Z 100)
                        (F64.sub (F64.of_Z 1)
                                 (F64.div time_ratio (F64.of_Z 2))))
               (F64.of_float scale)) in
  (total < 30000 \/
   F32.ltb peak_sample (F32.div upper_bound (F32.of_Z 20)) = true ->
   PrintStats prescale s = []) /\
  (30000 <= total ->
   F32.ltb peak_sample (F32.div upper_bound (F32.of_Z 20)) = false ->
   PrintStats prescale s
   = [LogPeak (F64.mul (F64.of_Z 100) (F64.of_float peak_ratio))]
     ++ (if F32.ltb (F32.div peak_ratio scale) (F64.to_float F64.lit_0_6)
         then [louder] else [])
     ++ (if F64.gtb time_ratio F64.lit_0_2 then [quieter] else [])) /\
  F32.ltb F32.one peak_ratio = false.
Proof.
  intros Hl Hn total peak_sample peak_ratio scale time_ratio louder quieter.
  unfold INT_MAX in Hl, Hn.
  assert (Hsum : F64.add (F64.of_Z (limited_ms s)) (F64.of_Z (non_limited_ms s))
                 = F64.of_Z total).
  { apply F64_add_of_Z; lia. }
  assert (Hhalf : F64.ltb (F64.div (F64.of_Z total) (F64.of_Z ms_per_minute))
                          F64.half = (total <? 30000)).
  { apply minutes_below_half. unfold total. lia. }
  unfold PrintStats. rewrite Hsum, Hhalf.
  fold peak_sample. split; [|split].
  - intros [Hlt|Hq].
    + rewrite (proj2 (Z.ltb_lt _ _) Hlt). reflexivity.
    + destruct (total <? 30000); [reflexivity|]. rewrite Hq. reflexivity.
  - intros Hge Hq. rewrite (proj2 (Z.ltb_ge _ _) Hge), Hq. reflexivity.
  - apply min_capped.
Qed.

Lemma PrintStats_thresholds_witness :
  PrintStats unit_prescale long_loud_state = long_loud_log /\
  length long_loud_log = 2%nat.
Proof.
  split; [|reflexivity].
  refine (eq_trans
            (proj1 (proj2 (PrintStats_thresholds unit_prescale
                             long_loud_state _ _)) _ _) _).
  - unfold INT_MAX. simpl. lia.
  - unfold INT_MAX. simpl. lia.
  - simpl. lia.
  - vm_compute. reflexivity.
  - vm_compute. reflexivity.
Defined.

(** * Further properties of the code *)

(** ** The array accesses of a call *)

Lemma read_in_range {A} (l : list A) (i : Z) :
  0 <= i < Z.of_nat (length l) -> exists x, read l i = Ok x.
Proof.
  intros Hi. unfold read. destruct (i <? 0) eqn:E; [lia|].
  destruct (l !! Z.to_nat i) as [x|] eqn:Hx; [eauto|].
  apply lookup_ge_None in Hx. lia.
Qed.

Lemma ScaleSide_in_bounds fuel inp pa pm last : forall pos o f,
  0 <= pos -> last < Z.of_nat (length inp) -> length o = length inp ->
  ScaleSide fuel inp pos last o pos pa pm = Fail f ->
  f = OutOfFuel \/ exists v, f = CastOutOfRange v.
Proof.
  induction fuel as [|fuel IH]; intros pos o f Hpos Hlast Hlen; simpl;
    destruct (pos <=? last) eqn:E; try discriminate.
  - intros [= <-]. auto.
  - apply Z.leb_le in E.
    destruct (read_in_range inp pos ltac:(lia)) as [x ->]. cbn [bind].
    destruct (cast_int16 (adjusted pa pm x)) as [v|g] eqn:Hc; cbn [bind].
    + unfold write.
      replace ((0 <=? pos) && (pos <? Z.of_nat (length o))) with true
        by (symmetry; apply andb_true_iff; split;
            [apply Z.leb_le | apply Z.ltb_lt]; lia).
      cbn [bind]. apply IH; [lia | exact Hlast |].
      rewrite length_insert. exact Hlen.
    + intros [= <-]. right. eapply cast_int16_Fail. exact Hc.
Qed.

Lemma scan_peaks_in_bounds fuel inp pos_end :
  pos_end mod 2 = 0 -> pos_end <= Z.of_nat (length inp) ->
  forall pos lp ppl ppr f,
    0 <= pos -> pos mod 2 = 0 ->
    scan_peaks fuel inp pos pos_end lp ppl ppr = Fail f -> f = OutOfFuel.
Proof.
  intros Hend Hle.
  induction fuel as [|fuel IH]; intros pos lp ppl ppr f Hpos Hpar; simpl;
    destruct (pos <? pos_end) eqn:E; try discriminate.
  - intros [= <-]. reflexivity.
  - apply Z.ltb_lt in E. pose proof (even_lt_succ pos pos_end Hpar Hend E).
    destruct (read_in_range inp pos ltac:(lia)) as [x ->]. cbn [bind].
    destruct (read_in_range inp (pos + 1) ltac:(lia)) as [y Hy].
    destruct (F32.gtb (F32.abs x) (left lp)); rewrite Hy; cbn [bind];
      (destruct (F32.gtb (F32.abs y) (right lp)));
      apply IH; try lia;
      replace (pos + 1 + 1) with (pos + 1 * 2) by lia;
      rewrite Z.mod_add by lia; exact Hpar.
Qed.

Lemma TriageSignal_in_bounds inp o side local pp pre existing add scale
    parity pos_end f :
  0 <= side -> pos_end <= Z.of_nat (length inp) ->
  length o = length inp ->
  fresh_pos parity pos_end local pp ->
  TriageSignal inp o side local pp pre existing add scale = Fail f ->
  f = OutOfFuel \/ exists v, f = CastOutOfRange v.
Proof.
  intros Hside Hend Hlen Hfresh. unfold TriageSignal.
  destruct (F32.gtb (F32.mul local pre) existing
            && F32.gtb (F32.mul local pre) upper_bound) eqn:Enew.
  - apply andb_prop in Enew. destruct Enew as [_ Eub].
    destruct Hfresh as [->|(p & -> & Hp & _)].
    { rewrite mul_zero_not_above in Eub. discriminate. }
    intros H. apply bind_Fail in H. destruct H as [H|(o1 & Ho1 & H)].
    { revert H. apply ScaleSide_in_bounds; lia. }
    apply ScaleSide_spec in Ho1. destruct Ho1 as (Hl1 & _).
    apply bind_Fail in H. destruct H as [H|(o2 & _ & H)]; [|discriminate].
    revert H. apply ScaleSide_in_bounds; lia.
  - destruct (F32.gtb existing upper_bound); intros H;
      (apply bind_Fail in H; destruct H as [H|(o1 & _ & H)];
       [|discriminate]);
      revert H; apply ScaleSide_in_bounds; lia.
Qed.

Lemma TriageSignal_length inp o side local pp pre existing add scale o' e' sc' :
  TriageSignal inp o side local pp pre existing add scale = Ok (o', e', sc') ->
  length o' = length o.
Proof.
  unfold TriageSignal.
  destruct (F32.gtb (F32.mul local pre) existing
            && F32.gtb (F32.mul local pre) upper_bound).
  - destruct pp as [p|]; [|discriminate]. intros H.
    bind_inv H. bind_inv H. injection H as <- _ _.
    apply ScaleSide_spec in Ha, Ha0. destruct Ha as [Ha _], Ha0 as [Ha0 _].
    congruence.
  - destruct (F32.gtb existing upper_bound); intros H; bind_inv H;
      injection H as <- _ _; apply ScaleSide_spec in Ha;
      destruct Ha as [Ha _]; exact Ha.
Qed.

Lemma FindPeaks_length pre s inp k s1 :
  FindPeaks pre s inp k = Ok s1 -> length (out s1) = length (out s).
Proof.
  unfold FindPeaks. intros H. bind_inv H. destruct a as [[lp ppl] ppr].
  bind_inv H. destruct a as [[o1 pl] sl].
  bind_inv H. destruct a as [[o2 pr] sr].
  injection H as <-. cbn [out].
  apply TriageSignal_length in Ha0, Ha1. congruence.
Qed.

Lemma Apply_length af pre s inp n s' :
  Apply af pre s inp n = Ok s' -> length (out s') = length (out s).
Proof.
  intros H. apply Apply_Ok in H. destruct H as (s1 & s2 & _ & H1 & H2 & H3).
  apply FindPeaks_length in H1. apply SaveTailFrame_frame in H2.
  apply Release_frame in H3. destruct H2 as (H2 & _).
  destruct H3 as (H3 & _). congruence.
Qed.

Lemma samples_of_small n : 0 <= n < 32768 -> samples_of n = n * 2.
Proof.
  intros Hn. unfold samples_of, UINT16_MOD. apply Z.mod_small. lia.
Qed.

(** Within the capacity, a call stops only where the code has undefined
    behaviour of its own: at a conversion or at the counter. *)
Lemma Apply_fault_kinds af pre s inp n f :
  0 < af < 16384 ->
  Z.of_nat (length inp) = af * 2 -> Z.of_nat (length (out s)) = af * 2 ->
  0 <= n <= af ->
  Apply af pre s inp n = Fail f ->
  (exists v, f = CastOutOfRange v) \/
  (f = SignedOverflow /\ limited_ms s = INT_MAX).
Proof.
  intros Haf HN HO Hn HA.
  assert (Hfuel := Apply_fuel_suffices af pre s inp n HN).
  rewrite HA in Hfuel.
  assert (Hs : samples_of n = n * 2) by (apply samples_of_small; lia).
  unfold Apply in HA. rewrite Hs in HA.
  destruct (n * 2 <=? af * 2) eqn:Hle; [|lia].
  assert (Hlen : length (out s) = length inp) by lia.
  apply bind_Fail in HA. destruct HA as [H|(s1 & H1 & H)].
  - left. unfold FindPeaks in H.
    apply bind_Fail in H. destruct H as [H|([[lp ppl] ppr] & Hsc & H)].
    { apply scan_peaks_in_bounds in H;
        [congruence | apply Z.mod_mul; lia | lia | lia | reflexivity]. }
    destruct (scan_peaks_fresh (S (length inp)) inp (n * 2)
                ltac:(apply Z.mod_mul; lia) 0 no_peak (peak_pos_left s)
                (peak_pos_right s) lp ppl ppr) as [Hfl Hfr];
      [lia | reflexivity | exact I | exact I | left; reflexivity
      | left; reflexivity | exact Hsc |].
    apply bind_Fail in H. destruct H as [H|([[o1 pl] sl] & Ht & H)].
    { apply (TriageSignal_in_bounds _ _ _ _ _ _ _ _ _ 0 (n * 2)) in H;
        [|unfold LEFT; lia | lia | exact Hlen | exact Hfl].
      destruct H as [->|[v ->]]; [congruence | eauto]. }
    apply TriageSignal_length in Ht.
    apply bind_Fail in H. destruct H as [H|([[o2 pr] sr] & _ & H)];
      [|discriminate].
    apply (TriageSignal_in_bounds _ _ _ _ _ _ _ _ _ 1 (n * 2)) in H;
      [|unfold RIGHT; lia | lia | congruence | exact Hfr].
    destruct H as [->|[v ->]]; [congruence | eauto].
  - apply FindPeaks_length in H1 as Hl1.
    apply FindPeaks_frame in H1. destruct H1 as (_ & Hms & _).
    apply bind_Fail in H. destruct H as [H|(s2 & H2 & H)].
    + exfalso. unfold SaveTailFrame in H.
      destruct (n =? 0) eqn:En; [discriminate|].
      apply Z.eqb_neq in En.
      destruct (read_in_range (out s1) ((n - 1) * 2) ltac:(lia)) as [l Hl].
      destruct (read_in_range (out s1) ((n - 1) * 2 + 1) ltac:(lia))
        as [r Hr].
      rewrite Hl, Hr in H. discriminate.
    + right. apply SaveTailFrame_frame in H2.
      destruct H2 as (_ & _ & _ & Hm2 & _).
      unfold Release in H.
      destruct (limited_ms s2 =? INT_MAX) eqn:Em; [|discriminate].
      apply Z.eqb_eq in Em. split; congruence.
Qed.

(** X1: for a limiter of [array_frames] frames (between 1 and 16383, as
    the constructor asserts) whose input and output arrays have
    [2 * array_frames] entries, a call of Apply with at most
    [array_frames] frames makes no access outside an array, uses no peak
    position that was never set, passes its assertion and ends its
    loops.  It returns, with an output array of the same length, or it
    stops at a float that [int16_t] cannot hold, or at [++limited_ms]
    with the counter at [INT_MAX]. *)
Theorem Apply_is_memory_safe af pre s inp n :
  0 < af < 16384 ->
  Z.of_nat (length inp) = af * 2 -> Z.of_nat (length (out s)) = af * 2 ->
  0 <= n <= af ->
  (exists s', Apply af pre s inp n = Ok s' /\
              length (out s') = length (out s)) \/
  (exists v, Apply af pre s inp n = Fail (CastOutOfRange v)) \/
  (Apply af pre s inp n = Fail SignedOverflow /\ limited_ms s = INT_MAX).
Proof.
  intros Haf HN HO Hn.
  destruct (Apply af pre s inp n) as [s'|f] eqn:HA.
  - left. exists s'. split; [reflexivity|]. eapply Apply_length; eauto.
  - right.
    destruct (Apply_fault_kinds af pre s inp n f Haf HN HO Hn HA)
      as [[v ->]|[-> Hm]]; eauto.
Qed.

Lemma Apply_is_memory_safe_witness :
  (exists s', Apply 2 unit_prescale (construct (zeros 4)) quiet_block 2 = Ok s' /\
              length (out s') = length (out (construct (zeros 4)))) \/
  (exists v, Apply 2 unit_prescale (construct (zeros 4)) quiet_block 2
             = Fail (CastOutOfRange v)) \/
  (Apply 2 unit_prescale (construct (zeros 4)) quiet_block 2
   = Fail SignedOverflow /\
   limited_ms (construct (zeros 4)) = INT_MAX).
Proof.
  apply (Apply_is_memory_safe 2 unit_prescale (construct (zeros 4))
           quiet_block 2); [lia | reflexivity | reflexivity | lia].
Defined.

(** ** The assertion of Apply, both ways *)

Lemma ScaleSide_no_assert fuel inp pa pm last : forall pos o opos,
  ScaleSide fuel inp pos last o opos pa pm <> Fail AssertionFailed.
Proof.
  induction fuel as [|fuel IH]; intros pos o opos; simpl;
    destruct (pos <=? last); try discriminate.
  intros H. apply bind_Fail in H. destruct H as [H|(x & _ & H)].
  { apply read_Fail in H. discriminate. }
  apply bind_Fail in H. destruct H as [H|(v & _ & H)].
  { apply cast_int16_Fail in H. destruct H as [w H]. discriminate. }
  apply bind_Fail in H. destruct H as [H|(o' & _ & H)].
  { apply write_Fail in H. discriminate. }
  revert H. apply IH.
Qed.

Lemma scan_peaks_no_assert fuel inp pos_end : forall pos lp ppl ppr,
  scan_peaks fuel inp pos pos_end lp ppl ppr <> Fail AssertionFailed.
Proof.
  induction fuel as [|fuel IH]; intros pos lp ppl ppr; simpl;
    destruct (pos <? pos_end); try discriminate.
  intros H. apply bind_Fail in H. destruct H as [H|(x & _ & H)].
  { apply read_Fail in H. discriminate. }
  destruct (F32.gtb (F32.abs x) (left lp));
    (apply bind_Fail in H; destruct H as [H|(y & _ & H)];
     [apply read_Fail in H; discriminate|]);
    (destruct (F32.gtb (F32.abs y) (right lp)));
    revert H; apply IH.
Qed.

Lemma TriageSignal_no_assert inp o side local pp pre existing add scale :
  TriageSignal inp o side local pp pre existing add scale
  <> Fail AssertionFailed.
Proof.
  unfold TriageSignal.
  destruct (F32.gtb (F32.mul local pre) existing
            && F32.gtb (F32.mul local pre) upper_bound).
  - destruct pp as [p|]; [|discriminate].
    intros H. apply bind_Fail in H. destruct H as [H|(o1 & _ & H)].
    { revert H. apply ScaleSide_no_assert. }
    apply bind_Fail in H. destruct H as [H|(o2 & _ & H)]; [|discriminate].
    revert H. apply ScaleSide_no_assert.
  - destruct (F32.gtb existing upper_bound); intros H;
      (apply bind_Fail in H; destruct H as [H|(o1 & _ & H)];
       [|discriminate]);
      revert H; apply ScaleSide_no_assert.
Qed.

(** X2: for a frame count below 32768 (so that its double fits the
    [uint16_t]), the assertion of Apply fails exactly when the count
    exceeds the capacity: a call with more frames than the limiter holds
    stops at the assertion, and no call within the capacity does. *)
Theorem Apply_asserts_exactly_over_capacity af pre s inp n :
  0 <= n < 32768 ->
  (Apply af pre s inp n = Fail AssertionFailed <-> af < n).
Proof.
  intros Hn. unfold Apply. rewrite samples_of_small by exact Hn.
  destruct (n * 2 <=? af * 2) eqn:E.
  - apply Z.leb_le in E. split; [|lia]. intros H. exfalso.
    apply bind_Fail in H. destruct H as [H|(s1 & _ & H)].
    + unfold FindPeaks in H.
      apply bind_Fail in H. destruct H as [H|([[lp ppl] ppr] & _ & H)].
      { revert H. apply scan_peaks_no_assert. }
      apply bind_Fail in H. destruct H as [H|([[o1 pl] sl] & _ & H)].
      { revert H. apply TriageSignal_no_assert. }
      apply bind_Fail in H. destruct H as [H|([[o2 pr] sr] & _ & H)];
        [|discriminate].
      revert H. apply TriageSignal_no_assert.
    + apply bind_Fail in H. destruct H as [H|(s2 & _ & H)].
      * unfold SaveTailFrame in H. destruct (n =? 0); [discriminate|].
        apply bind_Fail in H. destruct H as [H|(l & _ & H)].
        { apply read_Fail in H. discriminate. }
        apply bind_Fail in H. destruct H as [H|(r & _ & H)]; [|discriminate].
        apply read_Fail in H. discriminate.
      * unfold Release in H. destruct (limited_ms s2 =? INT_MAX); discriminate.
  - apply Z.leb_gt in E. split; [lia | reflexivity].
Qed.

Lemma Apply_asserts_exactly_over_capacity_witness :
  Apply 48 unit_prescale (construct (zeros 96)) (replicate 96 F32.zero) 100
  = Fail AssertionFailed <-> 48 < 100.
Proof.
  apply (Apply_asserts_exactly_over_capacity 48 unit_prescale
           (construct (zeros 96)) (replicate 96 F32.zero) 100).
  lia.
Defined.

(** ** What the scan of FindPeaks records *)

Lemma SFltb_irrefl (x : spec_float) : SFltb x x = false.
Proof.
  unfold SFltb.
  destruct x as [[]|[]| |[] m e]; cbn [SFcompare]; try reflexivity;
    rewrite Z.compare_refl, Pos.compare_cont_refl; reflexivity.
Qed.

Lemma SFltb_finite (m m' : positive) (e e' : Z) :
  SFltb (S754_finite false m e) (S754_finite false m' e') = true <->
  e < e' \/ (e = e' /\ Zpos m < Zpos m').
Proof.
  unfold SFltb. cbn [SFcompare].
  change (Pos.compare_cont Eq m m') with (Zpos m ?= Zpos m').
  destruct (Z.compare_spec e e') as [->|Hlt|Hgt].
  - destruct (Z.compare_spec (Zpos m) (Zpos m')) as [Hm|Hm|Hm]; split;
      intros H; try discriminate; try reflexivity; lia.
  - split; auto.
  - split; [discriminate | lia].
Qed.

Lemma SFltb_finite_false (m m' : positive) (e e' : Z) :
  SFltb (S754_finite false m e) (S754_finite false m' e') = false <->
  e' < e \/ (e = e' /\ Zpos m' <= Zpos m).
Proof.
  rewrite <- not_true_iff_false, SFltb_finite. lia.
Qed.

Lemma SFleb_finite (m m' : positive) (e e' : Z) :
  SFleb (S754_finite false m e) (S754_finite false m' e') = true <->
  e < e' \/ (e = e' /\ Zpos m <= Zpos m').
Proof.
  unfold SFleb. cbn [SFcompare].
  change (Pos.compare_cont Eq m m') with (Zpos m ?= Zpos m').
  destruct (Z.compare_spec e e') as [->|Hlt|Hgt].
  - destruct (Z.compare_spec (Zpos m) (Zpos m')) as [Hm|Hm|Hm]; split;
      intros H; try discriminate; try reflexivity; lia.
  - split; auto.
  - split; [discriminate | lia].
Qed.

Lemma SFleb_refl (x : spec_float) : x <> S754_nan -> SFleb x x = true.
Proof.
  unfold SFleb.
  destruct x as [[]|[]| |[] m e]; cbn [SFcompare]; try reflexivity;
    try congruence; intros _;
    rewrite Z.compare_refl, Pos.compare_cont_refl; reflexivity.
Qed.

(** A sample not above the running peak stays not above, and below, a
    later sample that is above the running peak. *)
Lemma scan_order (y x cur : float) :
  nonneg cur ->
  F32.gtb (F32.abs y) cur = false -> F32.gtb (F32.abs x) cur = true ->
  F32.gtb (F32.abs y) (F32.abs x) = false /\
  (y = S754_nan \/ F32.ltb (F32.abs y) (F32.abs x) = true).
Proof.
  unfold F32.gtb, F32.ltb, F32.abs.
  destruct cur as [[]|[]| |[] mc ec]; try contradiction; intros _;
    destruct y as [sy|sy| |sy my ey], x as [sx|sx| |sx mx ex];
    cbn [SFabs]; intros H1 H2;
    try discriminate H1; try discriminate H2;
    try (split; [reflexivity | auto]; fail).
  apply SFltb_finite_false in H1. apply SFltb_finite in H2.
  split; [apply SFltb_finite_false | right; apply SFltb_finite]; lia.
Qed.

Lemma abs_keeps_nonneg (x cur : float) :
  nonneg cur -> nonneg (if F32.gtb (F32.abs x) cur then F32.abs x else cur).
Proof.
  intros Hc. destruct (F32.gtb (F32.abs x) cur) eqn:E; [|exact Hc].
  apply gtb_abs_nonneg in E; tauto.
Qed.

Lemma first_maximum_step inp parity pos q cur pp pp0 x :
  nonneg cur ->
  first_maximum inp parity pos cur pp pp0 ->
  0 <= q < pos + 2 -> q mod 2 = parity ->
  (forall j, 0 <= j < pos + 2 -> j mod 2 = parity -> j < pos \/ j = q) ->
  inp !! Z.to_nat q = Some x ->
  first_maximum inp parity (pos + 2)
    (if F32.gtb (F32.abs x) cur then F32.abs x else cur)
    (if F32.gtb (F32.abs x) cur then Some q else pp) pp0.
Proof.
  intros Hn [HA HB] Hq Hpar Hsplit Hx.
  destruct (F32.gtb (F32.abs x) cur) eqn:E.
  - split.
    + intros j y Hj Hjp Hy. destruct (Hsplit j Hj Hjp) as [Hlt| ->].
      * apply (scan_order y x cur Hn); [|exact E].
        apply (HA j); auto; lia.
      * rewrite Hx in Hy. injection Hy as <-. apply SFltb_irrefl.
    + right. exists q, x. split; [reflexivity|]. split; [lia|].
      split; [exact Hpar|]. split; [exact Hx|]. split; [reflexivity|].
      intros j y Hj Hjp Hy.
      assert (Hlt : j < pos).
      { destruct (Hsplit j ltac:(lia) Hjp); lia. }
      apply (scan_order y x cur Hn); [|exact E].
      apply (HA j); auto; lia.
  - split.
    + intros j y Hj Hjp Hy. destruct (Hsplit j Hj Hjp) as [Hlt| ->].
      * apply (HA j); auto; lia.
      * rewrite Hx in Hy. injection Hy as <-. exact E.
    + destruct HB as [HB|(p & x0 & Hp & Hr & HB)]; [left; exact HB|].
      right. exists p, x0. split; [exact Hp|]. split; [lia|]. exact HB.
Qed.

Lemma scan_peaks_first_maximum fuel inp pos_end ia ib :
  pos_end mod 2 = 0 ->
  forall pos lp ppl ppr lp' ppl' ppr',
    0 <= pos <= pos_end -> pos mod 2 = 0 ->
    nonneg (left lp) -> nonneg (right lp) ->
    first_maximum inp 0 pos (left lp) ppl ia ->
    first_maximum inp 1 pos (right lp) ppr ib ->
    scan_peaks fuel inp pos pos_end lp ppl ppr = Ok (lp', ppl', ppr') ->
    first_maximum inp 0 pos_end (left lp') ppl' ia /\
    first_maximum inp 1 pos_end (right lp') ppr' ib.
Proof.
  intros Hend.
  induction fuel as [|fuel IH];
    intros pos lp ppl ppr lp' ppl' ppr' Hpos Hpar Hnl Hnr Hl Hr; simpl;
    (destruct (pos <? pos_end) eqn:E;
     [|intros [= <- <- <-]; apply Z.ltb_ge in E;
       replace pos_end with pos by lia; split; assumption]).
  - discriminate.
  - apply Z.ltb_lt in E. pose proof (even_lt_succ pos pos_end Hpar Hend E) as Hs.
    intros H. bind_inv H. apply read_Ok in Ha. destruct Ha as [_ Hx].
    assert (Hl' := first_maximum_step inp 0 pos pos (left lp) ppl ia a Hnl Hl
                     ltac:(lia) Hpar).
    assert (Hsl : forall j, 0 <= j < pos + 2 -> j mod 2 = 0 ->
                            j < pos \/ j = pos).
    { intros j Hj Hjp. destruct (Z.eq_dec j (pos + 1)) as [->|]; [|lia].
      replace (pos + 1) with (1 + pos) in Hjp by lia.
      rewrite <- Z.add_mod_idemp_r, Hpar in Hjp by lia. discriminate. }
    specialize (Hl' Hsl Hx).
    assert (Hnl' := abs_keeps_nonneg a (left lp) Hnl).
    assert (Hp1 : (pos + 1) mod 2 = 1).
    { replace (pos + 1) with (1 + pos) by lia.
      rewrite <- Z.add_mod_idemp_r, Hpar by lia. reflexivity. }
    assert (Hsr : forall j, 0 <= j < pos + 2 -> j mod 2 = 1 ->
                            j < pos \/ j = pos + 1).
    { intros j Hj Hjp. destruct (Z.eq_dec j pos) as [->|]; [|lia].
      rewrite Hpar in Hjp. discriminate. }
    assert (Hp2 : (pos + 1 + 1) mod 2 = 0).
    { replace (pos + 1 + 1) with (pos + 1 * 2) by lia.
      rewrite Z.mod_add by lia. exact Hpar. }
    destruct (F32.gtb (F32.abs a) (left lp)) eqn:Gl;
      bind_inv H; apply read_Ok in Ha0; destruct Ha0 as [_ Hy];
      assert (Hr' := first_maximum_step inp 1 pos (pos + 1) (right lp) ppr ib
                       a0 Hnr Hr ltac:(lia) Hp1 Hsr Hy);
      assert (Hnr' := abs_keeps_nonneg a0 (right lp) Hnr);
      (destruct (F32.gtb (F32.abs a0) (right lp)) eqn:Gr);
      apply IH in H; auto; try lia;
      replace (pos + 1 + 1) with (pos + 2) by lia; assumption.
Qed.

Lemma scan_first_maximum inp k ia ib lp ppl ppr :
  k mod 2 = 0 ->
  scan_peaks (S (length inp)) inp 0 k no_peak ia ib = Ok (lp, ppl, ppr) ->
  first_maximum inp 0 k (left lp) ppl ia /\
  first_maximum inp 1 k (right lp) ppr ib.
Proof.
  intros Hk H.
  destruct (Z_le_gt_dec 0 k) as [Hpos|Hneg].
  - apply (scan_peaks_first_maximum (S (length inp)) inp k ia ib Hk 0
             no_peak ia ib lp ppl ppr);
      try exact H; try exact I; try reflexivity; try lia;
      (split; [intros j y Hj; lia | left; split; reflexivity]).
  - destruct (length inp); cbn in H;
      (destruct (0 <? k) eqn:E; [lia|]); injection H as <- <- <-;
      (split; (split; [intros j y Hj; lia | left; split; reflexivity])).
Qed.

Lemma TriageSignal_scale inp o side local pp pre existing add scale
    o' e' sc' :
  TriageSignal inp o side local pp pre existing add scale = Ok (o', e', sc') ->
  sc' = (if F32.gtb (F32.mul local pre) existing
            && F32.gtb (F32.mul local pre) upper_bound
         then F32.div upper_bound (F32.mul local pre)
         else if F32.gtb existing upper_bound
              then F32.div upper_bound existing else scale).
Proof.
  unfold TriageSignal.
  destruct (F32.gtb (F32.mul local pre) existing
            && F32.gtb (F32.mul local pre) upper_bound).
  - destruct pp as [p|]; [|discriminate]. intros H.
    bind_inv H. bind_inv H. injection H as _ _ <-. reflexivity.
  - destruct (F32.gtb existing upper_bound); intros H; bind_inv H;
      injection H as _ _ <-; reflexivity.
Qed.

(** The peak positions and the scale factors a call leaves behind. *)
Lemma Apply_scale af pre s inp n s' lp ppl ppr :
  Apply af pre s inp n = Ok s' ->
  scan_peaks (S (length inp)) inp 0 (samples_of n) no_peak
             (peak_pos_left s) (peak_pos_right s) = Ok (lp, ppl, ppr) ->
  peak_pos_left s' = ppl /\ peak_pos_right s' = ppr /\
  limit_scale s' =
  mkFrame
    (if F32.gtb (F32.mul (left lp) (left pre)) (left (peak s))
        && F32.gtb (F32.mul (left lp) (left pre)) upper_bound
     then F32.div upper_bound (F32.mul (left lp) (left pre))
     else if F32.gtb (left (peak s)) upper_bound
          then F32.div upper_bound (left (peak s))
          else left (limit_scale s))
    (if F32.gtb (F32.mul (right lp) (right pre)) (right (peak s))
        && F32.gtb (F32.mul (right lp) (right pre)) upper_bound
     then F32.div upper_bound (F32.mul (right lp) (right pre))
     else if F32.gtb (right (peak s)) upper_bound
          then F32.div upper_bound (right (peak s))
          else right (limit_scale s)).
Proof.
  intros H Hs. apply Apply_Ok in H. destruct H as (s1 & s2 & _ & H1 & H2 & H3).
  unfold SaveTailFrame in H2. apply Release_frame in H3 as H3'.
  destruct H3' as (_ & _ & Hsc3 & _).
  assert (Hpos3 : peak_pos_left s' = peak_pos_left s2 /\
                  peak_pos_right s' = peak_pos_right s2).
  { unfold Release in H3. destruct (limited_ms s2 =? INT_MAX); [discriminate|].
    injection H3 as <-. split; reflexivity. }
  assert (Hs2 : peak_pos_left s2 = peak_pos_left s1 /\
                peak_pos_right s2 = peak_pos_right s1 /\
                limit_scale s2 = limit_scale s1).
  { destruct (n =? 0).
    - injection H2 as <-. repeat split; reflexivity.
    - bind_inv H2. bind_inv H2. injection H2 as <-. repeat split; reflexivity. }
  destruct Hpos3 as [-> ->]. destruct Hs2 as (-> & -> & Hsc2).
  rewrite Hsc3, Hsc2. clear H2 H3 Hsc3 Hsc2 s2 s'.
  unfold FindPeaks in H1. rewrite Hs in H1. cbn [bind] in H1.
  bind_inv H1. destruct a as [[o1 pl] sl].
  bind_inv H1. destruct a as [[o2 pr] sr].
  injection H1 as <-. cbn [peak_pos_left peak_pos_right limit_scale].
  apply TriageSignal_scale in Ha, Ha0. subst sl sr. auto.
Qed.



(** X4: the peaks depend on the requested frames only.  Two calls on the
    same limiter with blocks that agree on the first [2 * req_frames]
    samples leave the same tracked peaks, the same scale factors and
    the same peak positions, whatever the blocks hold beyond. *)
Theorem peaks_depend_on_requested_frames_only af pre s inp inp2 n s1 s2 :
  length inp2 = length inp ->
  (forall i, 0 <= i < samples_of n ->
             inp2 !! Z.to_nat i = inp !! Z.to_nat i) ->
  Apply af pre s inp n = Ok s1 ->
  Apply af pre s inp2 n = Ok s2 ->
  peak s2 = peak s1 /\ limit_scale s2 = limit_scale s1 /\
  peak_pos_left s2 = peak_pos_left s1 /\
  peak_pos_right s2 = peak_pos_right s1.
Proof.
  intros Hlen Hsame H1 H2.
  pose proof (scan_reads_requested_frames_only s inp inp2 n Hlen Hsame) as Hsc.
  apply Apply_peak in H1 as Hp1. destruct Hp1 as (lp & ppl & ppr & Hs1 & Hp1).
  apply Apply_peak in H2 as Hp2.
  destruct Hp2 as (lp2 & ppl2 & ppr2 & Hs2 & Hp2).
  rewrite Hsc, Hs1 in Hs2. injection Hs2 as <- <- <-.
  rewrite <- Hsc in Hs1.
  destruct (Apply_scale _ _ _ _ _ _ _ _ _ H2 Hs1) as (Ha2 & Hb2 & Hc2).
  rewrite Hsc in Hs1.
  destruct (Apply_scale _ _ _ _ _ _ _ _ _ H1 Hs1) as (Ha1 & Hb1 & Hc1).
  repeat split; congruence.
Qed.

Lemma peaks_depend_on_requested_frames_only_witness :
  peak after_short_call_other_frame = peak after_short_call_over_sevens /\
  limit_scale after_short_call_other_frame
  = limit_scale after_short_call_over_sevens /\
  peak_pos_left after_short_call_other_frame
  = peak_pos_left after_short_call_over_sevens /\
  peak_pos_right after_short_call_other_frame
  = peak_pos_right after_short_call_over_sevens.
Proof.
  apply (peaks_depend_on_requested_frames_only 2 unit_prescale
           (construct [7; 7; 7; 7]) quiet_block other_second_frame 1).
  - reflexivity.
  - intros i Hi. change (samples_of 1) with 2 in Hi.
    assert (Hc : i = 0 \/ i = 1) by lia.
    destruct Hc as [-> | ->]; reflexivity.
  - vm_compute. reflexivity.
  - vm_compute. reflexivity.
Defined.

(** ** Blocks that need no limiting *)

Lemma F32_mul_one (x : float) :
  F32.valid x = true -> F32.mul x F32.one = x.
Proof.
  rewrite one_eq. destruct x as [[]|[]| |s m e]; try reflexivity.
  unfold F32.valid. cbn [valid_binary]. intros Hb.
  unfold F32.mul, SFmul. rewrite xorb_false_r.
  change (Zpos (m * 8388608)) with (Zpos (m * 8388608)).
  replace (e + -23) with (e - 23) by lia.
  replace (S754_finite s m e) with (S754_finite s m (e - 23 + 23))
    by (f_equal; lia).
  apply binary_round_aux_exact_shift; [lia | reflexivity |].
  replace (e - 23 + 23) with e by lia. exact Hb.
Qed.

(** [0 + x * 1.0f] converts as [x] does. *)
Lemma cast_adjusted_unit (x : float) :
  F32.valid x = true ->
  cast_int16 (adjusted F32.zero F32.one x) = cast_int16 x.
Proof.
  intros Hv. unfold adjusted. rewrite F32_mul_one by exact Hv.
  destruct x as [[]|[]| |s m e]; reflexivity.
Qed.

Lemma first_maximum_not_over inp parity k cur pp pp0 (pre : float) :
  first_maximum inp parity k cur pp pp0 ->
  (forall j x, 0 <= j < k -> j mod 2 = parity ->
     inp !! Z.to_nat j = Some x ->
     F32.gtb (F32.mul (F32.abs x) pre) upper_bound = false) ->
  F32.gtb (F32.mul cur pre) upper_bound = false.
Proof.
  intros [_ [[-> _]|(p & x & _ & Hp & Hpar & Hx & -> & _)]] H.
  - apply mul_zero_not_above.
  - apply (H p x); assumption.
Qed.

Lemma no_sample_over_scan pre s inp n lp ppl ppr :
  no_sample_over pre inp (samples_of n) ->
  scan_peaks (S (length inp)) inp 0 (samples_of n) no_peak
             (peak_pos_left s) (peak_pos_right s) = Ok (lp, ppl, ppr) ->
  F32.gtb (F32.mul (left lp) (left pre)) upper_bound = false /\
  F32.gtb (F32.mul (right lp) (right pre)) upper_bound = false.
Proof.
  intros Hq Hs.
  apply scan_first_maximum in Hs; [|apply samples_of_even].
  destruct Hs as [Hl Hr]. split.
  - apply (first_maximum_not_over _ _ _ _ _ _ _ Hl).
    intros j x Hj Hpar Hx. specialize (Hq j x Hj Hx).
    unfold prescale_of in Hq. rewrite Hpar in Hq. exact Hq.
  - apply (first_maximum_not_over _ _ _ _ _ _ _ Hr).
    intros j x Hj Hpar Hx. specialize (Hq j x Hj Hx).
    unfold prescale_of in Hq. rewrite Hpar in Hq. exact Hq.
Qed.

Lemma release_side_keeps (p : float) :
  F32.gtb p upper_bound = false -> release_side p = p.
Proof. unfold release_side. intros ->. reflexivity. Qed.

Lemma FindPeaks_scale_kept pre s inp k s1 lp ppl ppr :
  scan_peaks (S (length inp)) inp 0 k no_peak
             (peak_pos_left s) (peak_pos_right s) = Ok (lp, ppl, ppr) ->
  F32.gtb (F32.mul (left lp) (left pre)) upper_bound = false ->
  F32.gtb (F32.mul (right lp) (right pre)) upper_bound = false ->
  F32.gtb (left (peak s)) upper_bound = false ->
  F32.gtb (right (peak s)) upper_bound = false ->
  FindPeaks pre s inp k = Ok s1 ->
  limit_scale s1 = limit_scale s.
Proof.
  intros Hs El Er Pl Pr H. unfold FindPeaks in H. rewrite Hs in H.
  cbn [bind] in H. unfold TriageSignal in H.
  rewrite El, Er, Pl, Pr, !andb_false_r in H.
  unfold LEFT, RIGHT in H.
  bind_inv H. bind_inv Ha. injection Ha as <-.
  bind_inv H. bind_inv Ha. injection Ha as <-.
  injection H as <-. cbn [limit_scale].
  destruct (limit_scale s); reflexivity.
Qed.

Lemma quiet_block_valid : Forall (fun x => F32.valid x = true) quiet_block.
Proof. repeat constructor. Defined.

Lemma quiet_block_no_sample_over :
  no_sample_over unit_prescale quiet_block (samples_of 2).
Proof.
  intros j x Hj Hx. change (samples_of 2) with 4 in Hj.
  assert (Hc : j = 0 \/ j = 1 \/ j = 2 \/ j = 3) by lia.
  destruct Hc as [-> | [-> | [-> | ->]]]; vm_compute in Hx; injection Hx as <-;
    vm_compute; reflexivity.
Defined.

(** X5: when no requested sample exceeds the bound after prescaling and
    neither tracked peak is above the bound, a call leaves the peaks and
    the scale factors as they are and every slot of the output but the
    last one holds [static_cast<int16_t>(in[j])], the input sample
    truncated toward zero. *)
Theorem Apply_pass_through_is_direct_cast af pre s inp n s' :
  Z.of_nat (length inp) = af * 2 ->
  Forall (fun x => F32.valid x = true) inp ->
  no_sample_over pre inp (samples_of n) ->
  F32.gtb (left (peak s)) upper_bound = false ->
  F32.gtb (right (peak s)) upper_bound = false ->
  Apply af pre s inp n = Ok s' ->
  peak s' = peak s /\ limit_scale s' = limit_scale s /\
  forall j, 0 <= j < af * 2 - 1 ->
    exists x v, inp !! Z.to_nat j = Some x /\ cast_int16 x = Ok v /\
                out s' !! Z.to_nat j = Some v.
Proof.
  intros HN Hall Hq Pl Pr H. apply Apply_Ok in H.
  destruct H as (s1 & s2 & _ & H1 & H2 & H3).
  apply FindPeaks_peak in H1 as Hp1.
  destruct Hp1 as (lp & ppl & ppr & Hs & _).
  destruct (no_sample_over_scan pre s inp n lp ppl ppr Hq Hs) as [El Er].
  assert (HN2 : Z.of_nat (length inp) mod 2 = 0)
    by (rewrite HN; apply Z.mod_mul; lia).
  destruct (pass_through_but_last_right_slot pre s inp _ s1 lp ppl ppr
              HN2 Hs El Er Pl Pr H1) as [Hpk Hw].
  pose proof (FindPeaks_scale_kept pre s inp _ s1 lp ppl ppr Hs El Er Pl Pr
                H1) as Hsc.
  apply SaveTailFrame_frame in H2. destruct H2 as (Ho2 & Hp2 & Hs2 & _).
  apply Release_frame in H3. destruct H3 as (Ho3 & _ & Hs3 & _ & _ & Hp3).
  split; [|split].
  - rewrite Hp3, Hp2, Hpk, !release_side_keeps by assumption.
    destruct (peak s); reflexivity.
  - congruence.
  - intros j Hj. rewrite Ho3, Ho2.
    destruct (Hw j ltac:(lia)) as (x & v & Hx & Hc & Ho).
    exists x, v. split; [exact Hx|]. split; [|exact Ho].
    rewrite <- Hc. symmetry. apply cast_adjusted_unit.
    rewrite Forall_lookup in Hall. exact (Hall _ _ Hx).
Qed.

Lemma Apply_pass_through_is_direct_cast_witness :
  peak after_quiet_block = peak (construct (zeros 4)) /\
  limit_scale after_quiet_block = limit_scale (construct (zeros 4)) /\
  forall j, 0 <= j < 2 * 2 - 1 ->
    exists x v, quiet_block !! Z.to_nat j = Some x /\ cast_int16 x = Ok v /\
                out after_quiet_block !! Z.to_nat j = Some v.
Proof.
  apply (Apply_pass_through_is_direct_cast 2 unit_prescale
           (construct (zeros 4)) quiet_block 2 after_quiet_block).
  - reflexivity.
  - exact quiet_block_valid.
  - exact quiet_block_no_sample_over.
  - reflexivity.
  - reflexivity.
  - vm_compute. reflexivity.
Defined.

Lemma ScaleSide_cast_fault fuel inp pa pm last : forall pos o opos v,
  ScaleSide fuel inp pos last o opos pa pm = Fail (CastOutOfRange v) ->
  exists j x, in_pass pos last j /\ inp !! Z.to_nat j = Some x /\
              cast_int16 (adjusted pa pm x) = Fail (CastOutOfRange v).
Proof.
  induction fuel as [|fuel IH]; intros pos o opos v; simpl;
    destruct (pos <=? last) eqn:E; try discriminate.
  apply Z.leb_le in E. intros H.
  apply bind_Fail in H. destruct H as [H|(x & Hx & H)].
  { apply read_Fail in H. discriminate. }
  apply read_Ok in Hx. destruct Hx as [Hpos Hx].
  apply bind_Fail in H. destruct H as [H|(w & Hw & H)].
  { exists pos, x. split; [|auto].
    apply in_pass_step. left. split; [reflexivity | exact E]. }
  apply bind_Fail in H. destruct H as [H|(o' & Ho & H)].
  { apply write_Fail in H. discriminate. }
  apply IH in H. destruct H as (j & y & Hj & Hy & Hc).
  exists j, y. split; [|auto]. apply in_pass_step. right. exact Hj.
Qed.

(** X6: such a call returns.  Within the capacity, with no requested
    sample above the bound after prescaling, no tracked peak above the
    bound, every sample of the array but the last one within the range
    of [int16_t] once truncated, and the counter below [INT_MAX], Apply
    does not stop. *)
Theorem Apply_quiet_block_returns af pre s inp n :
  0 < af < 16384 ->
  Z.of_nat (length inp) = af * 2 -> Z.of_nat (length (out s)) = af * 2 ->
  0 <= n <= af ->
  Forall (fun x => F32.valid x = true) inp ->
  no_sample_over pre inp (samples_of n) ->
  F32.gtb (left (peak s)) upper_bound = false ->
  F32.gtb (right (peak s)) upper_bound = false ->
  (forall j x, 0 <= j < af * 2 - 1 -> inp !! Z.to_nat j = Some x ->
     exists v, cast_int16 x = Ok v) ->
  limited_ms s <> INT_MAX ->
  exists s', Apply af pre s inp n = Ok s'.
Proof.
  intros Haf HN HO Hn Hall Hq Pl Pr Hfit Hms.
  destruct (Apply af pre s inp n) as [s'|f] eqn:H; [eauto|].
  exfalso.
  destruct (Apply_fault_kinds af pre s inp n f Haf HN HO Hn H)
    as [[v ->]|[_ Hm]]; [|contradiction].
  unfold Apply in H.
  destruct (samples_of n <=? af * 2); [|discriminate].
  apply bind_Fail in H. destruct H as [H|(s1 & _ & H)].
  - unfold FindPeaks in H.
    apply bind_Fail in H. destruct H as [H|([[lp ppl] ppr] & Hs & H)].
    { rewrite samples_of_small in H by lia.
      apply scan_peaks_in_bounds in H;
        [discriminate | apply Z.mod_mul; lia | lia | lia | reflexivity]. }
    destruct (no_sample_over_scan pre s inp n lp ppl ppr Hq Hs) as [El Er].
    unfold TriageSignal in H.
    rewrite El, Er, Pl, Pr, !andb_false_r in H. unfold LEFT, RIGHT in H.
    assert (Hno : forall pos last o opos,
              0 <= pos -> last <= af * 2 - 2 ->
              ScaleSide (S (length inp)) inp pos last o opos F32.zero F32.one
              <> Fail (CastOutOfRange v)).
    { intros pos last o opos Hpos Hlast Hc.
      apply ScaleSide_cast_fault in Hc.
      destruct Hc as (j & x & [Hj _] & Hx & Hc).
      rewrite cast_adjusted_unit in Hc
        by (rewrite Forall_lookup in Hall; exact (Hall _ _ Hx)).
      destruct (Hfit j x ltac:(lia) Hx) as [w Hw]. congruence. }
    apply bind_Fail in H. destruct H as [H|([[o1 pl] sl] & _ & H)].
    { apply bind_Fail in H. destruct H as [H|(o1 & _ & H)]; [|discriminate].
      revert H. apply Hno; lia. }
    apply bind_Fail in H. destruct H as [H|([[o2 pr] sr] & _ & H)];
      [|discriminate].
    apply bind_Fail in H. destruct H as [H|(o2 & _ & H)]; [|discriminate].
    revert H. apply Hno; lia.
  - apply bind_Fail in H. destruct H as [H|(s2 & _ & H)].
    + unfold SaveTailFrame in H. destruct (n =? 0); [discriminate|].
      apply bind_Fail in H. destruct H as [H|(l & _ & H)].
      { apply read_Fail in H. discriminate. }
      apply bind_Fail in H. destruct H as [H|(r & _ & H)]; [|discriminate].
      apply read_Fail in H. discriminate.
    + unfold Release in H. destruct (limited_ms s2 =? INT_MAX); discriminate.
Qed.

Lemma Apply_quiet_block_returns_witness :
  exists s', Apply 2 unit_prescale (construct (zeros 4)) quiet_block 2 = Ok s'.
Proof.
  apply (Apply_quiet_block_returns 2 unit_prescale (construct (zeros 4))
           quiet_block 2).
  - lia.
  - reflexivity.
  - reflexivity.
  - lia.
  - exact quiet_block_valid.
  - exact quiet_block_no_sample_over.
  - reflexivity.
  - reflexivity.
  - intros j x Hj Hx.
    assert (Hc : j = 0 \/ j = 1 \/ j = 2) by lia.
    destruct Hc as [-> | [-> | ->]]; vm_compute in Hx; injection Hx as <-;
      eexists; vm_compute; reflexivity.
  - vm_compute. discriminate.
Defined.

(** ** New peaks *)

Lemma odd_succ_even (p : Z) : p mod 2 = 1 -> (p + 1 + 2) mod 2 = 0.
Proof.
  intros Hp. pose proof (Z.div_mod p 2 ltac:(lia)).
  replace (p + 1 + 2) with (0 + (p / 2 + 2) * 2) by lia.
  apply Z.mod_add. lia.
Qed.

(** The passes of the left channel leave the right channel's slots
    alone. *)
Lemma TriageSignal_left_keeps_odd inp o local pp pre existing add scale
    pos_end o' e' sc' :
  fresh_pos 0 pos_end local pp ->
  TriageSignal inp o LEFT local pp pre existing add scale = Ok (o', e', sc') ->
  forall j, 0 <= j -> j mod 2 = 1 -> o' !! Z.to_nat j = o !! Z.to_nat j.
Proof.
  intros Hfresh H j Hj Hpar.
  assert (Hev : forall pos last, pos mod 2 = 0 -> ~ in_pass pos last j).
  { intros pos last Hpos Hc. apply in_pass_parity in Hc. lia. }
  unfold TriageSignal in H. unfold LEFT in H.
  destruct (F32.gtb (F32.mul local pre) existing
            && F32.gtb (F32.mul local pre) upper_bound) eqn:Enew.
  - apply andb_prop in Enew. destruct Enew as [_ Eub].
    destruct Hfresh as [->|(p & -> & Hp & Hpp)].
    { rewrite mul_zero_not_above in Eub. discriminate. }
    bind_inv H. bind_inv H. injection H as <- _ _.
    apply ScaleSide_spec in Ha, Ha0.
    destruct Ha as (_ & _ & Hout1). destruct Ha0 as (_ & _ & Hout2).
    rewrite Hout2, Hout1; auto.
    apply Hev. replace (p + 0 + 2) with (p + 1 * 2) by lia.
    rewrite Z.mod_add by lia. exact Hpp.
  - destruct (F32.gtb existing upper_bound);
      bind_inv H; injection H as <- _ _;
      apply ScaleSide_spec in Ha; destruct Ha as (_ & _ & Hout);
      apply Hout; auto.
Qed.

(** What the passes of the right channel write: in the new-peak branch
    the ramp on the right slots up to the peak, then the scalar on the
    left slots from three samples after it; otherwise the right slots up
    to the last but one. *)
Lemma TriageSignal_right_slots inp o local pp pre existing add scale
    pos_end o' e' sc' :
  fresh_pos 1 pos_end local pp ->
  TriageSignal inp o RIGHT local pp pre existing add scale
  = Ok (o', e', sc') ->
  let N := Z.of_nat (length inp) in
  let local' := F32.mul local pre in
  if F32.gtb local' existing && F32.gtb local' upper_bound then
    exists p,
      pp = Some p /\ 0 <= p < pos_end /\ p mod 2 = 1 /\
      (forall j, 0 <= j <= p -> j mod 2 = 1 ->
         written_as inp o' j (add, peak_mult add local')) /\
      (forall j, p < j -> j mod 2 = 1 ->
         o' !! Z.to_nat j = o !! Z.to_nat j) /\
      (forall j, p + 3 <= j <= N - 3 -> j mod 2 = 0 ->
         written_as inp o' j (F32.zero, F32.div upper_bound local')) /\
      (forall j, 0 <= j -> j mod 2 = 0 -> ~ p + 3 <= j <= N - 3 ->
         o' !! Z.to_nat j = o !! Z.to_nat j)
  else
    (forall j, 0 <= j -> ~ (j mod 2 = 1 /\ j <= N - 3) ->
       o' !! Z.to_nat j = o !! Z.to_nat j).
Proof.
  intros Hfresh H N local'. unfold TriageSignal in H. fold local' in H.
  unfold RIGHT in H.
  destruct (F32.gtb local' existing && F32.gtb local' upper_bound) eqn:Enew.
  - apply andb_prop in Enew. destruct Enew as [_ Eub].
    destruct Hfresh as [->|(p & -> & Hp & Hpp)].
    { unfold local' in Eub. rewrite mul_zero_not_above in Eub.
      discriminate. }
    bind_inv H. bind_inv H. injection H as <- _ _.
    apply ScaleSide_spec in Ha, Ha0.
    destruct Ha as (_ & Hin1 & Hout1). destruct Ha0 as (_ & Hin2 & Hout2).
    pose proof (odd_succ_even p Hpp) as Hev.
    exists p. split; [reflexivity|]. split; [exact Hp|].
    split; [exact Hpp|]. split; [|split; [|split]].
    + intros j Hj Hpar. apply (written_as_keep inp a).
      * apply Hout2; [lia|]. intros Hc. apply in_pass_parity in Hc. lia.
      * apply Hin1. apply in_pass_intro; [|rewrite Hpar; reflexivity].
        pose proof (Z.div_mod j 2 ltac:(lia)). lia.
    + intros j Hj Hpar. rewrite Hout2, Hout1; auto; try lia.
      * unfold in_pass. lia.
      * intros Hc. apply in_pass_parity in Hc. lia.
    + intros j Hj Hpar. apply Hin2. apply in_pass_intro; [|lia].
      fold N. lia.
    + intros j Hj Hpar Hn. rewrite Hout2, Hout1; auto.
      * intros Hc. apply in_pass_parity in Hc.
        change (1 mod 2) with 1 in Hc. lia.
      * intros [Hc _]. fold N in Hc. lia.
  - intros j Hj Hn.
    destruct (F32.gtb existing upper_bound);
      bind_inv H; injection H as <- _ _;
      apply ScaleSide_spec in Ha; destruct Ha as (_ & _ & Hout);
      apply Hout; auto; intros Hc;
      pose proof (in_pass_parity _ _ _ Hc) as Hpar;
      destruct Hc as [Hc _]; fold N in Hc; apply Hn;
      (split; [exact Hpar | lia]).
Qed.

Lemma Apply_scan af pre s inp n s' :
  Apply af pre s inp n = Ok s' ->
  exists lp ppl ppr o1 pl sl pr sr,
    scan_peaks (S (length inp)) inp 0 (samples_of n) no_peak
               (peak_pos_left s) (peak_pos_right s) = Ok (lp, ppl, ppr) /\
    fresh_pos 0 (samples_of n) (left lp) ppl /\
    fresh_pos 1 (samples_of n) (right lp) ppr /\
    TriageSignal inp (out s) LEFT (left lp) ppl (left pre)
                 (left (peak s)) (left (tail s)) (left (limit_scale s))
    = Ok (o1, pl, sl) /\
    TriageSignal inp o1 RIGHT (right lp) ppr (right pre)
                 (right (peak s)) (right (tail s)) (right (limit_scale s))
    = Ok (out s', pr, sr).
Proof.
  intros H. apply Apply_Ok in H. destruct H as (s1 & s2 & _ & H1 & H2 & H3).
  apply SaveTailFrame_frame in H2. destruct H2 as (Ho2 & _).
  apply Release_frame in H3. destruct H3 as (Ho3 & _).
  rewrite Ho3, Ho2. clear Ho3 Ho2 s2 s'.
  unfold FindPeaks in H1. bind_inv H1. destruct a as [[lp ppl] ppr].
  bind_inv H1. destruct a as [[o1 pl] sl].
  bind_inv H1. destruct a as [[o2 pr] sr].
  injection H1 as <-. cbn [out].
  destruct (scan_peaks_fresh (S (length inp)) inp (samples_of n)
              (samples_of_even n) 0 no_peak (peak_pos_left s)
              (peak_pos_right s) lp ppl ppr) as [Hfl Hfr];
    [lia | reflexivity | exact I | exact I | left; reflexivity
    | left; reflexivity | exact Ha |].
  exists lp, ppl, ppr, o1, pl, sl, pr, sr. auto.
Qed.

(** X7: a new peak of the left channel (with none of the right).  The
    stored position [p] is that of the first largest sample, the tracked
    peak becomes the prescaled local peak less one release step, the
    scale factor becomes [upper_bound / local], and every left slot of
    the array is written: up to [p] with the ramp
    [tail + in[j] * (upper_bound - tail) / (local - tail)], after [p]
    with [in[j] * upper_bound / local]. *)
Theorem left_peak_is_scaled_in_two_segments af pre s inp n s' lp ppl ppr :
  Z.of_nat (length inp) = af * 2 ->
  Apply af pre s inp n = Ok s' ->
  scan_peaks (S (length inp)) inp 0 (samples_of n) no_peak
             (peak_pos_left s) (peak_pos_right s) = Ok (lp, ppl, ppr) ->
  let local := F32.mul (left lp) (left pre) in
  F32.gtb local (left (peak s)) = true ->
  F32.gtb local upper_bound = true ->
  F32.gtb (F32.mul (right lp) (right pre)) (right (peak s))
  && F32.gtb (F32.mul (right lp) (right pre)) upper_bound = false ->
  exists p x,
    ppl = Some p /\ 0 <= p < samples_of n /\ p mod 2 = 0 /\
    inp !! Z.to_nat p = Some x /\ left lp = F32.abs x /\
    left (peak s') = release_side local /\
    left (limit_scale s') = F32.div upper_bound local /\
    forall j, 0 <= j < af * 2 -> j mod 2 = 0 ->
      (j <= p ->
       written_as inp (out s') j
         (left (tail s), peak_mult (left (tail s)) local)) /\
      (p < j ->
       written_as inp (out s') j (F32.zero, F32.div upper_bound local)).
Proof.
  intros HN H Hs local E1 E2 Er.
  assert (HN2 : Z.of_nat (length inp) mod 2 = 0)
    by (rewrite HN; apply Z.mod_mul; lia).
  apply Apply_peak in H as Hpk.
  destruct Hpk as (lp1 & ppl1 & ppr1 & Hs1 & Hpk).
  rewrite Hs in Hs1. injection Hs1 as <- <- <-.
  destruct (Apply_scale _ _ _ _ _ _ _ _ _ H Hs) as (_ & _ & Hsc).
  apply scan_first_maximum in Hs as Hmax;
    [|apply samples_of_even].
  destruct Hmax as [[_ Hmax] _].
  apply Apply_scan in H.
  destruct H as (lp' & ppl' & ppr' & o1 & pl & sl & pr & sr & Hs' & Hfl & Hfr
                 & Hl & Hr).
  rewrite Hs in Hs'. injection Hs' as <- <- <-.
  destruct (TriageSignal_left_new_peak _ _ _ _ _ _ _ _ _ _ _ _ HN2 Hfl E1 E2
              Hl) as (p & -> & Hp & _ & _ & Hw).
  pose proof (TriageSignal_right_slots _ _ _ _ _ _ _ _ _ _ _ _ Hfr Hr) as Hk.
  cbv zeta in Hk. rewrite Er in Hk.
  destruct Hmax as [[Hz _]|(p' & x & [= <-] & _ & Hpp & Hx & Hlp & _)].
  { exfalso. unfold local in E2. rewrite Hz, mul_zero_not_above in E2.
    discriminate. }
  exists p, x. split; [reflexivity|]. split; [exact Hp|].
  split; [exact Hpp|]. split; [exact Hx|]. split; [exact Hlp|].
  split; [|split].
  - rewrite Hpk. cbn [left]. unfold triage_peak. fold local.
    rewrite E1, E2. reflexivity.
  - rewrite Hsc. cbn [left]. fold local. rewrite E1, E2. reflexivity.
  - intros j Hj Hpar. rewrite <- HN in Hj.
    destruct (Hw j Hj Hpar) as [Hw1 Hw2].
    split; intros Hc; (apply (written_as_keep inp o1);
      [apply Hk; [lia | lia] | auto]).
Qed.

Lemma left_peak_is_scaled_in_two_segments_witness :
  exists p x,
    Some 0 = Some p /\ 0 <= p < samples_of 4 /\ p mod 2 = 0 /\
    peak_block !! Z.to_nat p = Some x /\ fz 40000 = F32.abs x /\
    left (peak after_peak_block)
    = release_side (F32.mul (fz 40000) F32.one) /\
    left (limit_scale after_peak_block)
    = F32.div upper_bound (F32.mul (fz 40000) F32.one) /\
    forall j, 0 <= j < 4 * 2 -> j mod 2 = 0 ->
      (j <= p ->
       written_as peak_block (out after_peak_block) j
         (F32.zero, peak_mult F32.zero (F32.mul (fz 40000) F32.one))) /\
      (p < j ->
       written_as peak_block (out after_peak_block) j
         (F32.zero, F32.div upper_bound (F32.mul (fz 40000) F32.one))).
Proof.
  apply (left_peak_is_scaled_in_two_segments 4 unit_prescale
           (construct (zeros 8)) peak_block 4 after_peak_block
           (mkFrame (fz 40000) F32.zero) (Some 0) None).
  - reflexivity.
  - vm_compute. reflexivity.
  - vm_compute. reflexivity.
  - vm_compute. reflexivity.
  - vm_compute. reflexivity.
  - vm_compute. reflexivity.
Defined.

(** X8: a new peak of the right channel at position [p].  The right
    slots up to [p] are written with the ramp, but the second pass
    starts at [p + 3], a left slot: every right slot after [p] keeps
    what the buffer held before the call, and every left slot from
    [p + 3] to the last but one is written again, with the right
    channel's factor [upper_bound / local]. *)
Theorem right_peak_pass_runs_over_left_slots af pre s inp n s' lp ppl ppr :
  Z.of_nat (length inp) = af * 2 ->
  Apply af pre s inp n = Ok s' ->
  scan_peaks (S (length inp)) inp 0 (samples_of n) no_peak
             (peak_pos_left s) (peak_pos_right s) = Ok (lp, ppl, ppr) ->
  F32.gtb (F32.mul (right lp) (right pre)) (right (peak s)) = true ->
  F32.gtb (F32.mul (right lp) (right pre)) upper_bound = true ->
  exists p,
    ppr = Some p /\ 0 <= p < samples_of n /\ p mod 2 = 1 /\
    (forall j, 0 <= j <= p -> j mod 2 = 1 ->
       written_as inp (out s') j
         (right (tail s),
          peak_mult (right (tail s)) (F32.mul (right lp) (right pre)))) /\
    (forall j, p < j -> j mod 2 = 1 ->
       out s' !! Z.to_nat j = out s !! Z.to_nat j) /\
    (forall j, p + 3 <= j <= af * 2 - 3 -> j mod 2 = 0 ->
       written_as inp (out s') j
         (F32.zero, F32.div upper_bound (F32.mul (right lp) (right pre)))).
Proof.
  intros HN H Hs E1 E2. apply Apply_scan in H.
  destruct H as (lp' & ppl' & ppr' & o1 & pl & sl & pr & sr & Hs' & Hfl & Hfr
                 & Hl & Hr).
  rewrite Hs in Hs'. injection Hs' as <- <- <-.
  pose proof (TriageSignal_right_slots _ _ _ _ _ _ _ _ _ _ _ _ Hfr Hr) as Hw.
  cbv zeta in Hw. rewrite E1, E2, HN in Hw. cbn [andb] in Hw.
  destruct Hw as (p & -> & Hp & Hpp & Hramp & Hafter & Hleft & _).
  exists p. split; [reflexivity|]. split; [exact Hp|]. split; [exact Hpp|].
  split; [exact Hramp|]. split; [|exact Hleft].
  intros j Hj Hpar. rewrite Hafter by assumption.
  apply (TriageSignal_left_keeps_odd _ _ _ _ _ _ _ _ _ _ _ _ Hfl Hl); [lia|].
  exact Hpar.
Qed.

Lemma right_peak_pass_runs_over_left_slots_witness :
  exists p,
    Some 1 = Some p /\ 0 <= p < samples_of 4 /\ p mod 2 = 1 /\
    (forall j, 0 <= j <= p -> j mod 2 = 1 ->
       written_as right_peak_block (out after_right_peak_block) j
         (right (tail (construct (zeros 8))),
          peak_mult (right (tail (construct (zeros 8))))
                    (F32.mul (fz 40000) F32.one))) /\
    (forall j, p < j -> j mod 2 = 1 ->
       out after_right_peak_block !! Z.to_nat j
       = out (construct (zeros 8)) !! Z.to_nat j) /\
    (forall j, p + 3 <= j <= 4 * 2 - 3 -> j mod 2 = 0 ->
       written_as right_peak_block (out after_right_peak_block) j
         (F32.zero, F32.div upper_bound (F32.mul (fz 40000) F32.one))).
Proof.
  apply (right_peak_pass_runs_over_left_slots 4 unit_prescale
           (construct (zeros 8)) right_peak_block 4 after_right_peak_block
           (mkFrame (fz 40) (fz 40000)) (Some 6) (Some 1)).
  - reflexivity.
  - vm_compute. reflexivity.
  - vm_compute. reflexivity.
  - vm_compute. reflexivity.
  - vm_compute. reflexivity.
Defined.

(** X9: the last slot of the output array (the right channel's last) is
    written by a call only when the call takes in all the frames of the
    array and the right channel finds a new peak in its very last
    sample; in every other call that returns the slot keeps what it
    held. *)
Theorem last_right_slot_survives_a_call af pre s inp n s' :
  0 < af -> Z.of_nat (length inp) = af * 2 ->
  Apply af pre s inp n = Ok s' ->
  exists lp ppl ppr,
    scan_peaks (S (length inp)) inp 0 (samples_of n) no_peak
               (peak_pos_left s) (peak_pos_right s) = Ok (lp, ppl, ppr) /\
    (out s' !! Z.to_nat (af * 2 - 1) = out s !! Z.to_nat (af * 2 - 1) \/
     (ppr = Some (af * 2 - 1) /\ samples_of n = af * 2 /\
      F32.gtb (F32.mul (right lp) (right pre)) (right (peak s)) = true /\
      F32.gtb (F32.mul (right lp) (right pre)) upper_bound = true)).
Proof.
  intros Haf HN H. apply Apply_Ok in H as Hle. destruct Hle as (_ & _ & Hle & _).
  apply Apply_scan in H.
  destruct H as (lp & ppl & ppr & o1 & pl & sl & pr & sr & Hs & Hfl & Hfr
                 & Hl & Hr).
  exists lp, ppl, ppr. split; [exact Hs|].
  pose proof (TriageSignal_left_keeps_odd _ _ _ _ _ _ _ _ _ _ _ _ Hfl Hl
                (af * 2 - 1) ltac:(lia)) as Hkeep.
  assert (Hodd : (af * 2 - 1) mod 2 = 1).
  { replace (af * 2 - 1) with (1 + (af - 1) * 2) by lia.
    rewrite Z.mod_add by lia. reflexivity. }
  specialize (Hkeep Hodd).
  pose proof (TriageSignal_right_slots _ _ _ _ _ _ _ _ _ _ _ _ Hfr Hr) as Hw.
  cbv zeta in Hw. rewrite HN in Hw.
  destruct (F32.gtb (F32.mul (right lp) (right pre)) (right (peak s))) eqn:E1;
    destruct (F32.gtb (F32.mul (right lp) (right pre)) upper_bound) eqn:E2;
    cbn [andb] in Hw;
    try (left; rewrite Hw; [exact Hkeep | lia | lia]).
  destruct Hw as (p & -> & Hp & Hpp & _ & Hafter & _).
  destruct (Z.eq_dec p (af * 2 - 1)) as [->|Hne].
  - right. split; [reflexivity|]. split; [|auto].
    pose proof (samples_of_even n) as Hev.
    pose proof (Z.div_mod (samples_of n) 2 ltac:(lia)). lia.
  - left. rewrite Hafter; [exact Hkeep | lia | exact Hodd].
Qed.

Lemma last_right_slot_survives_a_call_witness :
  exists lp ppl ppr,
    scan_peaks (S (length quiet_block)) quiet_block 0 (samples_of 1) no_peak
               (peak_pos_left (construct [7; 7; 7; 7]))
               (peak_pos_right (construct [7; 7; 7; 7]))
    = Ok (lp, ppl, ppr) /\
    (out after_short_call_over_sevens !! Z.to_nat (2 * 2 - 1)
     = out (construct [7; 7; 7; 7]) !! Z.to_nat (2 * 2 - 1) \/
     (ppr = Some (2 * 2 - 1) /\ samples_of 1 = 2 * 2 /\
      F32.gtb (F32.mul (right lp) (right unit_prescale))
              (right (peak (construct [7; 7; 7; 7]))) = true /\
      F32.gtb (F32.mul (right lp) (right unit_prescale)) upper_bound = true)).
Proof.
  apply (last_right_slot_survives_a_call 2 unit_prescale
           (construct [7; 7; 7; 7]) quiet_block 1
           after_short_call_over_sevens).
  - lia.
  - reflexivity.
  - vm_compute. reflexivity.
Defined.

(** ** The saved tail *)

Lemma F32_round_integer (s : bool) (p : positive) :
  Zpos p < 2 ^ 24 ->
  binary_round F32.prec F32.emax s p 0
  = S754_finite s (Z.to_pos (Zpos p * 2 ^ (24 - Zdigits2 (Zpos p))))
                (Zdigits2 (Zpos p) - 24).
Proof.
  intros Hp. assert (Hb := Zdigits2_bounds (Zpos p) ltac:(lia)).
  assert (Hd := Zdigits2_pos (Zpos p) ltac:(lia)).
  assert (Hd24 : Zdigits2 (Zpos p) <= 24).
  { destruct (Z_le_gt_dec (Zdigits2 (Zpos p)) 24); [assumption|].
    assert (2 ^ 24 <= 2 ^ (Zdigits2 (Zpos p) - 1))
      by (apply Z.pow_le_mono_r; lia).
    lia. }
  assert (Hpow : 0 < 2 ^ (24 - Zdigits2 (Zpos p)))
    by (apply Z.pow_pos_nonneg; lia).
  replace (Zdigits2 (Zpos p) - 24) with (Zdigits2 (Zpos p) + 0 - F32.prec)
    by (unfold F32.prec; lia).
  apply binary_round_canonical;
    rewrite ?F32_emin; unfold F32.prec, F32.emax; try lia.
  intros _. rewrite Z2Pos.id by lia.
  replace (0 - (Zdigits2 (Z.pos p) + 0 - 24)) with (24 - Zdigits2 (Z.pos p))
    by lia.
  reflexivity.
Qed.

Lemma F32_trunc_round_integer (s : bool) (p : positive) :
  Zpos p < 2 ^ 24 ->
  F32.trunc (binary_round F32.prec F32.emax s p 0) = Some (cond_Zopp s (Zpos p)).
Proof.
  intros Hp. rewrite F32_round_integer by exact Hp.
  assert (Hb := Zdigits2_bounds (Zpos p) ltac:(lia)).
  assert (Hd := Zdigits2_pos (Zpos p) ltac:(lia)).
  set (d := Zdigits2 (Zpos p)) in *.
  assert (Hd24 : d <= 24).
  { destruct (Z_le_gt_dec d 24); [assumption|].
    assert (2 ^ 24 <= 2 ^ (d - 1)) by (apply Z.pow_le_mono_r; lia). lia. }
  assert (Hpow : 0 < 2 ^ (24 - d)) by (apply Z.pow_pos_nonneg; lia).
  cbn [F32.trunc]. rewrite Z2Pos.id by lia. f_equal. f_equal.
  destruct (0 <=? d - 24) eqn:E.
  - apply Z.leb_le in E. replace (d - 24) with 0 by lia.
    replace (24 - d) with 0 by lia. rewrite Z.shiftl_0_r. lia.
  - rewrite Z.shiftr_div_pow2 by lia.
    replace (- (d - 24)) with (24 - d) by lia.
    apply Z.div_mul. lia.
Qed.

(** An integer of fewer than 25 bits survives the conversion to [float]
    and back. *)
Lemma F32_trunc_of_Z (z : Z) :
  - 2 ^ 24 < z < 2 ^ 24 -> F32.trunc (F32.of_Z z) = Some z.
Proof.
  intros Hz. destruct z as [|p|p]; [reflexivity| |].
  - apply (F32_trunc_round_integer false). lia.
  - apply (F32_trunc_round_integer true). lia.
Qed.

Lemma cast_int16_of_Z (z : Z) :
  in_int16 z = true -> cast_int16 (F32.of_Z z) = Ok z.
Proof.
  intros Hz. unfold cast_int16. rewrite F32_trunc_of_Z, Hz; [reflexivity|].
  unfold in_int16, INT16_MIN, INT16_MAX in Hz.
  apply andb_prop in Hz. destruct Hz as [H1 H2].
  apply Z.leb_le in H1, H2. change (2 ^ 24) with 16777216. lia.
Qed.

Lemma cast_int16_Ok (x : float) (v : Z) :
  cast_int16 x = Ok v -> in_int16 v = true.
Proof.
  unfold cast_int16. destruct (F32.trunc x) as [z|]; [|discriminate].
  destruct (in_int16 z) eqn:E; [|discriminate]. intros [= <-]. exact E.
Qed.

Lemma ScaleSide_int16 fuel inp pa pm last : forall pos o opos o',
  Forall (fun z => in_int16 z = true) o ->
  ScaleSide fuel inp pos last o opos pa pm = Ok o' ->
  Forall (fun z => in_int16 z = true) o'.
Proof.
  induction fuel as [|fuel IH]; intros pos o opos o' Ho; simpl;
    destruct (pos <=? last); try discriminate;
    try (intros [= <-]; exact Ho).
  intros H. bind_inv H. bind_inv H. bind_inv H.
  apply write_Ok in Ha1. destruct Ha1 as [_ ->].
  apply IH in H; [exact H|].
  apply Forall_insert; [exact Ho|]. eapply cast_int16_Ok. exact Ha0.
Qed.

Lemma TriageSignal_int16 inp o side local pp pre existing add scale
    o' e' sc' :
  Forall (fun z => in_int16 z = true) o ->
  TriageSignal inp o side local pp pre existing add scale = Ok (o', e', sc') ->
  Forall (fun z => in_int16 z = true) o'.
Proof.
  intros Ho. unfold TriageSignal.
  destruct (F32.gtb (F32.mul local pre) existing
            && F32.gtb (F32.mul local pre) upper_bound).
  - destruct pp as [p|]; [|discriminate]. intros H.
    bind_inv H. bind_inv H. injection H as <- _ _.
    apply ScaleSide_int16 in Ha; [|exact Ho].
    apply ScaleSide_int16 in Ha0; assumption.
  - destruct (F32.gtb existing upper_bound); intros H; bind_inv H;
      injection H as <- _ _; apply ScaleSide_int16 in Ha; assumption.
Qed.

Lemma Apply_int16 af pre s inp n s' :
  Forall (fun z => in_int16 z = true) (out s) ->
  Apply af pre s inp n = Ok s' ->
  Forall (fun z => in_int16 z = true) (out s').
Proof.
  intros Ho H. apply Apply_Ok in H. destruct H as (s1 & s2 & _ & H1 & H2 & H3).
  apply SaveTailFrame_frame in H2. destruct H2 as (Ho2 & _).
  apply Release_frame in H3. destruct H3 as (Ho3 & _).
  rewrite Ho3, Ho2. clear Ho3 Ho2 s2 s'.
  unfold FindPeaks in H1. bind_inv H1. destruct a as [[lp ppl] ppr].
  bind_inv H1. destruct a as [[o1 pl] sl].
  bind_inv H1. destruct a as [[o2 pr] sr].
  injection H1 as <-. cbn [out].
  apply TriageSignal_int16 in Ha0; [|exact Ho].
  apply TriageSignal_int16 in Ha1; assumption.
Qed.

(** X10: over a buffer of [int16_t] values, a call with at least one
    frame leaves a buffer of [int16_t] values, and the tail it saves
    converts back to exactly the two samples of the last requested frame
    of the returned block: [static_cast<float>] of an [int16_t] loses
    nothing. *)
Theorem saved_tail_converts_back af pre s inp n s' :
  Forall (fun z => in_int16 z = true) (out s) ->
  0 < n < UINT16_MOD ->
  Apply af pre s inp n = Ok s' ->
  Forall (fun z => in_int16 z = true) (out s') /\
  exists l r,
    out s' !! Z.to_nat (2 * (n - 1)) = Some l /\
    out s' !! Z.to_nat (2 * (n - 1) + 1) = Some r /\
    cast_int16 (left (tail s')) = Ok l /\
    cast_int16 (right (tail s')) = Ok r.
Proof.
  intros Ho Hn H.
  pose proof (Apply_int16 _ _ _ _ _ _ Ho H) as Ho'.
  split; [exact Ho'|].
  destruct (Apply_tail_reads_last_slots af pre s inp n s' ltac:(lia) H)
    as [_ Ht].
  destruct (Ht ltac:(lia)) as (l & r & Hl & Hr & ->).
  exists l, r. split; [exact Hl|]. split; [exact Hr|].
  rewrite Forall_lookup in Ho'. cbn [left right].
  split; apply cast_int16_of_Z; eauto.
Qed.

Lemma saved_tail_converts_back_witness :
  Forall (fun z => in_int16 z = true) (out after_right_peak_block) /\
  exists l r,
    out after_right_peak_block !! Z.to_nat (2 * (4 - 1)) = Some l /\
    out after_right_peak_block !! Z.to_nat (2 * (4 - 1) + 1) = Some r /\
    cast_int16 (left (tail after_right_peak_block)) = Ok l /\
    cast_int16 (right (tail after_right_peak_block)) = Ok r.
Proof.
  apply (saved_tail_converts_back 4 unit_prescale (construct (zeros 8))
           right_peak_block 4 after_right_peak_block).
  - repeat constructor.
  - unfold UINT16_MOD. lia.
  - vm_compute. reflexivity.
Defined.

(** ** Rounding, bit by bit *)

Section Rounded.
Variables prec emax : Z.
Hypothesis Hprec : 0 < prec.

Lemma binary_round_aux_rounded s M E l :
  0 < M -> E <= fexp prec emax (Zdigits2 M + E) ->
  let e1 := fexp prec emax (Zdigits2 M + E) in
  let mrs := fst (shr (shr_record_of_loc M l) E (e1 - E)) in
  let m2 := round_nearest_even (shr_m mrs) (loc_of_shr_record mrs) in
  M / 2 ^ (e1 - E) <= m2 <= M / 2 ^ (e1 - E) + 1 /\
  M / 2 ^ (e1 - E) < 2 ^ prec /\
  binary_round_aux prec emax s M E l
  = if m2 =? 0 then S754_zero s
    else if m2 =? 2 ^ prec then
      if e1 + 1 <=? emax - prec
      then S754_finite s (Z.to_pos (2 ^ (prec - 1))) (e1 + 1)
      else S754_infinity s
    else
      if e1 <=? emax - prec then S754_finite s (Z.to_pos m2) e1
      else S754_infinity s.
Proof.
  intros HM Hn e1.
  assert (HD := Zdigits2_bounds M HM).
  assert (HDpos := Zdigits2_pos M HM).
  set (D := Zdigits2 M) in *.
  set (m1 := M / 2 ^ (e1 - E)).
  assert (Hmin : emin prec emax <= e1) by (unfold e1; rewrite fexp_spec; lia).
  assert (Hn1 : D - prec <= e1 - E) by (unfold e1; rewrite fexp_spec; lia).
  assert (Hn0 : 0 <= e1 - E) by (unfold e1; lia).
  assert (Hp2 : 0 < 2 ^ (e1 - E)) by (apply Z.pow_pos_nonneg; lia).
  assert (Hm1lo : 0 <= m1) by (apply Z.div_pos; lia).
  assert (Hm1hi : m1 < 2 ^ prec).
  { apply Z.div_lt_upper_bound; [exact Hp2|].
    rewrite <- Z.pow_add_r by lia.
    assert (2 ^ D <= 2 ^ (e1 - E + prec)) by (apply Z.pow_le_mono_r; lia).
    lia. }
  assert (Hnormal : emin prec emax < e1 -> 2 ^ (prec - 1) <= m1).
  { intros Hlt. assert (He : e1 - E = D - prec)
      by (unfold e1 in *; rewrite fexp_spec in *; lia).
    apply Z.div_le_lower_bound; [exact Hp2|].
    rewrite <- Z.pow_add_r by lia. rewrite He.
    replace (D - prec + (prec - 1)) with (D - 1) by lia. lia. }
  unfold binary_round_aux, shr_fexp. fold D. fold e1.
  destruct (shr_spec (shr_record_of_loc M l) E (e1 - E)) as [S1m S1e];
    [rewrite shr_record_of_loc_m; lia | exact Hn0 |].
  destruct (shr (shr_record_of_loc M l) E (e1 - E)) as [mrs' e'].
  cbn [fst snd] in S1m, S1e |- *.
  rewrite shr_record_of_loc_m in S1m. fold m1 in S1m.
  assert (He' : e' = e1) by lia. clear S1e. subst e'.
  pose proof (round_nearest_even_bounds (shr_m mrs') (loc_of_shr_record mrs'))
    as Hrnd.
  set (m2 := round_nearest_even (shr_m mrs') (loc_of_shr_record mrs')) in *.
  rewrite S1m in Hrnd.
  split; [exact Hrnd|]. split; [exact Hm1hi|].
  destruct (Z.eqb_spec m2 0) as [Hz|Hnz].
  - rewrite Hz. simpl Zdigits2. rewrite Z.add_0_l.
    rewrite shr_nonpos by (rewrite fexp_spec; lia).
    reflexivity.
  - assert (Hm2 : 0 < m2) by lia.
    assert (HD2 := Zdigits2_bounds m2 Hm2).
    destruct (Z.eqb_spec m2 (2 ^ prec)) as [Hcarry|Hnc].
    + assert (HD2e : Zdigits2 m2 = prec + 1).
      { apply Zdigits2_unique; [exact Hm2|].
        replace (prec + 1 - 1) with prec by lia. rewrite Hcarry.
        split; [lia|]. rewrite Z.pow_add_r by lia.
        assert (0 < 2 ^ prec) by (apply Z.pow_pos_nonneg; lia). lia. }
      rewrite HD2e.
      replace (fexp prec emax (prec + 1 + e1) - e1) with 1
        by (rewrite fexp_spec; lia).
      destruct (shr_spec (shr_record_of_loc m2 loc_Exact) e1 1) as [S2m S2e];
        [simpl; lia | lia |].
      destruct (shr (shr_record_of_loc m2 loc_Exact) e1 1) as [mrs'' e''].
      cbn [fst snd] in S2m, S2e. subst e''.
      assert (Hhalf : shr_m mrs'' = 2 ^ (prec - 1)).
      { rewrite S2m. cbn [shr_m shr_record_of_loc]. rewrite Hcarry.
        replace prec with (prec - 1 + 1) at 1 by lia.
        rewrite Z.pow_add_r by lia. apply Z.div_mul. lia. }
      rewrite Hhalf.
      assert (Hpp : 0 < 2 ^ (prec - 1)) by (apply Z.pow_pos_nonneg; lia).
      destruct (2 ^ (prec - 1)) as [|q|q] eqn:Hq; try lia.
      reflexivity.
    + assert (Hlt2 : m2 < 2 ^ prec) by lia.
      assert (HD2p : Zdigits2 m2 <= prec).
      { destruct (Z_le_gt_dec (Zdigits2 m2) prec); [assumption|].
        assert (2 ^ prec <= 2 ^ (Zdigits2 m2 - 1))
          by (apply Z.pow_le_mono_r; lia). lia. }
      assert (Hcanon : fexp prec emax (Zdigits2 m2 + e1) = e1).
      { rewrite fexp_spec.
        destruct (Z.eq_dec e1 (emin prec emax)) as [->|Hne]; [lia|].
        assert (Hlo : 2 ^ (prec - 1) <= m2)
          by (specialize (Hnormal ltac:(lia)); lia).
        assert (Zdigits2 m2 = prec) by (apply Zdigits2_unique; lia).
        lia. }
      rewrite Hcanon, Z.sub_diag. simpl shr.
      cbn [fst snd shr_m shr_record_of_loc].
      destruct m2 as [|q|q] eqn:Hq; try lia.
      reflexivity.
Qed.

Lemma binary_round_no_shift s (p : positive) (E : Z) :
  E <= fexp prec emax (Zdigits2 (Zpos p) + E) ->
  binary_round prec emax s p E
  = binary_round_aux prec emax s (Zpos p) E loc_Exact.
Proof.
  intros HE. unfold binary_round.
  change (Zpos (digits2_pos p)) with (Zdigits2 (Zpos p)).
  pose proof (shl_align_spec p E (fexp prec emax (Zdigits2 (Zpos p) + E)))
    as Hsh.
  destruct (shl_align p E _) as [mz ez].
  destruct Hsh as [(Hlt & _)|(_ & -> & ->)]; [lia | reflexivity].
Qed.
End Rounded.

Lemma shr_1_full (m : Z) (r s : bool) :
  0 <= m ->
  shr_1 (Build_shr_record m r s)
  = Build_shr_record (m / 2) (Z.odd m) (r || s).
Proof.
  intros Hm. destruct m as [|[p|p|]|p]; try lia; cbn [shr_1 Z.odd].
  - reflexivity.
  - f_equal. apply Z.div_unique with 1; lia.
  - f_equal. apply Z.div_unique with 0; lia.
  - reflexivity.
Qed.

Lemma shr_iter_full (M : Z) (k : nat) :
  0 <= M ->
  Nat.iter (S k) shr_1 (Build_shr_record M false false)
  = Build_shr_record (M / 2 ^ Z.of_nat (S k)) (Z.odd (M / 2 ^ Z.of_nat k))
                     (negb (M mod 2 ^ Z.of_nat k =? 0)).
Proof.
  intros HM. induction k as [|k IH].
  - cbn [Nat.iter]. rewrite shr_1_full by lia.
    change (2 ^ Z.of_nat 1) with 2. change (2 ^ Z.of_nat 0) with 1.
    rewrite Z.div_1_r, Z.mod_1_r. reflexivity.
  - rewrite Nat.iter_succ, IH.
    assert (Hp : 0 < 2 ^ Z.of_nat k) by (apply Z.pow_pos_nonneg; lia).
    assert (Hp1 : 2 ^ Z.of_nat (S k) = 2 ^ Z.of_nat k * 2)
      by (rewrite Nat2Z.inj_succ, Z.pow_succ_r by lia; lia).
    assert (Hp2 : 2 ^ Z.of_nat (S (S k)) = 2 ^ Z.of_nat (S k) * 2)
      by (rewrite (Nat2Z.inj_succ (S k)), Z.pow_succ_r by lia; lia).
    rewrite shr_1_full by (apply Z.div_pos; lia).
    f_equal.
    + rewrite Hp2, <- Z.div_div by lia. reflexivity.
    + rewrite Hp1, Z.rem_mul_r by lia.
      rewrite Zmod_odd.
      pose proof (Z.mod_pos_bound M (2 ^ Z.of_nat k) Hp) as Hb.
      destruct (Z.odd (M / 2 ^ Z.of_nat k)); cbn [orb].
      * symmetry. apply negb_true_iff, Z.eqb_neq. lia.
      * rewrite Z.mul_0_r, Z.add_0_r. reflexivity.
Qed.

Lemma shr_round_nearest (M E n : Z) :
  0 <= M -> 0 < n ->
  let mrs := fst (shr (shr_record_of_loc M loc_Exact) E n) in
  let q := M / 2 ^ n in
  let R := M mod 2 ^ n in
  let H := 2 ^ (n - 1) in
  round_nearest_even (shr_m mrs) (loc_of_shr_record mrs)
  = if R <? H then q
    else if R =? H then (if Z.even q then q else q + 1)
    else q + 1.
Proof.
  intros HM Hn. destruct n as [|p|p]; try lia.
  cbn [shr shr_record_of_loc fst]. rewrite iter_pos_nat.
  destruct (Pos.to_nat p) as [|k] eqn:Hk; [lia|].
  rewrite shr_iter_full by exact HM.
  assert (Hpk : Zpos p = Z.of_nat (S k)) by lia.
  rewrite Hpk. replace (Z.of_nat (S k) - 1) with (Z.of_nat k) by lia.
  cbv zeta.
  assert (Hp : 0 < 2 ^ Z.of_nat k) by (apply Z.pow_pos_nonneg; lia).
  assert (Hp1 : 2 ^ Z.of_nat (S k) = 2 ^ Z.of_nat k * 2)
    by (rewrite Nat2Z.inj_succ, Z.pow_succ_r by lia; lia).
  assert (HR : M mod 2 ^ Z.of_nat (S k)
               = M mod 2 ^ Z.of_nat k
                 + 2 ^ Z.of_nat k
                   * (if Z.odd (M / 2 ^ Z.of_nat k) then 1 else 0)).
  { rewrite Hp1, Z.rem_mul_r by lia. rewrite Zmod_odd. reflexivity. }
  pose proof (Z.mod_pos_bound M (2 ^ Z.of_nat k) Hp) as Hb.
  cbn [shr_m loc_of_shr_record shr_r shr_s].
  destruct (Z.odd (M / 2 ^ Z.of_nat k));
    destruct (Z.eqb_spec (M mod 2 ^ Z.of_nat k) 0) as [Ez|Ez];
    cbn [negb round_nearest_even];
    destruct (Z.ltb_spec (M mod 2 ^ Z.of_nat (S k)) (2 ^ Z.of_nat k));
    destruct (Z.eqb_spec (M mod 2 ^ Z.of_nat (S k)) (2 ^ Z.of_nat k));
    try lia; reflexivity.
Qed.

(** ** The release step *)

Lemma div_mod_sub_small (a S c : Z) :
  0 < c <= S ->
  (a * S - c) / S = a - 1 /\ (a * S - c) mod S = S - c.
Proof.
  intros Hc.
  assert (Heq : a * S - c = S * (a - 1) + (S - c)) by ring.
  split.
  - symmetry. apply (Z.div_unique_pos _ _ _ (S - c)); [lia | exact Heq].
  - symmetry. apply (Z.mod_unique_pos _ _ (a - 1)); [lia | exact Heq].
Qed.

Lemma div_sub_large (a S c : Z) :
  0 < S < c -> (a * S - c) / S <= a - 2.
Proof.
  intros Hc.
  assert ((a * S - c) / S < a - 1); [|lia].
  apply Z.div_lt_upper_bound; [lia|]. nia.
Qed.

Lemma release_sub_rounding (m : positive) (e : Z) :
  F32.valid (S754_finite false m e) = true ->
  F32.gtb (S754_finite false m e) upper_bound = true ->
  exists sh a,
    ((sh = e + 17 /\ a = Zpos m) \/ (sh = e + 16 /\ a = 2 * Zpos m)) /\
    7 <= sh /\ -9 <= e <= 104 /\ 8388608 <= Zpos m < 16777216 /\
    (e = -9 -> 16776704 < Zpos m) /\
    let P := a * 2 ^ sh - 11635575 in
    let q := P / 2 ^ sh in
    let R := P mod 2 ^ sh in
    let m2 := if R <? 2 ^ (sh - 1) then q
              else if R =? 2 ^ (sh - 1)
                   then (if Z.even q then q else q + 1)
                   else q + 1 in
    8388608 <= q < 16777216 /\
    F32.sub (S754_finite false m e) release_amplitude
    = if m2 =? 16777216 then S754_finite false 8388608 (sh - 17 + 1)
      else S754_finite false (Z.to_pos m2) (sh - 17).
Proof.
  intros Hv Hg. apply gtb_upper_bound_inv in Hg.
  destruct Hg as [Hg|(m0 & e0 & [= <- <-] & He)]; [discriminate|].
  unfold F32.valid in Hv. simpl in Hv.
  apply bounded_spec in Hv. rewrite F32_emin in Hv.
  change F32.prec with 24 in Hv. change F32.emax with 128 in Hv.
  assert (Hd : Zdigits2 (Zpos m) = 24) by lia.
  pose proof (Zdigits2_bounds (Zpos m) ltac:(lia)) as Hm. rewrite Hd in Hm.
  change (2 ^ (24 - 1)) with 8388608 in Hm. change (2 ^ 24) with 16777216 in Hm.
  rewrite release_amplitude_eq. unfold F32.sub, SFsub.
  rewrite Z.min_r by lia.
  pose proof (shl_align_spec m e (-17)) as Hsh.
  destruct (shl_align m e (-17)) as [ma ea].
  destruct Hsh as [(_ & Hma & _)|(Hc & _)]; [|lia].
  change (shl_align 11635575 (-17) (-17)) with (11635575%positive, -17).
  cbn [fst cond_Zopp].
  replace (e - -17) with (e + 17) in Hma by lia.
  assert (Hpow : 2 ^ 8 <= 2 ^ (e + 17)) by (apply Z.pow_le_mono_r; lia).
  change (2 ^ 8) with 256 in Hpow.
  assert (Hbig : 2 ^ 30 <= Zpos ma - 11635575).
  { rewrite Hma. change (2 ^ 30) with 1073741824. nia. }
  destruct (Zpos ma - 11635575) as [|p|p] eqn:HP;
    try (change (2 ^ 30) with 1073741824 in Hbig; lia).
  unfold binary_normalize.
  assert (HDb := Zdigits2_bounds (Zpos p) ltac:(lia)).
  set (D := Zdigits2 (Zpos p)) in *.
  assert (HDhi : D <= e + 41).
  { destruct (Z_le_gt_dec D (e + 41)); [assumption|].
    assert (2 ^ (e + 41) <= 2 ^ (D - 1)) by (apply Z.pow_le_mono_r; lia).
    replace (e + 41) with (24 + (e + 17)) in H by lia.
    rewrite Z.pow_add_r in H by lia. change (2 ^ 24) with 16777216 in H.
    nia. }
  assert (HDlo : e + 40 <= D).
  { destruct (Z_le_gt_dec (e + 40) D); [assumption|].
    assert (2 ^ D <= 2 ^ (e + 39)) by (apply Z.pow_le_mono_r; lia).
    replace (e + 39) with (22 + (e + 17)) in H by lia.
    rewrite Z.pow_add_r in H by lia. change (2 ^ 22) with 4194304 in H.
    nia. }
  assert (Hfexp : fexp F32.prec F32.emax (D + -17) = D - 41).
  { rewrite fexp_spec, F32_emin. unfold F32.prec. lia. }
  rewrite binary_round_no_shift by (fold D; rewrite Hfexp; lia).
  destruct (binary_round_aux_rounded F32.prec F32.emax ltac:(reflexivity)
              false (Zpos p) (-17) loc_Exact ltac:(lia)
              ltac:(fold D; rewrite Hfexp; lia)) as (Hb & Hhi & Heq).
  fold D in Hb, Hhi, Heq. rewrite Hfexp in Hb, Hhi, Heq.
  rewrite Heq. clear Heq.
  replace (D - 41 - -17) with (D - 24) in * by lia.
  rewrite shr_round_nearest in * by lia. cbv zeta in *.
  unfold F32.prec, F32.emax in *.
  change (2 ^ (24 - 1)) with 8388608. change (2 ^ 24) with 16777216 in *.
  change (Z.to_pos 8388608) with 8388608%positive.
  assert (Hps : 0 < 2 ^ (D - 24)) by (apply Z.pow_pos_nonneg; lia).
  assert (Hq : 8388608 <= Zpos p / 2 ^ (D - 24)).
  { apply Z.div_le_lower_bound; [lia|].
    replace (D - 1) with (D - 24 + 23) in HDb by lia.
    rewrite Z.pow_add_r in HDb by lia. change (2 ^ 23) with 8388608 in HDb.
    lia. }
  exists (D - 24).
  exists (Zpos m * 2 ^ (e + 17 - (D - 24))).
  assert (HPeq : Zpos p
                 = Zpos m * 2 ^ (e + 17 - (D - 24)) * 2 ^ (D - 24) - 11635575).
  { rewrite <- Z.mul_assoc, <- Z.pow_add_r by lia.
    replace (e + 17 - (D - 24) + (D - 24)) with (e + 17) by lia. lia. }
  rewrite <- HPeq.
  split.
  { destruct (Z.eq_dec D (e + 41)) as [HDe|HDe].
    - left. split; [lia|]. replace (e + 17 - (D - 24)) with 0 by lia.
      change (2 ^ 0) with 1. lia.
    - right. split; [lia|]. replace (e + 17 - (D - 24)) with 1 by lia.
      change (2 ^ 1) with 2. lia. }
  split; [lia|]. split; [lia|]. split; [lia|]. split; [lia|].
  split; [lia|].
  set (m2 := if Zpos p mod 2 ^ (D - 24) <? 2 ^ (D - 24 - 1) then _ else _)
    in *.
  destruct (Z.eqb_spec m2 0) as [Hz|Hz]; [lia|].
  destruct (Z.eqb_spec m2 16777216) as [Hc|Hc].
  - assert (HDe : D <> e + 41).
    { intros HDe.
      assert (Zpos p / 2 ^ (D - 24) < Zpos m); [|lia].
      apply Z.div_lt_upper_bound; [lia|].
      replace (D - 24) with (e + 17) by lia. lia. }
    replace (D - 41 + 1 <=? 128 - 24) with true
      by (symmetry; apply Z.leb_le; lia).
    f_equal. lia.
  - replace (D - 41 <=? 128 - 24) with true
      by (symmetry; apply Z.leb_le; lia).
    f_equal. lia.
Qed.

Lemma two_31_eq : F32.of_Z 2147483648 = S754_finite false 8388608 8.
Proof. reflexivity. Qed.

Lemma gtb_two_31_inv (x : float) :
  F32.gtb x (F32.of_Z 2147483648) = true ->
  x = S754_infinity false \/
  exists m e, x = S754_finite false m e /\
              (8 < e \/ (e = 8 /\ 8388608 < Zpos m)).
Proof.
  rewrite two_31_eq. unfold F32.gtb.
  destruct x as [s|[]| |[] m e]; try (cbn; discriminate); auto.
  intros H. apply SFltb_finite in H. right. exists m, e.
  split; [reflexivity | lia].
Qed.

Lemma pow2_split (sh : Z) : 0 < sh -> 2 ^ sh = 2 * 2 ^ (sh - 1).
Proof.
  intros H. replace sh with (Z.succ (sh - 1)) at 1 by lia.
  apply Z.pow_succ_r. lia.
Qed.

(** Beyond 2^31 the release amplitude is less than half a unit in the
    last place: the difference rounds back to the peak. *)
Lemma release_sub_stuck (m : positive) (e : Z) :
  F32.valid (S754_finite false m e) = true ->
  8 < e \/ (e = 8 /\ 8388608 < Zpos m) ->
  F32.sub (S754_finite false m e) release_amplitude = S754_finite false m e.
Proof.
  intros Hv He.
  assert (Hg : F32.gtb (S754_finite false m e) upper_bound = true).
  { rewrite upper_bound_eq. apply SFltb_finite. lia. }
  destruct (release_sub_rounding m e Hv Hg)
    as (sh & a & Hsa & Hsh & Her & Hm & _ & Hq & ->).
  cbv zeta in Hq |- *.
  assert (HS := pow2_split sh ltac:(lia)).
  assert (HH : 2 ^ 24 <= 2 ^ (sh - 1)).
  { apply Z.pow_le_mono_r; [lia|].
    destruct Hsa as [[-> _]|[-> Ha]]; [lia|].
    destruct He as [He|[-> Hm2]]; [lia|].
    exfalso. subst a. cbv zeta in Hq.
    change (2 ^ (8 + 16)) with 16777216 in Hq.
    destruct (div_mod_sub_small (2 * Zpos m) 16777216 11635575 ltac:(lia))
      as [Hd _].
    rewrite Hd in Hq. lia. }
  change (2 ^ 24) with 16777216 in HH.
  destruct (div_mod_sub_small a (2 ^ sh) 11635575 ltac:(lia)) as [Hd Hr].
  rewrite Hd, Hr in *.
  replace (2 ^ sh - 11635575 <? 2 ^ (sh - 1)) with false
    by (symmetry; apply Z.ltb_ge; lia).
  replace (2 ^ sh - 11635575 =? 2 ^ (sh - 1)) with false
    by (symmetry; apply Z.eqb_neq; lia).
  replace (a - 1 + 1) with a by lia.
  destruct Hsa as [[-> ->]|[-> ->]].
  - replace (Zpos m =? 16777216) with false
      by (symmetry; apply Z.eqb_neq; lia).
    replace (e + 17 - 17) with e by lia. reflexivity.
  - assert (Hm23 : m = 8388608%positive) by lia.
    subst m. replace (e + 16 - 17 + 1) with e by lia. reflexivity.
Qed.

(** Up to 2^31 the difference rounds to a smaller float. *)
Lemma release_sub_lowers (m : positive) (e : Z) :
  F32.valid (S754_finite false m e) = true ->
  F32.gtb (S754_finite false m e) upper_bound = true ->
  e < 8 \/ (e = 8 /\ Zpos m = 8388608) ->
  exists m' e',
    F32.sub (S754_finite false m e) release_amplitude
    = S754_finite false m' e' /\
    (e' < e \/ (e' = e /\ Zpos m' < Zpos m)).
Proof.
  intros Hv Hg He.
  destruct (release_sub_rounding m e Hv Hg)
    as (sh & a & Hsa & Hsh & Her & Hm & _ & Hq & ->).
  cbv zeta in Hq |- *.
  assert (HS := pow2_split sh ltac:(lia)).
  assert (Hp1 : 0 < 2 ^ (sh - 1)) by (apply Z.pow_pos_nonneg; lia).
  set (S := 2 ^ sh) in *. set (H := 2 ^ (sh - 1)) in *.
  set (P := a * S - 11635575) in *.
  assert (Hcase : (11635575 <= S /\ P / S = a - 1 /\ P mod S = S - 11635575)
                  \/ (S < 11635575 /\ P / S <= a - 2)).
  { destruct (Z_le_gt_dec 11635575 S) as [Hle|Hgt].
    - left. split; [exact Hle|]. apply div_mod_sub_small. lia.
    - right. split; [lia|]. apply div_sub_large. lia. }
  assert (Hsmall : 11635575 <= S -> sh <= 24 -> S = 16777216 /\ H = 8388608).
  { intros Hle H24.
    destruct (Z.eq_dec sh 24) as [->|Hne]; [split; reflexivity|].
    exfalso. assert (S <= 2 ^ 23) by (apply Z.pow_le_mono_r; lia).
    change (2 ^ 23) with 8388608 in *. lia. }
  set (m2 := if P mod S <? H then P / S
             else if P mod S =? H
                  then (if Z.even (P / S) then P / S else P / S + 1)
                  else P / S + 1).
  assert (Hm2 : P / S <= m2 <= P / S + 1).
  { unfold m2. destruct (P mod S <? H); [lia|].
    destruct (P mod S =? H); [|lia]. destruct (Z.even (P / S)); lia. }
  assert (Hdown : S = 16777216 -> H = 8388608 -> 11635575 <= S ->
                  m2 = a - 1).
  { intros HS1 HH1 Hle. destruct Hcase as [(_ & Hd & Hr)|[Hc _]]; [|lia].
    unfold m2. rewrite Hr, Hd, HS1, HH1. reflexivity. }
  destruct Hsa as [[Hsh1 Ha]|[Hsh1 Ha]].
  - (* no bit lost: the exponent stays, the mantissa falls *)
    assert (Hlt : m2 < Zpos m).
    { destruct Hcase as [(Hle & Hd & Hr)|[Hc Hd]]; [|lia].
      assert (sh <= 24).
      { destruct He as [He|[-> Hm23]]; [lia|]. exfalso. lia. }
      destruct (Hsmall Hle ltac:(lia)) as [HS1 HH1].
      rewrite (Hdown HS1 HH1 Hle). lia. }
    replace (m2 =? 16777216) with false by (symmetry; apply Z.eqb_neq; lia).
    exists (Z.to_pos m2), (sh - 17). split; [reflexivity|].
    right. split; [lia|]. rewrite Z2Pos.id by lia. exact Hlt.
  - (* one bit lost: the exponent falls unless the rounding carries *)
    destruct (Z.eqb_spec m2 16777216) as [Hc|Hc].
    + exists 8388608%positive, (sh - 17 + 1). split; [reflexivity|].
      right. split; [lia|].
      assert (Zpos m <> 8388608); [|lia].
      intros Hm23.
      destruct Hcase as [(Hle & Hd & Hr)|[Hlt Hd]]; [|lia].
      assert (sh <= 24) by lia.
      destruct (Hsmall Hle ltac:(lia)) as [HS1 HH1].
      rewrite (Hdown HS1 HH1 Hle) in Hc. lia.
    + exists (Z.to_pos m2), (sh - 17). split; [reflexivity|].
      left. lia.
Qed.

Lemma not_gtb_two_31 (m : positive) (e : Z) :
  F32.valid (S754_finite false m e) = true ->
  F32.gtb (S754_finite false m e) (F32.of_Z 2147483648) = false ->
  e < 8 \/ (e = 8 /\ Zpos m = 8388608).
Proof.
  intros Hv Hg. rewrite two_31_eq in Hg. apply SFltb_finite_false in Hg.
  unfold F32.valid in Hv. simpl in Hv.
  apply bounded_spec in Hv. rewrite F32_emin in Hv.
  change F32.prec with 24 in Hv. change F32.emax with 128 in Hv.
  destruct Hg as [Hg|[<- Hm]]; [left; exact Hg|].
  assert (Hd : Zdigits2 (Zpos m) = 24) by lia.
  pose proof (Zdigits2_bounds (Zpos m) ltac:(lia)) as Hb. rewrite Hd in Hb.
  change (2 ^ (24 - 1)) with 8388608 in Hb. right. split; [reflexivity|]. lia.
Qed.

(** X11: the release step never raises a tracked peak: for every
    binary32 value but a NaN, the peak after the step compares less than
    or equal to the peak before. *)
Theorem release_never_raises_a_peak (p : float) :
  F32.valid p = true -> p <> S754_nan ->
  F32.leb (release_side p) p = true.
Proof.
  intros Hv Hn. unfold release_side.
  destruct (F32.gtb p upper_bound) eqn:Hub; [|apply SFleb_refl; exact Hn].
  destruct (F32.gtb p (F32.of_Z 2147483648)) eqn:Hg.
  - apply gtb_two_31_inv in Hg.
    destruct Hg as [->|(m & e & -> & He)]; [reflexivity|].
    rewrite release_sub_stuck by assumption. apply SFleb_refl. discriminate.
  - apply gtb_upper_bound_inv in Hub as Hinv.
    destruct Hinv as [->|(m & e & -> & _)]; [discriminate|].
    pose proof (not_gtb_two_31 m e Hv Hg) as He.
    destruct (release_sub_lowers m e Hv Hub He) as (m' & e' & -> & Hlt).
    apply SFleb_finite. lia.
Qed.

Lemma release_never_raises_a_peak_witness :
  F32.leb (release_side (fz 40000)) (fz 40000) = true.
Proof.
  apply (release_never_raises_a_peak (fz 40000));
    [reflexivity | vm_compute; discriminate].
Defined.

(** X12: a tracked peak above the bound and not above 2^31 is strictly
    lowered by the release step. *)
Theorem release_lowers_a_peak_up_to_two_31 (p : float) :
  F32.valid p = true ->
  F32.gtb p upper_bound = true ->
  F32.gtb p (F32.of_Z 2147483648) = false ->
  F32.ltb (release_side p) p = true.
Proof.
  intros Hv Hub Hg. unfold release_side. rewrite Hub.
  apply gtb_upper_bound_inv in Hub as Hinv.
  destruct Hinv as [->|(m & e & -> & _)]; [discriminate|].
  pose proof (not_gtb_two_31 m e Hv Hg) as He.
  destruct (release_sub_lowers m e Hv Hub He) as (m' & e' & -> & Hlt).
  apply SFltb_finite. lia.
Qed.

Lemma release_lowers_a_peak_up_to_two_31_witness :
  F32.ltb (release_side (fz 40000)) (fz 40000) = true.
Proof.
  apply (release_lowers_a_peak_up_to_two_31 (fz 40000));
    vm_compute; reflexivity.
Defined.

Lemma release_reaches_the_bound_aux (n : nat) : forall p,
  F32.valid p = true ->
  F32.gtb p (F32.of_Z 2147483648) = false ->
  (match p with
   | S754_finite _ m e => Z.to_nat ((e + 150) * 16777216 + Zpos m)
   | _ => O
   end < n)%nat ->
  exists k, F32.gtb (Nat.iter k release_side p) upper_bound = false.
Proof.
  induction n as [|n IH]; intros p Hv Hg Hn; [lia|].
  destruct (F32.gtb p upper_bound) eqn:Hub; [|exists O; exact Hub].
  apply gtb_upper_bound_inv in Hub as Hinv.
  destruct Hinv as [->|(m & e & -> & _)]; [discriminate|].
  pose proof (not_gtb_two_31 m e Hv Hg) as He.
  destruct (release_sub_lowers m e Hv Hub He) as (m' & e' & Hs & Hlt).
  pose proof (release_above_one _ Hv Hub) as [Hv' _]. rewrite Hs in Hv'.
  assert (Hb : forall q f, F32.valid (S754_finite false q f) = true ->
                           -149 <= f /\ 0 < Zpos q < 16777216).
  { intros q f Hq. unfold F32.valid in Hq. simpl in Hq.
    apply bounded_spec in Hq. rewrite F32_emin in Hq.
    change F32.prec with 24 in Hq.
    pose proof (Zdigits2_bounds (Zpos q) ltac:(lia)) as [_ Hhi].
    assert (2 ^ Zdigits2 (Zpos q) <= 2 ^ 24)
      by (apply Z.pow_le_mono_r; lia).
    change (2 ^ 24) with 16777216 in *. lia. }
  destruct (Hb _ _ Hv) as [Hbe Hbm]. destruct (Hb _ _ Hv') as [Hbe' Hbm'].
  destruct (IH (S754_finite false m' e') Hv') as [k Hk].
  - rewrite two_31_eq. apply SFltb_finite_false. lia.
  - nia.
  - exists (S k). rewrite Nat.iter_succ_r. unfold release_side at 2.
    rewrite Hub, Hs. exact Hk.
Qed.

(** X13: the release completes: from a peak not above 2^31, finitely
    many release steps lead to a peak that is not above the bound. *)
Theorem release_reaches_the_bound (p : float) :
  F32.valid p = true ->
  F32.gtb p (F32.of_Z 2147483648) = false ->
  exists k, F32.gtb (Nat.iter k release_side p) upper_bound = false.
Proof.
  intros Hv Hg. eapply release_reaches_the_bound_aux; eauto.
Qed.

Lemma release_reaches_the_bound_witness :
  exists k, F32.gtb (Nat.iter k release_side (fz 40000)) upper_bound = false.
Proof.
  apply (release_reaches_the_bound (fz 40000)); vm_compute; reflexivity.
Defined.

(** X14: a tracked peak above 2^31 (the infinity included) is above the
    bound and is left exactly as it is by the release step: the
    subtraction of [upper_bound * 0.002709201f] rounds back to the peak,
    so the release of such a peak never ends. *)
Theorem release_is_stuck_beyond_two_31 (p : float) :
  F32.valid p = true ->
  F32.gtb p (F32.of_Z 2147483648) = true ->
  F32.gtb p upper_bound = true /\ release_side p = p.
Proof.
  intros Hv Hg. apply gtb_two_31_inv in Hg.
  destruct Hg as [->|(m & e & -> & He)]; [split; reflexivity|].
  assert (Hub : F32.gtb (S754_finite false m e) upper_bound = true).
  { rewrite upper_bound_eq. apply SFltb_finite. lia. }
  split; [exact Hub|].
  unfold release_side. rewrite Hub.
  apply release_sub_stuck; assumption.
Qed.

Lemma release_is_stuck_beyond_two_31_witness :
  F32.gtb (fz 4294967296) upper_bound = true /\
  release_side (fz 4294967296) = fz 4294967296.
Proof.
  apply (release_is_stuck_beyond_two_31 (fz 4294967296));
    vm_compute; reflexivity.
Defined.

Lemma leb_lowest_inv (x : float) :
  F32.leb lowest_released_peak x = true ->
  x = S754_infinity false \/
  exists m e, x = S754_finite false m e /\
              (-9 < e \/ (e = -9 /\ 16731254 <= Zpos m)).
Proof.
  unfold lowest_released_peak, F32.leb.
  destruct x as [s|[]| |[] m e]; try (cbn; discriminate); auto.
  intros H. apply SFleb_finite in H. right. exists m, e.
  split; [reflexivity | lia].
Qed.

Lemma release_stays_near_bound (p : float) :
  F32.valid p = true -> F32.gtb p upper_bound = true ->
  F32.leb lowest_released_peak (F32.sub p release_amplitude) = true.
Proof.
  intros Hv Hg. apply gtb_upper_bound_inv in Hg as Hinv.
  destruct Hinv as [->|(m & e & -> & _)]; [reflexivity|].
  destruct (release_sub_rounding m e Hv Hg)
    as (sh & a & Hsa & Hsh & Her & Hm & Hm9 & Hq & ->).
  cbv zeta in Hq |- *.
  set (P := a * 2 ^ sh - 11635575) in *.
  set (m2 := if P mod 2 ^ sh <? 2 ^ (sh - 1) then P / 2 ^ sh
             else if P mod 2 ^ sh =? 2 ^ (sh - 1)
                  then (if Z.even (P / 2 ^ sh) then P / 2 ^ sh
                        else P / 2 ^ sh + 1)
                  else P / 2 ^ sh + 1).
  assert (Hm2 : P / 2 ^ sh <= m2).
  { unfold m2. destruct (P mod 2 ^ sh <? 2 ^ (sh - 1)); [lia|].
    destruct (P mod 2 ^ sh =? 2 ^ (sh - 1)); [|lia].
    destruct (Z.even (P / 2 ^ sh)); lia. }
  assert (Hsh8 : 8 <= sh).
  { destruct (Z_le_gt_dec 8 sh) as [|Hlt]; [assumption|]. exfalso.
    assert (Hs7 : sh = 7) by lia.
    destruct Hsa as [[Hs _]|[Hs Ha]]; [lia|].
    assert (He9 : e = -9) by lia. specialize (Hm9 He9).
    unfold P in Hq. rewrite Hs7, Ha in Hq. change (2 ^ 7) with 128 in Hq.
    assert (16777216 <= (2 * Zpos m * 128 - 11635575) / 128); [|lia].
    apply Z.div_le_lower_bound; lia. }
  unfold lowest_released_peak, F32.leb.
  destruct (m2 =? 16777216); apply SFleb_finite; [left; lia|].
  destruct (Z.eq_dec sh 8) as [Hs8|Hs8]; [|left; lia].
  right. split; [lia|]. rewrite Z2Pos.id by lia.
  assert (Ha : 16776705 <= a).
  { destruct Hsa as [[Hs ->]|[Hs ->]]; [|lia].
    specialize (Hm9 ltac:(lia)). lia. }
  destruct (Z.eq_dec a 16776705) as [Ha5|Ha5].
  - unfold m2, P. rewrite Hs8, Ha5. vm_compute. discriminate.
  - assert (16731254 <= P / 2 ^ sh); [|lia].
    unfold P. rewrite Hs8. change (2 ^ 8) with 256.
    apply Z.div_le_lower_bound; lia.
Qed.

Lemma one_or_near_bound_release (p : float) :
  one_or_near_bound p -> one_or_near_bound (release_side p).
Proof.
  intros [->|[Hv Hl]]; [left; reflexivity|].
  unfold release_side. destruct (F32.gtb p upper_bound) eqn:Hg.
  - right. split.
    + apply release_above_one; assumption.
    + apply release_stays_near_bound; assumption.
  - right. split; assumption.
Qed.

Lemma one_or_near_bound_triage (local pre existing : float) :
  F32.valid local = true -> F32.valid pre = true ->
  one_or_near_bound existing ->
  one_or_near_bound (triage_peak local pre existing).
Proof.
  intros Hl Hp He. unfold triage_peak.
  destruct (F32.gtb (F32.mul local pre) existing
            && F32.gtb (F32.mul local pre) upper_bound) eqn:E;
    [|exact He].
  apply andb_prop in E. destruct E as [_ E]. right. split.
  - apply F32_mul_valid; assumption.
  - apply gtb_upper_bound_inv in E.
    destruct E as [->|(m & e & -> & He')]; [reflexivity|].
    unfold lowest_released_peak, F32.leb. apply SFleb_finite. lia.
Qed.

Lemma step_one_or_near_bound af s o s' :
  valid_operation o ->
  one_or_near_bound (left (peak s)) -> one_or_near_bound (right (peak s)) ->
  step af s o = Ok s' ->
  one_or_near_bound (left (peak s')) /\ one_or_near_bound (right (peak s')).
Proof.
  destruct o as [pre inp n| | |pre]; simpl; intros Hv Hl Hr H.
  - destruct Hv as [[Hpl Hpr] Hall].
    apply Apply_peak in H. destruct H as (lp & ppl & ppr & Hs & ->).
    apply (scan_peaks_valid _ _ _ Hall) in Hs; [|split; reflexivity].
    destruct Hs as [Hvl Hvr]. cbn [left right].
    split; apply one_or_near_bound_release, one_or_near_bound_triage;
      assumption.
  - injection H as <-. simpl. split; left; reflexivity.
  - injection H as <-. auto.
  - injection H as <-. auto.
Qed.

Lemma run_one_or_near_bound af ops : forall s s',
  Forall valid_operation ops ->
  one_or_near_bound (left (peak s)) -> one_or_near_bound (right (peak s)) ->
  run af s ops = Ok s' ->
  one_or_near_bound (left (peak s')) /\ one_or_near_bound (right (peak s')).
Proof.
  induction ops as [|o ops IH]; simpl; intros s s' Hv Hl Hr H.
  - injection H as <-. auto.
  - apply Forall_cons in Hv. destruct Hv as [Ho Hv].
    bind_inv H.
    destruct (step_one_or_near_bound _ _ _ _ Ho Hl Hr Ha) as [Hl' Hr'].
    eapply IH; eauto.
Qed.

Lemma peak_session_valid : Forall valid_operation peak_session.
Proof.
  repeat first [apply Forall_nil | apply Forall_cons; split
               | split | reflexivity | exact I].
Defined.

(** X15: after any sequence of operations on a constructed limiter (the
    samples and prescale values being binary32 values) each tracked
    peak is exactly 1, or at least 32678.23...: a peak is only ever
    raised above the bound, and a release step takes a peak above the
    bound no lower than that. *)
Theorem tracked_peak_is_one_or_near_the_bound af o0 ops s :
  Forall valid_operation ops ->
  run af (construct o0) ops = Ok s ->
  one_or_near_bound (left (peak s)) /\ one_or_near_bound (right (peak s)).
Proof.
  intros Hv H.
  apply (run_one_or_near_bound af ops (construct o0) s Hv); auto;
    left; reflexivity.
Qed.

Lemma tracked_peak_is_one_or_near_the_bound_witness :
  one_or_near_bound (left (peak after_peak_session)) /\
  one_or_near_bound (right (peak after_peak_session)).
Proof.
  apply (tracked_peak_is_one_or_near_the_bound 4 (zeros 8) peak_session
           after_peak_session).
  - exact peak_session_valid.
  - vm_compute. reflexivity.
Defined.

(** ** Members no later operation reads *)

Lemma scan_peaks_positions fuel inp pos_end : forall pos lp a1 b1 a2 b2,
  a1 = a2 \/ left lp = F32.zero -> b1 = b2 \/ right lp = F32.zero ->
  match scan_peaks fuel inp pos pos_end lp a1 b1,
        scan_peaks fuel inp pos pos_end lp a2 b2 with
  | Ok (lp1, x1, y1), Ok (lp2, x2, y2) =>
      lp1 = lp2 /\ (x1 = x2 \/ left lp1 = F32.zero) /\
      (y1 = y2 \/ right lp1 = F32.zero)
  | Fail f, Fail g => f = g
  | _, _ => False
  end.
Proof.
  induction fuel as [|fuel IH]; intros pos lp a1 b1 a2 b2 Ha Hb; simpl;
    destruct (pos <? pos_end); auto.
  destruct (read inp pos) as [x|f]; cbn [bind]; [|reflexivity].
  destruct (F32.gtb (F32.abs x) (left lp));
    (destruct (read inp (pos + 1)) as [y|f]; cbn [bind]; [|reflexivity]);
    (destruct (F32.gtb (F32.abs y) (right lp)));
    apply IH; cbn [left right]; auto.
Qed.

Lemma TriageSignal_positions inp o side local pp1 pp2 pre existing add
    sc1 sc2 :
  pp1 = pp2 \/ local = F32.zero ->
  match TriageSignal inp o side local pp1 pre existing add sc1,
        TriageSignal inp o side local pp2 pre existing add sc2 with
  | Ok (o1, e1, _), Ok (o2, e2, _) => o1 = o2 /\ e1 = e2
  | Fail f, Fail g => f = g
  | _, _ => False
  end.
Proof.
  intros Hpp. unfold TriageSignal.
  destruct (F32.gtb (F32.mul local pre) existing
            && F32.gtb (F32.mul local pre) upper_bound) eqn:Enew.
  - apply andb_prop in Enew. destruct Enew as [_ Eub].
    destruct Hpp as [<-| ->];
      [|rewrite mul_zero_not_above in Eub; discriminate].
    destruct pp1 as [p|]; [|reflexivity].
    destruct (ScaleSide _ inp side p o side add _) as [o1|f]; cbn [bind];
      [|reflexivity].
    destruct (ScaleSide _ inp _ _ o1 _ F32.zero _) as [o2|f]; cbn [bind];
      [split; reflexivity | reflexivity].
  - destruct (F32.gtb existing upper_bound);
      (destruct (ScaleSide _ inp _ _ o _ F32.zero _) as [o1|f]; cbn [bind];
       [split; reflexivity | reflexivity]).
Qed.

Lemma FindPeaks_live pre s1 s2 inp k :
  live s1 = live s2 ->
  live_of (FindPeaks pre s1 inp k) = live_of (FindPeaks pre s2 inp k).
Proof.
  unfold live. intros [= Ho Hp Ht Hl Hn]. unfold FindPeaks.
  pose proof (scan_peaks_positions (S (length inp)) inp k 0 no_peak
                (peak_pos_left s1) (peak_pos_right s1)
                (peak_pos_left s2) (peak_pos_right s2)
                (or_intror eq_refl) (or_intror eq_refl)) as Hs.
  destruct (scan_peaks _ inp 0 k no_peak (peak_pos_left s1) _)
    as [[[lp1 x1] y1]|f1];
    destruct (scan_peaks _ inp 0 k no_peak (peak_pos_left s2) _)
    as [[[lp2 x2] y2]|f2]; try contradiction; cbn [bind];
    [|subst; reflexivity].
  destruct Hs as (<- & Hx & Hy). rewrite Ho, Hp, Ht.
  pose proof (TriageSignal_positions inp (out s2) LEFT (left lp1) x1 x2
                (left pre) (left (peak s2)) (left (tail s2))
                (left (limit_scale s1)) (left (limit_scale s2)) Hx) as Hl1.
  destruct (TriageSignal inp (out s2) LEFT (left lp1) x1 _ _ _ _)
    as [[[o1 e1] c1]|f1];
    destruct (TriageSignal inp (out s2) LEFT (left lp1) x2 _ _ _ _)
    as [[[o2 e2] c2]|f2]; try contradiction; cbn [bind];
    [|subst; reflexivity].
  destruct Hl1 as [<- <-].
  pose proof (TriageSignal_positions inp o1 RIGHT (right lp1) y1 y2
                (right pre) (right (peak s2)) (right (tail s2))
                (right (limit_scale s1)) (right (limit_scale s2)) Hy) as Hr1.
  destruct (TriageSignal inp o1 RIGHT (right lp1) y1 _ _ _ _)
    as [[[o3 e3] c3]|f1];
    destruct (TriageSignal inp o1 RIGHT (right lp1) y2 _ _ _ _)
    as [[[o4 e4] c4]|f2]; try contradiction; cbn [bind];
    [|subst; reflexivity].
  destruct Hr1 as [<- <-]. unfold live_of, live. cbn. rewrite Hl, Hn. reflexivity.
Qed.

Lemma live_of_Ok r1 r2 :
  live_of r1 = live_of r2 ->
  match r1, r2 with
  | Ok a, Ok b => live a = live b
  | Fail f, Fail g => f = g
  | _, _ => False
  end.
Proof.
  destruct r1, r2; cbn; intros H; try discriminate; congruence.
Qed.

Lemma SaveTailFrame_live s1 s2 n :
  live s1 = live s2 ->
  live_of (SaveTailFrame s1 n) = live_of (SaveTailFrame s2 n).
Proof.
  unfold live. intros [= Ho Hp Ht Hl Hn]. unfold SaveTailFrame.
  destruct (n =? 0).
  - unfold live_of, live. cbn. congruence.
  - rewrite Ho. destruct (read (out s2) ((n - 1) * 2)) as [l|f]; cbn [bind];
      [|reflexivity].
    destruct (read (out s2) ((n - 1) * 2 + 1)) as [r|f]; cbn [bind];
      [|reflexivity].
    unfold live_of, live. cbn. congruence.
Qed.

Lemma Release_live s1 s2 :
  live s1 = live s2 -> live_of (Release s1) = live_of (Release s2).
Proof.
  unfold live. intros [= Ho Hp Ht Hl Hn]. unfold Release. rewrite Hl.
  destruct (limited_ms s2 =? INT_MAX); [reflexivity|].
  unfold live_of, live. cbn. congruence.
Qed.

Lemma Apply_live af pre s1 s2 inp n :
  live s1 = live s2 ->
  live_of (Apply af pre s1 inp n) = live_of (Apply af pre s2 inp n).
Proof.
  intros H. unfold Apply. destruct (samples_of n <=? af * 2); [|reflexivity].
  apply (FindPeaks_live pre _ _ inp (samples_of n)) in H.
  apply live_of_Ok in H.
  destruct (FindPeaks pre s1 inp (samples_of n)) as [a|f],
           (FindPeaks pre s2 inp (samples_of n)) as [b|g];
    try contradiction; cbn [bind]; [|subst; reflexivity].
  apply (SaveTailFrame_live _ _ n) in H. apply live_of_Ok in H.
  destruct (SaveTailFrame a n) as [a'|f], (SaveTailFrame b n) as [b'|g];
    try contradiction; cbn [bind]; [|subst; reflexivity].
  apply Release_live. exact H.
Qed.

Lemma step_live af s1 s2 o :
  live s1 = live s2 -> live_of (step af s1 o) = live_of (step af s2 o).
Proof.
  intros H. destruct o as [pre inp n| | |pre]; cbn [step].
  - apply Apply_live. exact H.
  - revert H. unfold live_of, live. cbn. congruence.
  - cbn. congruence.
  - cbn. congruence.
Qed.

Lemma run_live af ops : forall s1 s2,
  live s1 = live s2 ->
  live_of (run af s1 ops) = live_of (run af s2 ops).
Proof.
  induction ops as [|o ops IH]; intros s1 s2 H; cbn [run].
  - cbn. congruence.
  - apply (step_live af _ _ o) in H. apply live_of_Ok in H.
    destruct (step af s1 o) as [a|f], (step af s2 o) as [b|g];
      try contradiction; cbn [bind]; [|subst; reflexivity].
    apply IH. exact H.
Qed.

(** X16: [limit_scale] and the peak positions an earlier call left
    behind have no influence on what follows.  Two limiters that agree
    on the output buffer, the tracked peaks, the tail and the counters
    go through any sequence of operations with the same results (or the
    same fault), report the same peaks and log the same lines:
    [limit_scale] is only ever written, and a peak position is read
    only after the scan of the same call has set it. *)
Theorem stale_positions_and_scale_are_dead af ops s1 s2 :
  live s1 = live s2 ->
  live_of (run af s1 ops) = live_of (run af s2 ops) /\
  GetPeaks s1 = GetPeaks s2 /\
  (forall pre, PrintStats pre s1 = PrintStats pre s2).
Proof.
  intros H. split; [apply run_live; exact H|].
  unfold live in H. injection H as Ho Hp Ht Hl Hn. split.
  - unfold GetPeaks. exact Hp.
  - intros pre. unfold PrintStats. rewrite Hp, Hl, Hn. reflexivity.
Qed.

Lemma stale_positions_and_scale_are_dead_witness :
  live_of (run 4 after_right_peak_block peak_session)
  = live_of (run 4 (forget_positions_and_scale after_right_peak_block)
                 peak_session) /\
  GetPeaks after_right_peak_block
  = GetPeaks (forget_positions_and_scale after_right_peak_block) /\
  (forall pre,
     PrintStats pre after_right_peak_block
     = PrintStats pre (forget_positions_and_scale after_right_peak_block)).
Proof.
  apply (stale_positions_and_scale_are_dead 4 peak_session
           after_right_peak_block
           (forget_positions_and_scale after_right_peak_block)).
  reflexivity.
Defined.

(** X17: Reset keeps the output buffer and the tail and nothing else
    that matters: after a Reset the limiter goes through any sequence of
    operations as a newly constructed limiter over the same buffer
    would, once given the same tail. *)
Theorem Reset_keeps_buffer_and_tail af s ops :
  live_of (run af (Reset s) ops)
  = live_of (run af (set_tail (construct (out s)) (tail s)) ops).
Proof. apply run_live. reflexivity. Qed.

(** ** What PrintStats can print *)

Lemma F64_lit_0_2_eq :
  F64.lit_0_2 = S754_finite false 7205759403792794 (-55).
Proof. reflexivity. Qed.

Lemma Zdigits2_le_53 (t : Z) : 0 < t < 2 ^ 53 -> Zdigits2 t <= 53.
Proof.
  intros Ht. assert (Hb := Zdigits2_bounds t ltac:(lia)).
  destruct (Z_le_gt_dec (Zdigits2 t) 53); [assumption|].
  assert (2 ^ 53 <= 2 ^ (Zdigits2 t - 1)) by (apply Z.pow_le_mono_r; lia).
  lia.
Qed.

Lemma Zdigits2_mono (a b : Z) : 0 < a <= b -> Zdigits2 a <= Zdigits2 b.
Proof.
  intros Hab. assert (Ha := Zdigits2_bounds a ltac:(lia)).
  assert (Hb := Zdigits2_bounds b ltac:(lia)).
  destruct (Z_le_gt_dec (Zdigits2 a) (Zdigits2 b)); [assumption|].
  assert (2 ^ Zdigits2 b <= 2 ^ (Zdigits2 a - 1))
    by (apply Z.pow_le_mono_r; lia).
  lia.
Qed.

(** The share of limited time PrintStats computes from a counter
    [k >= 1] and no unlimited time, [k / (k + 1)], exceeds 0.2. *)
Lemma time_ratio_above_fifth (k : Z) :
  1 <= k < 2 ^ 52 ->
  F64.gtb (F64.div (F64.of_Z k) (F64.of_Z (k + 1))) F64.lit_0_2 = true.
Proof.
  intros Hk. change (2 ^ 52) with 4503599627370496 in Hk.
  assert (H53 : 2 ^ 53 = 9007199254740992) by reflexivity.
  rewrite F64_lit_0_2_eq, (F64_of_Z_pos k), (F64_of_Z_pos (k + 1))
    by (rewrite H53; lia).
  pose proof (Zdigits2_le_53 k ltac:(rewrite H53; lia)) as Hdk.
  pose proof (Zdigits2_le_53 (k + 1) ltac:(rewrite H53; lia)) as Hdk1.
  pose proof (Zdigits2_pos k ltac:(lia)) as Hpk.
  pose proof (Zdigits2_pos (k + 1) ltac:(lia)) as Hpk1.
  pose proof (Zdigits2_mono k (k + 1) ltac:(lia)) as Hmono.
  assert (Hd1 : Zdigits2 (k + 1) <= Zdigits2 k + 1).
  { assert (Ha := Zdigits2_bounds k ltac:(lia)).
    assert (Hb := Zdigits2_bounds (k + 1) ltac:(lia)).
    destruct (Z_le_gt_dec (Zdigits2 (k + 1)) (Zdigits2 k + 1)); [assumption|].
    assert (2 ^ (Zdigits2 k + 1) <= 2 ^ (Zdigits2 (k + 1) - 1))
      by (apply Z.pow_le_mono_r; lia).
    rewrite Z.pow_add_r in H by lia. lia. }
  set (dk := Zdigits2 k) in *. set (dk1 := Zdigits2 (k + 1)) in *.
  assert (Hpa : 0 < 2 ^ (53 - dk)) by (apply Z.pow_pos_nonneg; lia).
  assert (Hpb : 0 < 2 ^ (53 - dk1)) by (apply Z.pow_pos_nonneg; lia).
  set (mx := Z.to_pos (k * 2 ^ (53 - dk))).
  set (my := Z.to_pos ((k + 1) * 2 ^ (53 - dk1))).
  assert (Hmx : Zpos mx = k * 2 ^ (53 - dk)) by (apply Z2Pos.id; nia).
  assert (Hmy : Zpos my = (k + 1) * 2 ^ (53 - dk1)) by (apply Z2Pos.id; nia).
  assert (Hdx : Zdigits2 (Zpos mx) = 53).
  { rewrite Hmx, Zdigits2_shift by lia. fold dk. lia. }
  assert (Hdy : Zdigits2 (Zpos my) = 53).
  { rewrite Hmy, Zdigits2_shift by lia. fold dk1. lia. }
  assert (Hbx := Zdigits2_bounds (Zpos mx) ltac:(lia)). rewrite Hdx in Hbx.
  assert (Hby := Zdigits2_bounds (Zpos my) ltac:(lia)). rewrite Hdy in Hby.
  change (2 ^ (53 - 1)) with 4503599627370496 in Hbx, Hby.
  rewrite H53 in Hbx, Hby.
  unfold F64.div, SFdiv.
  rewrite F64_div_core by (try assumption; lia).
  cbn [xorb]. cbv beta iota zeta.
  set (q := Zpos mx * 2 ^ 53 / Zpos my).
  set (l := new_location (Zpos my) (Zpos mx * 2 ^ 53 mod Zpos my)).
  assert (Hq : 2 ^ 52 <= q).
  { unfold q. rewrite H53. change (2 ^ 52) with 4503599627370496.
    apply Z.div_le_lower_bound; [lia|]. nia. }
  assert (Hdq : 53 <= Zdigits2 q).
  { pose proof (Zdigits2_bounds q ltac:(lia)) as [Hlo Hhi].
    destruct (Z_le_gt_dec 53 (Zdigits2 q)); [assumption|].
    assert (2 ^ Zdigits2 q <= 2 ^ 52) by (apply Z.pow_le_mono_r; lia). lia. }
  set (E := dk - 53 - (dk1 - 53) - 53).
  assert (Hfexp : fexp F64.prec F64.emax (Zdigits2 q + E) = Zdigits2 q + E - 53).
  { rewrite fexp_spec, F64_emin. unfold F64.prec, E. lia. }
  destruct (binary_round_aux_spec F64.prec F64.emax ltac:(reflexivity)
              false q E l ltac:(lia) ltac:(rewrite Hfexp; lia))
    as (_ & Hnorm & Hcases).
  rewrite Hfexp in Hnorm, Hcases. rewrite F64_emin in Hnorm.
  set (r := binary_round_aux F64.prec F64.emax false q E l) in *.
  unfold F64.prec, F64.emax in Hnorm, Hcases.
  specialize (Hnorm ltac:(unfold E; lia)).
  change (2 ^ (53 - 1)) with 4503599627370496 in Hnorm.
  assert (Hq54 : Zdigits2 q <= 54).
  { pose proof (Zdigits2_bounds q ltac:(lia)) as [Hlo Hhi].
    destruct (Z_le_gt_dec (Zdigits2 q) 54); [assumption|].
    assert (2 ^ 54 <= 2 ^ (Zdigits2 q - 1))
      by (apply Z.pow_le_mono_r; lia).
    assert (q < 2 ^ 54); [|lia].
    unfold q. rewrite H53. change (2 ^ 54) with 18014398509481984.
    apply Z.div_lt_upper_bound; [lia|]. nia. }
  destruct Hcases as [[_ Hz]|[[_ Hinf]|(m & e & Hr & Hc)]];
    [lia | unfold E in Hinf; lia |].
  rewrite Hr. unfold F64.gtb. apply SFltb_finite. left.
  unfold E in Hc. destruct Hc as [[-> _]|(-> & _)]; lia.
Qed.

Lemma PrintStats_quieter_last pre s :
  non_limited_ms s = 0 -> 0 <= limited_ms s <= INT_MAX ->
  PrintStats pre s = [] \/
  exists lines pct ml mt mix,
    PrintStats pre s = lines ++ [LogQuieter pct ml mt mix].
Proof.
  intros Hn Hl. unfold INT_MAX in Hl.
  assert (H53 : 2 ^ 53 = 9007199254740992) by reflexivity.
  unfold PrintStats. rewrite Hn.
  rewrite (F64_add_of_Z (limited_ms s) 0) by (rewrite ?H53; lia).
  rewrite Z.add_0_r.
  rewrite minutes_below_half by (rewrite H53; lia).
  destruct (limited_ms s <? 30000) eqn:E; [left; reflexivity|].
  apply Z.ltb_ge in E.
  destruct (F32.ltb _ (F32.div upper_bound (F32.of_Z 20)));
    [left; reflexivity|].
  right.
  rewrite (F64_add_of_Z (limited_ms s) 1) by (rewrite ?H53; lia).
  rewrite time_ratio_above_fifth
    by (change (2 ^ 52) with 4503599627370496; lia).
  rewrite app_assoc. eauto 10.
Qed.

(** X18: since every call counts as limited time, PrintStats always
    advises a quieter mix when it prints at all: on a limiter reached
    from its construction, the log is empty or ends with the line that
    suggests a lower mixer value. *)
Theorem PrintStats_always_suggests_quieter af o0 ops s pre :
  run af (construct o0) ops = Ok s ->
  PrintStats pre s = [] \/
  exists lines pct ml mt mix,
    PrintStats pre s = lines ++ [LogQuieter pct ml mt mix].
Proof.
  intros H.
  destruct (run_counters_in_range af ops (construct o0) s) as [Hl Hn];
    [cbn; unfold INT_MAX; lia | reflexivity | exact H |].
  apply PrintStats_quieter_last; assumption.
Qed.

(** The two half minutes of calls lead to the states given for them, and
    their samples are binary32 values. *)
Lemma loud_half_minute_run :
  run 1 (construct (zeros 2)) loud_half_minute = Ok after_loud_half_minute.
Proof. vm_compute. reflexivity. Qed.

Lemma quiet_half_minute_run :
  run 1 (construct (zeros 2)) quiet_half_minute = Ok after_quiet_half_minute.
Proof. vm_compute. reflexivity. Qed.

Lemma quiet_frame_valid :
  valid_operation (OpApply unit_prescale quiet_frame 1).
Proof. repeat first [split | reflexivity | apply Forall_nil | apply Forall_cons]. Qed.

Lemma loud_half_minute_valid : Forall valid_operation loud_half_minute.
Proof.
  apply Forall_cons. split.
  - repeat first [split | reflexivity | apply Forall_nil | apply Forall_cons].
  - apply Forall_replicate. exact quiet_frame_valid.
Qed.

Lemma quiet_half_minute_valid : Forall valid_operation quiet_half_minute.
Proof. apply Forall_replicate. exact quiet_frame_valid. Qed.

Lemma PrintStats_always_suggests_quieter_witness :
  PrintStats unit_prescale after_loud_half_minute <> [] /\
  (PrintStats unit_prescale after_loud_half_minute = [] \/
   exists lines pct ml mt mix,
     PrintStats unit_prescale after_loud_half_minute
     = lines ++ [LogQuieter pct ml mt mix]).
Proof.
  split; [vm_compute; discriminate|].
  apply (PrintStats_always_suggests_quieter 1 (zeros 2) loud_half_minute
           after_loud_half_minute unit_prescale).
  exact loud_half_minute_run.
Defined.

Lemma five_percent_eq :
  F32.div upper_bound (F32.of_Z 20) = S754_finite false 13421363 (-13).
Proof. reflexivity. Qed.

Lemma near_bound_above_five_percent (p q : float) :
  one_or_near_bound p -> one_or_near_bound q ->
  F32.ltb (F32.max p q) (F32.div upper_bound (F32.of_Z 20))
  = true <-> p = F32.one /\ q = F32.one.
Proof.
  rewrite five_percent_eq.
  assert (Hbig : forall x, F32.leb lowest_released_peak x = true ->
            x <> F32.one /\ F32.ltb x F32.one = false /\
            F32.ltb F32.one x = true /\
            F32.ltb x (S754_finite false 13421363 (-13)) = false).
  { intros x Hx. apply leb_lowest_inv in Hx. rewrite one_eq.
    destruct Hx as [->|(m & e & -> & He)];
      [repeat split; try reflexivity; discriminate|].
    split; [intros [= -> ->]; lia|]. unfold F32.ltb.
    split; [apply SFltb_finite_false; lia|].
    split; [apply SFltb_finite; lia | apply SFltb_finite_false; lia]. }
  intros [->|[_ Hp]] [->|[_ Hq]].
  - split; [auto | reflexivity].
  - destruct (Hbig q Hq) as (Hne & _ & Hlt & Hfive).
    unfold F32.max. rewrite Hlt, Hfive. split; [discriminate|].
    intros [_ Hc]. contradiction.
  - destruct (Hbig p Hp) as (Hne & Hlt & _ & Hfive).
    unfold F32.max. rewrite Hlt, Hfive. split; [discriminate|].
    intros [Hc _]. contradiction.
  - destruct (Hbig p Hp) as (Hne & _ & _ & Hfp).
    destruct (Hbig q Hq) as (_ & _ & _ & Hfq).
    unfold F32.max. destruct (F32.ltb p q); rewrite ?Hfp, ?Hfq;
      (split; [discriminate|]); intros [Hc _]; contradiction.
Qed.

(** X19: PrintStats stays silent until a peak was tracked: on a limiter
    reached from its construction, nothing is logged exactly when fewer
    than 30000 calls were counted or both tracked peaks are still 1. *)
Theorem PrintStats_is_silent_until_a_peak af o0 ops s pre :
  Forall valid_operation ops ->
  run af (construct o0) ops = Ok s ->
  (PrintStats pre s = [] <->
   limited_ms s < 30000 \/ peak s = mkFrame F32.one F32.one).
Proof.
  intros Hv H.
  destruct (run_counters_in_range af ops (construct o0) s) as [Hl Hn];
    [cbn; unfold INT_MAX; lia | reflexivity | exact H |].
  destruct (run_one_or_near_bound af ops (construct o0) s Hv) as [Hpl Hpr];
    [left; reflexivity | left; reflexivity | exact H |].
  unfold INT_MAX in Hl.
  assert (H53 : 2 ^ 53 = 9007199254740992) by reflexivity.
  unfold PrintStats. rewrite Hn.
  rewrite (F64_add_of_Z (limited_ms s) 0) by (rewrite ?H53; lia).
  rewrite Z.add_0_r.
  rewrite minutes_below_half by (rewrite H53; lia).
  destruct (limited_ms s <? 30000) eqn:E.
  { apply Z.ltb_lt in E. split; auto. }
  apply Z.ltb_ge in E.
  pose proof (near_bound_above_five_percent _ _ Hpl Hpr) as Hfive.
  destruct (F32.ltb (F32.max (left (peak s)) (right (peak s)))
                    (F32.div upper_bound (F32.of_Z 20))) eqn:E5.
  - split; [|reflexivity]. intros _. right.
    destruct (proj1 Hfive eq_refl) as [Hl1 Hr1].
    destruct (peak s) as [l r]. cbn in Hl1, Hr1. subst. reflexivity.
  - split; [intros Hc; cbn in Hc; discriminate Hc|].
    intros [Hc|Hc]; [lia|]. exfalso.
    rewrite Hc in Hfive. cbn [left right] in Hfive.
    pose proof (proj2 Hfive (conj eq_refl eq_refl)) as Hx. discriminate Hx.
Qed.

Lemma PrintStats_is_silent_until_a_peak_witness :
  (limited_ms after_quiet_half_minute = 30000 /\
   (PrintStats unit_prescale after_quiet_half_minute = [] <->
    limited_ms after_quiet_half_minute < 30000 \/
    peak after_quiet_half_minute = mkFrame F32.one F32.one)) /\
  (limited_ms after_loud_half_minute = 30000 /\
   (PrintStats unit_prescale after_loud_half_minute = [] <->
    limited_ms after_loud_half_minute < 30000 \/
    peak after_loud_half_minute = mkFrame F32.one F32.one)).
Proof.
  split; (split; [reflexivity|]).
  - apply (PrintStats_is_silent_until_a_peak 1 (zeros 2) quiet_half_minute
             after_quiet_half_minute unit_prescale).
    + exact quiet_half_minute_valid.
    + exact quiet_half_minute_run.
  - apply (PrintStats_is_silent_until_a_peak 1 (zeros 2) loud_half_minute
             after_loud_half_minute unit_prescale).
    + exact loud_half_minute_valid.
    + exact loud_half_minute_run.
Defined.

Lemma F32_div_core (m1 m2 : positive) (e1 e2 : Z) :
  Zdigits2 (Zpos m1) = 24 -> Zdigits2 (Zpos m2) = 24 ->
  -149 <= e1 - e2 - 24 ->
  SFdiv_core_binary F32.prec F32.emax (Zpos m1) e1 (Zpos m2) e2
  = (Zpos m1 * 2 ^ 24 / Zpos m2, e1 - e2 - 24,
     new_location (Zpos m2) (Zpos m1 * 2 ^ 24 mod Zpos m2)).
Proof.
  intros H1 H2 He. unfold SFdiv_core_binary. rewrite H1, H2.
  replace (24 + e1 - (24 + e2)) with (e1 - e2) by lia.
  assert (Hf : fexp F32.prec F32.emax (e1 - e2) = e1 - e2 - 24).
  { rewrite fexp_spec, F32_emin. unfold F32.prec. lia. }
  rewrite Hf, Z.min_l by lia.
  replace (e1 - e2 - (e1 - e2 - 24)) with 24 by lia.
  rewrite Z.shiftl_mul_pow2 by lia.
  rewrite div_eucl_div_mod. reflexivity.
Qed.

Lemma valid_normal_digits (m : positive) (e : Z) :
  F32.valid (S754_finite false m e) = true -> -149 < e ->
  Zdigits2 (Zpos m) = 24 /\ 8388608 <= Zpos m < 16777216 /\ e <= 104.
Proof.
  intros Hv He. unfold F32.valid in Hv. simpl in Hv.
  apply bounded_spec in Hv. rewrite F32_emin in Hv.
  change F32.prec with 24 in Hv. change F32.emax with 128 in Hv.
  assert (Hd : Zdigits2 (Zpos m) = 24) by lia.
  pose proof (Zdigits2_bounds (Zpos m) ltac:(lia)) as Hb. rewrite Hd in Hb.
  change (2 ^ (24 - 1)) with 8388608 in Hb.
  change (2 ^ 24) with 16777216 in Hb. lia.
Qed.

(** The ratio of a tracked peak that is not 1 to the bound is at least
    0.9973. *)
Lemma peak_ratio_near_one (p : float) :
  F32.valid p = true -> F32.leb lowest_released_peak p = true ->
  F32.div p upper_bound = S754_infinity false \/
  exists m e,
    F32.div p upper_bound = S754_finite false m e /\
    F32.valid (S754_finite false m e) = true /\
    (-24 < e \/ (e = -24 /\ 16731764 <= Zpos m)).
Proof.
  intros Hv Hl. apply leb_lowest_inv in Hl.
  destruct Hl as [->|(m1 & e1 & -> & He)]; [left; reflexivity|].
  right.
  destruct (valid_normal_digits m1 e1 Hv ltac:(lia)) as (Hd1 & Hm1 & He1).
  rewrite upper_bound_eq. unfold F32.div, SFdiv.
  rewrite F32_div_core by (try reflexivity; try assumption; lia).
  cbn [xorb]. cbv beta iota zeta.
  set (mc := 16776704) in *.
  set (q := Zpos m1 * 2 ^ 24 / mc).
  set (l := new_location mc (Zpos m1 * 2 ^ 24 mod mc)).
  assert (Hq : 2 ^ 23 <= q < 2 ^ 25).
  { unfold q, mc. change (2 ^ 23) with 8388608.
    change (2 ^ 24) with 16777216. change (2 ^ 25) with 33554432. split.
    - apply Z.div_le_lower_bound; lia.
    - apply Z.div_lt_upper_bound; lia. }
  assert (Hdq : 24 <= Zdigits2 q <= 25).
  { pose proof (Zdigits2_bounds q ltac:(lia)) as [Hlo Hhi]. split.
    - destruct (Z_le_gt_dec 24 (Zdigits2 q)); [assumption|].
      assert (2 ^ Zdigits2 q <= 2 ^ 23) by (apply Z.pow_le_mono_r; lia). lia.
    - destruct (Z_le_gt_dec (Zdigits2 q) 25); [assumption|].
      assert (2 ^ 25 <= 2 ^ (Zdigits2 q - 1))
        by (apply Z.pow_le_mono_r; lia). lia. }
  assert (Hfexp : fexp F32.prec F32.emax (Zdigits2 q + (e1 - -9 - 24))
                  = Zdigits2 q + e1 - 39).
  { rewrite fexp_spec, F32_emin. unfold F32.prec. lia. }
  destruct (binary_round_aux_spec F32.prec F32.emax ltac:(reflexivity)
              false q (e1 - -9 - 24) l ltac:(lia)
              ltac:(rewrite Hfexp; lia)) as (Hval & Hnorm & Hcases).
  rewrite Hfexp in Hnorm, Hcases. rewrite F32_emin in Hnorm.
  set (r := binary_round_aux F32.prec F32.emax false q (e1 - -9 - 24) l) in *.
  unfold F32.prec, F32.emax in Hnorm, Hcases.
  specialize (Hnorm ltac:(lia)).
  replace (Zdigits2 q + e1 - 39 - (e1 - -9 - 24)) with (Zdigits2 q - 24)
    in Hnorm, Hcases by lia.
  change (2 ^ (24 - 1)) with 8388608 in Hnorm, Hcases.
  change (2 ^ 24) with 16777216 in Hcases.
  destruct Hcases as [[_ Hz]|[[_ Hinf]|(m & e & Hr & Hc)]]; try lia.
  exists m, e. split; [exact Hr|]. split; [rewrite <- Hr; exact Hval|].
  destruct (Z_lt_le_dec (-9) e1) as [Hbig|Hsmall].
  - left. destruct Hc as [[-> _]|(-> & _)]; lia.
  - assert (He9 : e1 = -9) by lia. destruct He as [He|[_ Hm]]; [lia|].
    assert (Hq2 : 16731764 <= q).
    { unfold q, mc. change (2 ^ 24) with 16777216.
      apply Z.div_le_lower_bound; lia. }
    destruct (Z.eq_dec (Zdigits2 q) 24) as [E24|E24].
    + rewrite E24 in Hc. change (2 ^ (24 - 24)) with 1 in Hc.
      rewrite Z.div_1_r in Hc.
      destruct Hc as [[-> Hm']|(-> & _)]; [right; split; lia | left; lia].
    + left. destruct Hc as [[-> _]|(-> & _)]; lia.
Qed.

Lemma F32_div_one (m : positive) (e : Z) :
  F32.valid (S754_finite false m e) = true -> -149 < e ->
  F32.div (S754_finite false m e) F32.one = S754_finite false m e.
Proof.
  intros Hv He.
  destruct (valid_normal_digits m e Hv He) as (Hd & Hm & He').
  rewrite one_eq. unfold F32.div, SFdiv.
  rewrite F32_div_core by (try reflexivity; try assumption; lia).
  cbn [xorb]. cbv beta iota zeta.
  change (2 ^ 24) with (2 * 8388608).
  rewrite Z.mul_assoc, Z.div_mul, Z.mod_mul by lia.
  change (new_location 8388608 0) with loc_Exact.
  replace (e - -23 - 24) with (e - 1) by lia.
  replace (S754_finite false m e) with (S754_finite false m (e - 1 + 1))
    by (f_equal; lia).
  apply binary_round_aux_exact_shift; [lia | lia |].
  replace (e - 1 + 1) with e by lia. exact Hv.
Qed.

Lemma well_below_3db_eq :
  F64.to_float F64.lit_0_6 = S754_finite false 10066330 (-24).
Proof. reflexivity. Qed.

Lemma capped_ratio_not_below_3db (p : float) :
  F32.valid p = true -> F32.leb lowest_released_peak p = true ->
  F32.ltb (F32.div (F32.min (F32.div p upper_bound) F32.one) F32.one)
          (F64.to_float F64.lit_0_6) = false.
Proof.
  intros Hv Hl. rewrite well_below_3db_eq. unfold F32.min.
  destruct (F32.ltb F32.one (F32.div p upper_bound)) eqn:E; [reflexivity|].
  destruct (peak_ratio_near_one p Hv Hl) as [Hr|(m & e & Hr & Hvr & He)];
    rewrite Hr in E |- *; [discriminate|].
  rewrite F32_div_one by (try assumption; lia).
  unfold F32.ltb. apply SFltb_finite_false. lia.
Qed.

(** X20: with a prescale whose larger member is 1, PrintStats never
    suggests a louder mix: a tracked peak that is not 1 is at least
    0.9973 of the bound, so the capped peak ratio is never below 0.6. *)
Theorem PrintStats_never_suggests_louder_at_unit_prescale
    af o0 ops s pre :
  Forall valid_operation ops ->
  run af (construct o0) ops = Ok s ->
  F32.max (left pre) (right pre) = F32.one ->
  forall mix, LogLouder mix ∉ PrintStats pre s.
Proof.
  intros Hv H Hpre mix.
  destruct (run_one_or_near_bound af ops (construct o0) s Hv) as [Hpl Hpr];
    [left; reflexivity | left; reflexivity | exact H |].
  unfold PrintStats. rewrite Hpre.
  destruct (F64.ltb _ F64.half); [apply not_elem_of_nil|].
  pose proof (near_bound_above_five_percent _ _ Hpl Hpr) as Hfive.
  destruct (F32.ltb (F32.max (left (peak s)) (right (peak s)))
                    (F32.div upper_bound (F32.of_Z 20))) eqn:E5;
    [apply not_elem_of_nil|].
  assert (Hmax : F32.valid (F32.max (left (peak s)) (right (peak s))) = true
                 /\ F32.leb lowest_released_peak
                      (F32.max (left (peak s)) (right (peak s))) = true).
  { assert (Hor : one_or_near_bound
                    (F32.max (left (peak s)) (right (peak s)))).
    { unfold F32.max.
      destruct (F32.ltb (left (peak s)) (right (peak s))); assumption. }
    destruct Hor as [Hone|Hnear]; [|exact Hnear].
    rewrite Hone in E5. discriminate E5. }
  destruct Hmax as [Hvm Hlm].
  rewrite (capped_ratio_not_below_3db _ Hvm Hlm).
  cbn [app]. intros Hin.
  apply elem_of_cons in Hin. destruct Hin as [Hin|Hin]; [discriminate|].
  destruct (F64.gtb _ F64.lit_0_2).
  - apply elem_of_cons in Hin. destruct Hin as [Hin|Hin]; [discriminate|].
    apply elem_of_nil in Hin. exact Hin.
  - apply elem_of_nil in Hin. exact Hin.
Qed.

Lemma PrintStats_never_suggests_louder_at_unit_prescale_witness :
  PrintStats unit_prescale after_loud_half_minute = loud_half_minute_log /\
  length loud_half_minute_log = 2%nat /\
  LogLouder (F64.of_Z 100)
  ∉ PrintStats unit_prescale after_loud_half_minute.
Proof.
  split; [vm_compute; reflexivity|]. split; [reflexivity|].
  apply (PrintStats_never_suggests_louder_at_unit_prescale 1 (zeros 2)
           loud_half_minute after_loud_half_minute unit_prescale).
  - exact loud_half_minute_valid.
  - exact loud_half_minute_run.
  - reflexivity.
Defined.

(** ** Calls that find no new peak *)

Section Upper.
Variables prec emax : Z.
Hypothesis Hprec : 0 < prec.

(** A rounded result is at most [1 + 2^(1-prec)] times the number that
    was rounded (normal range), and a subnormal result has one of the
    two least exponents. *)
Lemma binary_round_aux_upper s M E l :
  0 < M -> E <= fexp prec emax (Zdigits2 M + E) ->
  let e1 := fexp prec emax (Zdigits2 M + E) in
  let r := binary_round_aux prec emax s M E l in
  (r = S754_zero s /\ e1 = emin prec emax) \/
  (r = S754_infinity s /\ emax - prec <= e1) \/
  exists m e,
    r = S754_finite s m e /\ E <= e <= e1 + 1 /\
    valid_binary prec emax r = true /\
    ((emin prec emax < e1 /\
      Zpos m * 2 ^ (e - E) * 2 ^ (prec - 1) <= M * (2 ^ (prec - 1) + 1)) \/
     (e1 = emin prec emax /\ e <= emin prec emax + 1)).
Proof.
  intros HM HE e1 r.
  destruct (binary_round_aux_spec prec emax Hprec s M E l HM HE)
    as (Hv & Hnorm & Hcases).
  fold e1 in Hnorm, Hcases. fold r in Hv, Hcases.
  assert (Hmin : emin prec emax <= e1) by (unfold e1; rewrite fexp_spec; lia).
  assert (Hsh : 0 <= e1 - E) by lia.
  assert (Hp2 : 0 < 2 ^ (e1 - E)) by (apply Z.pow_pos_nonneg; lia).
  assert (Hpp : 0 < 2 ^ (prec - 1)) by (apply Z.pow_pos_nonneg; lia).
  pose proof (Z.mul_div_le M (2 ^ (e1 - E)) Hp2) as Hfloor.
  set (m1 := M / 2 ^ (e1 - E)) in *.
  destruct Hcases as [[Hr Hz]|[[Hr Hinf]|(m & e & Hr & Hc)]].
  - left. split; [exact Hr|].
    destruct (Z.eq_dec e1 (emin prec emax)) as [Heq|Hne]; [exact Heq|].
    specialize (Hnorm ltac:(lia)). lia.
  - right; left. split; [exact Hr | exact Hinf].
  - right; right. exists m, e. split; [exact Hr|].
    split; [destruct Hc as [[-> _]|(-> & _)]; lia|].
    split; [exact Hv|].
    destruct (Z.eq_dec e1 (emin prec emax)) as [Heq|Hne].
    + right. split; [exact Heq|]. destruct Hc as [[-> _]|(-> & _)]; lia.
    + left. split; [lia|]. specialize (Hnorm ltac:(lia)).
      destruct Hc as [[-> Hm]|(-> & Hm1 & Hm)].
      * assert (Zpos m * 2 ^ (e1 - E) <= M + 2 ^ (e1 - E)) by nia.
        assert (2 ^ (e1 - E) * 2 ^ (prec - 1) <= M) by nia.
        nia.
      * replace (e1 + 1 - E) with (Z.succ (e1 - E)) by lia.
        rewrite Z.pow_succ_r by lia. rewrite Hm.
        assert (H2p : 2 ^ prec = 2 * 2 ^ (prec - 1)).
        { replace prec with (Z.succ (prec - 1)) at 1 by lia.
          apply Z.pow_succ_r. lia. }
        assert ((m1 + 1) * 2 ^ (e1 - E) <= M + 2 ^ (e1 - E)) by nia.
        assert (2 ^ (e1 - E) * 2 ^ (prec - 1) <= M) by nia.
        nia.
Qed.
End Upper.

(** The factor [upper_bound / p] of a finite peak [p] above the bound,
    with the error of its rounding: at most [1 + 2^-23] times the exact
    quotient. *)
Lemma bound_over_peak (mp : positive) (ep : Z) :
  F32.valid (S754_finite false mp ep) = true ->
  F32.gtb (S754_finite false mp ep) upper_bound = true ->
  exists ms es,
    F32.div upper_bound (S754_finite false mp ep) = S754_finite false ms es /\
    F32.valid (S754_finite false ms es) = true /\
    -33 - ep <= es <= -31 - ep /\
    Zpos ms * 2 ^ (es + 33 + ep) * 8388608 * Zpos mp
    <= 281466386776064 * 8388609.
Proof.
  intros Hv Hg. rewrite upper_bound_eq in Hg. unfold F32.gtb in Hg.
  apply SFltb_finite in Hg.
  destruct (valid_normal_digits mp ep Hv ltac:(lia)) as (Hd & Hm & He).
  rewrite upper_bound_eq. unfold F32.div, SFdiv.
  rewrite F32_div_core by (try reflexivity; try assumption; lia).
  cbn [xorb]. cbv beta iota zeta.
  set (q := 16776704 * 2 ^ 24 / Zpos mp).
  set (l := new_location (Zpos mp) (16776704 * 2 ^ 24 mod Zpos mp)).
  assert (Hq : 2 ^ 23 <= q < 2 ^ 25).
  { unfold q. change (2 ^ 23) with 8388608.
    change (2 ^ 24) with 16777216. change (2 ^ 25) with 33554432. split.
    - apply Z.div_le_lower_bound; lia.
    - apply Z.div_lt_upper_bound; lia. }
  assert (Hqm : q * Zpos mp <= 281466386776064).
  { unfold q. change (2 ^ 24) with 16777216.
    pose proof (Z.mul_div_le (16776704 * 16777216) (Zpos mp) ltac:(lia)).
    lia. }
  assert (HD : 24 <= Zdigits2 q <= 25).
  { pose proof (Zdigits2_bounds q ltac:(lia)) as Hb.
    pose proof (Zdigits2_pos q ltac:(lia)) as Hp.
    split.
    - destruct (Z_le_gt_dec 24 (Zdigits2 q)); [assumption|].
      assert (2 ^ Zdigits2 q <= 2 ^ 23) by (apply Z.pow_le_mono_r; lia). lia.
    - destruct (Z_le_gt_dec (Zdigits2 q) 25); [assumption|].
      assert (2 ^ 25 <= 2 ^ (Zdigits2 q - 1))
        by (apply Z.pow_le_mono_r; lia).
      lia. }
  assert (Hf : fexp F32.prec F32.emax (Zdigits2 q + (-9 - ep - 24))
               = Zdigits2 q + (-9 - ep - 24) - 24).
  { rewrite fexp_spec, F32_emin. unfold F32.prec. lia. }
  destruct (binary_round_aux_upper F32.prec F32.emax ltac:(reflexivity)
              false q (-9 - ep - 24) l ltac:(lia) ltac:(rewrite Hf; lia))
    as [[_ Hz]|[[_ Hi]|(ms & es & Hr & Hes & Hvs & Hb)]].
  - rewrite Hf, F32_emin in Hz. lia.
  - rewrite Hf in Hi. unfold F32.emax, F32.prec in Hi. lia.
  - exists ms, es. split; [exact Hr|].
    split; [rewrite Hr in Hvs; exact Hvs|].
    rewrite Hf in Hes. split; [lia|].
    destruct Hb as [[_ Hb]|[Hb _]];
      [|rewrite Hf, F32_emin in Hb; lia].
    replace (es + 33 + ep) with (es - (-9 - ep - 24)) by lia.
    change (2 ^ (F32.prec - 1)) with 8388608 in Hb.
    assert (0 < 2 ^ (es - (-9 - ep - 24))) by (apply Z.pow_pos_nonneg; lia).
    nia.
Qed.

Lemma bounded_product (A G X mx ms mp : Z) :
  0 <= A -> 0 < G -> 0 < X -> 0 < mx -> 0 < ms -> 0 < mp ->
  A * 8388608 <= mx * ms * 8388609 ->
  ms * G * 8388608 * mp <= 281466386776064 * 8388609 ->
  mx <= mp * X ->
  A * G < X * 281474976710656.
Proof.
  intros HA HG HX Hmx Hms Hmp H1 H2 H3.
  assert (S1 : (A * 8388608) * (G * 8388608 * mp)
               <= (mx * ms * 8388609) * (G * 8388608 * mp))
    by (apply Z.mul_le_mono_nonneg_r; nia).
  assert (S2 : mx * 8388609 * (ms * G * 8388608 * mp)
               <= mx * 8388609 * (281466386776064 * 8388609))
    by (apply Z.mul_le_mono_nonneg_l; nia).
  assert (S3 : mx * (8388609 * (281466386776064 * 8388609))
               <= (mp * X) * (8388609 * (281466386776064 * 8388609)))
    by (apply Z.mul_le_mono_nonneg_r; lia).
  assert (S4 : (A * G * 8388608 * 8388608) * mp
               <= (X * (8388609 * (281466386776064 * 8388609))) * mp)
    by lia.
  apply Z.mul_le_mono_pos_r in S4; [|exact Hmp].
  assert (S5 : 8388609 * (281466386776064 * 8388609)
               < 8388608 * 8388608 * 281474976710656) by lia.
  nia.
Qed.

(** A finite float whose magnitude is below [2^15] truncates into the
    16-bit range. *)
Lemma trunc_in_range (s : bool) (m : positive) (e a : Z) :
  0 <= a -> Zpos m * 2 ^ a < 2 ^ (a + 15 - e) ->
  exists v, F32.trunc (S754_finite s m e) = Some v /\ in_int16 v = true.
Proof.
  intros Ha Hm. cbn [F32.trunc].
  assert (Hb : 0 <= a + 15 - e).
  { destruct (Z_le_gt_dec 0 (a + 15 - e)); [assumption|].
    rewrite (Z.pow_neg_r 2 (a + 15 - e)) in Hm by lia.
    assert (0 < 2 ^ a) by (apply Z.pow_pos_nonneg; lia). nia. }
  assert (Hpa : 0 < 2 ^ a) by (apply Z.pow_pos_nonneg; lia).
  eexists. split; [reflexivity|].
  assert (Hmag : 0 <= (if 0 <=? e then Z.shiftl (Zpos m) e
                       else Z.shiftr (Zpos m) (- e)) < 32768).
  { destruct (0 <=? e) eqn:E.
    - apply Z.leb_le in E. rewrite Z.shiftl_mul_pow2 by lia.
      assert (0 < 2 ^ e) by (apply Z.pow_pos_nonneg; lia).
      split; [lia|].
      assert (Hs : 2 ^ (a + 15) = 2 ^ (a + 15 - e) * 2 ^ e).
      { rewrite <- Z.pow_add_r by lia. f_equal. lia. }
      rewrite Z.pow_add_r in Hs by lia. change (2 ^ 15) with 32768 in Hs.
      nia.
    - apply Z.leb_gt in E. rewrite Z.shiftr_div_pow2 by lia.
      assert (0 < 2 ^ (- e)) by (apply Z.pow_pos_nonneg; lia).
      split; [apply Z.div_pos; lia|].
      apply Z.div_lt_upper_bound; [lia|].
      assert (Hs : 2 ^ (a + 15 - e) = 2 ^ a * (2 ^ (- e) * 32768)).
      { change 32768 with (2 ^ 15). rewrite <- !Z.pow_add_r by lia.
        f_equal. lia. }
      nia. }
  unfold in_int16, INT16_MIN, INT16_MAX.
  apply andb_true_intro. split; apply Z.leb_le; destruct s; cbn [cond_Zopp]; lia.
Qed.

Lemma cast_zero_sum (s : bool) :
  cast_int16 (F32.add F32.zero (S754_zero s)) = Ok 0.
Proof. destruct s; reflexivity. Qed.

(** A sample that is not above a peak [p] above the bound, multiplied by
    [upper_bound / p], converts to a 16-bit integer: the two roundings
    raise the product by less than [2^-22] of its value, which leaves it
    below 32768. *)
Lemma scaled_sample_fits (x p : float) :
  F32.valid x = true -> finite_sample x = true ->
  F32.valid p = true -> F32.gtb p upper_bound = true ->
  F32.leb (F32.abs x) p = true ->
  exists v, cast_int16 (adjusted F32.zero (F32.div upper_bound p) x) = Ok v.
Proof.
  intros Hvx Hfx Hvp Hg Hle. unfold adjusted.
  destruct (gtb_upper_bound_inv p Hg) as [->|(mp & ep & -> & _)].
  - replace (F32.div upper_bound (S754_infinity false)) with (S754_zero false)
      by (rewrite upper_bound_eq; reflexivity).
    destruct x as [sx| | |sx mx ex]; try discriminate Hfx;
      exists 0; unfold F32.mul, SFmul; apply cast_zero_sum.
  - destruct (bound_over_peak mp ep Hvp Hg)
      as (ms & es & -> & Hvs & Hes & Hb).
    destruct x as [sx| | |sx mx ex]; try discriminate Hfx.
    { exists 0. unfold F32.mul, SFmul. apply cast_zero_sum. }
    cbn [F32.abs SFabs] in Hle. unfold F32.leb in Hle.
    apply SFleb_finite in Hle.
    assert (Hgp := Hg). rewrite upper_bound_eq in Hgp. unfold F32.gtb in Hgp.
    apply SFltb_finite in Hgp.
    destruct (valid_normal_digits mp ep Hvp ltac:(lia)) as (Hdp & Hmp & Hep).
    assert (Hbx := Hvx). unfold F32.valid in Hbx. cbn [valid_binary] in Hbx.
    apply bounded_spec in Hbx. rewrite F32_emin in Hbx.
    change F32.prec with 24 in Hbx. change F32.emax with 128 in Hbx.
    assert (Hbs := Hvs). unfold F32.valid in Hbs. cbn [valid_binary] in Hbs.
    apply bounded_spec in Hbs. rewrite F32_emin in Hbs.
    change F32.prec with 24 in Hbs. change F32.emax with 128 in Hbs.
    assert (Hds : Zdigits2 (Zpos ms) = 24) by lia.
    pose proof (Zdigits2_bounds (Zpos mx) ltac:(lia)) as Hmx.
    pose proof (Zdigits2_pos (Zpos mx) ltac:(lia)) as Hdx.
    pose proof (Zdigits2_bounds (Zpos ms) ltac:(lia)) as Hms.
    rewrite Hds in Hms. change (2 ^ (24 - 1)) with 8388608 in Hms.
    change (2 ^ 24) with 16777216 in Hms.
    assert (Hmx24 : Zpos mx < 16777216).
    { assert (2 ^ Zdigits2 (Zpos mx) <= 2 ^ 24)
        by (apply Z.pow_le_mono_r; lia).
      change (2 ^ 24) with 16777216 in *. lia. }
    set (d := ep - ex).
    assert (Hd0 : 0 <= d) by (unfold d; lia).
    assert (HX : 0 < 2 ^ d) by (apply Z.pow_pos_nonneg; lia).
    assert (Hxp : Zpos mx <= Zpos mp * 2 ^ d).
    { destruct (Z.eq_dec d 0) as [E0|E0].
      - rewrite E0. change (2 ^ 0) with 1. unfold d in E0. lia.
      - assert (2 ^ 1 <= 2 ^ d) by (apply Z.pow_le_mono_r; lia).
        change (2 ^ 1) with 2 in *. nia. }
    set (g := es + 33 + ep) in *.
    assert (Hg0 : 0 <= g) by (unfold g; lia).
    assert (HG : 0 < 2 ^ g) by (apply Z.pow_pos_nonneg; lia).
    unfold F32.mul, SFmul. rewrite xorb_false_r.
    set (M := Zpos (mx * ms)). set (E := ex + es).
    assert (HM : M = Zpos mx * Zpos ms) by (unfold M; lia).
    pose proof (Zdigits2_mul_lower mx ms) as HDl.
    fold M in HDl. rewrite Hds in HDl.
    assert (HDu : Zdigits2 M <= 48).
    { pose proof (Zdigits2_bounds M ltac:(lia)) as HbM.
      destruct (Z_le_gt_dec (Zdigits2 M) 48); [assumption|].
      assert (2 ^ 48 <= 2 ^ (Zdigits2 M - 1))
        by (apply Z.pow_le_mono_r; lia).
      change (2 ^ 48) with 281474976710656 in *. nia. }
    assert (Hfe : fexp F32.prec F32.emax (Zdigits2 M + E)
                  = Z.max (Zdigits2 M + E - 24) (-149)).
    { rewrite fexp_spec, F32_emin. reflexivity. }
    assert (HEf : E <= fexp F32.prec F32.emax (Zdigits2 M + E)).
    { rewrite Hfe. unfold E. lia. }
    destruct (binary_round_aux_upper F32.prec F32.emax ltac:(reflexivity)
                sx M E loc_Exact ltac:(lia) HEf)
      as [[-> _]|[[_ Hi]|(m' & e' & -> & He' & Hv' & Hc)]].
    + exists 0. apply cast_zero_sum.
    + exfalso. rewrite Hfe in Hi. unfold F32.emax, F32.prec in Hi.
      unfold E in Hi. lia.
    + replace (F32.add F32.zero (S754_finite sx m' e'))
        with (S754_finite sx m' e') by reflexivity.
      assert (Hr : exists v, F32.trunc (S754_finite sx m' e') = Some v /\
                             in_int16 v = true).
      { destruct Hc as [[_ Hc]|[Hc1 Hc2]].
        - apply (trunc_in_range sx m' e' (e' - E + g)); [lia|].
          replace (e' - E + g + 15 - e') with (d + 48)
            by (unfold E, g, d; lia).
          rewrite !Z.pow_add_r by lia.
          change (2 ^ 48) with 281474976710656.
          change (2 ^ (F32.prec - 1)) with 8388608 in Hc.
          rewrite Z.mul_assoc.
          apply (bounded_product _ _ _ (Zpos mx) (Zpos ms) (Zpos mp));
            try lia.
        - rewrite F32_emin in Hc2.
          assert (Hb' := Hv'). cbn [valid_binary] in Hb'.
          apply bounded_spec in Hb'. change F32.prec with 24 in Hb'.
          pose proof (Zdigits2_bounds (Zpos m') ltac:(lia)) as Hm'.
          assert (2 ^ Zdigits2 (Zpos m') <= 2 ^ 24)
            by (apply Z.pow_le_mono_r; lia).
          apply (trunc_in_range sx m' e' 0); [lia|].
          change (2 ^ 0) with 1.
          assert (2 ^ 24 <= 2 ^ (0 + 15 - e'))
            by (apply Z.pow_le_mono_r; lia).
          lia. }
      destruct Hr as (v & Ht & Hin). exists v.
      unfold cast_int16. rewrite Ht, Hin. reflexivity.
Qed.

(** A finite sample that is not above the bound converts as it is. *)
Lemma small_sample_fits (x : float) :
  F32.valid x = true -> finite_sample x = true ->
  F32.gtb (F32.abs x) upper_bound = false ->
  exists v, cast_int16 x = Ok v.
Proof.
  intros Hv Hf Hg.
  destruct x as [sx| | |sx mx ex]; try discriminate Hf.
  { exists 0. reflexivity. }
  rewrite upper_bound_eq in Hg. unfold F32.gtb in Hg.
  cbn [F32.abs SFabs] in Hg. apply SFltb_finite_false in Hg.
  unfold F32.valid in Hv. cbn [valid_binary] in Hv.
  apply bounded_spec in Hv. change F32.prec with 24 in Hv.
  pose proof (Zdigits2_bounds (Zpos mx) ltac:(lia)) as Hm.
  assert (2 ^ Zdigits2 (Zpos mx) <= 2 ^ 24) by (apply Z.pow_le_mono_r; lia).
  destruct (trunc_in_range sx mx ex 0 ltac:(lia)) as (v & Ht & Hin).
  { change (2 ^ 0) with 1.
    assert (2 ^ 24 <= 2 ^ (0 + 15 - ex)) by (apply Z.pow_le_mono_r; lia).
    lia. }
  exists v. unfold cast_int16. rewrite Ht, Hin. reflexivity.
Qed.

(** The order of the magnitudes of a finite sample, a tracked peak and
    the bound. *)
Lemma sample_within_peak (x p : float) :
  finite_sample x = true -> F32.leb F32.one p = true ->
  F32.gtb p upper_bound = true ->
  F32.gtb (F32.abs x) p && F32.gtb (F32.abs x) upper_bound = false ->
  F32.leb (F32.abs x) p = true.
Proof.
  intros Hf H1 Hp H.
  destruct (gtb_upper_bound_inv p Hp) as [->|(mp & ep & -> & _)];
    destruct x as [sx| | |sx mx ex]; try discriminate Hf;
    try reflexivity.
  cbn [F32.abs SFabs] in *. unfold F32.leb. apply SFleb_finite.
  rewrite upper_bound_eq in *. unfold F32.gtb in *.
  apply SFltb_finite in Hp.
  apply andb_false_iff in H. destruct H as [H|H];
    apply SFltb_finite_false in H; lia.
Qed.

Lemma sample_within_bound (x p : float) :
  finite_sample x = true -> F32.leb F32.one p = true ->
  F32.gtb p upper_bound = false ->
  F32.gtb (F32.abs x) p && F32.gtb (F32.abs x) upper_bound = false ->
  F32.gtb (F32.abs x) upper_bound = false.
Proof.
  intros Hf H1 Hp H.
  apply andb_false_iff in H. destruct H as [H|H]; [|exact H].
  rewrite one_eq in H1. rewrite upper_bound_eq in *.
  unfold F32.gtb, F32.leb in *.
  destruct x as [sx| | |sx mx ex]; try discriminate Hf; [reflexivity|].
  cbn [F32.abs SFabs] in *.
  destruct p as [[]|[]| |[] mp ep]; try discriminate H1;
    try discriminate Hp; try discriminate H.
  apply SFltb_finite_false. apply SFltb_finite_false in H, Hp. lia.
Qed.

Lemma TriageSignal_steady inp o side local pp pre existing add scale :
  F32.gtb (F32.mul local pre) existing
  && F32.gtb (F32.mul local pre) upper_bound = false ->
  TriageSignal inp o side local pp pre existing add scale
  = (do o1 <- ScaleSide (S (length inp)) inp side
                        (Z.of_nat (length inp) - (side + 2)) o side
                        F32.zero (steady_factor existing);
     Ok (o1, existing,
         if F32.gtb existing upper_bound then F32.div upper_bound existing
         else scale)).
Proof.
  intros H. unfold TriageSignal, steady_factor. rewrite H.
  destruct (F32.gtb existing upper_bound); reflexivity.
Qed.

Lemma first_maximum_no_new_peak inp parity k cur pp pp0
    (pre existing : float) :
  first_maximum inp parity k cur pp pp0 ->
  (forall j x, 0 <= j < k -> j mod 2 = parity ->
     inp !! Z.to_nat j = Some x ->
     F32.gtb (F32.mul (F32.abs x) pre) existing
     && F32.gtb (F32.mul (F32.abs x) pre) upper_bound = false) ->
  F32.gtb (F32.mul cur pre) existing
  && F32.gtb (F32.mul cur pre) upper_bound = false.
Proof.
  intros [_ [[-> _]|(p & x & _ & Hp & Hpar & Hx & -> & _)]] H.
  - rewrite mul_zero_not_above. apply andb_false_r.
  - apply (H p x); assumption.
Qed.

Lemma no_new_peak_scan pre s inp k lp ppl ppr :
  k mod 2 = 0 ->
  no_new_peak pre s inp k ->
  scan_peaks (S (length inp)) inp 0 k no_peak
             (peak_pos_left s) (peak_pos_right s) = Ok (lp, ppl, ppr) ->
  F32.gtb (F32.mul (left lp) (left pre)) (left (peak s))
  && F32.gtb (F32.mul (left lp) (left pre)) upper_bound = false /\
  F32.gtb (F32.mul (right lp) (right pre)) (right (peak s))
  && F32.gtb (F32.mul (right lp) (right pre)) upper_bound = false.
Proof.
  intros Hk Hq Hs.
  apply scan_first_maximum in Hs; [|exact Hk].
  destruct Hs as [Hl Hr]. split.
  - apply (first_maximum_no_new_peak _ _ _ _ _ _ _ _ Hl).
    intros j x Hj Hpar Hx. specialize (Hq j x Hj Hx).
    unfold prescale_of, peak_of in Hq. rewrite Hpar in Hq. exact Hq.
  - apply (first_maximum_no_new_peak _ _ _ _ _ _ _ _ Hr).
    intros j x Hj Hpar Hx. specialize (Hq j x Hj Hx).
    unfold prescale_of, peak_of in Hq. rewrite Hpar in Hq. exact Hq.
Qed.

Lemma steady_but_last_right_slot pre s inp k s1 lp ppl ppr :
  Z.of_nat (length inp) mod 2 = 0 ->
  scan_peaks (S (length inp)) inp 0 k no_peak
             (peak_pos_left s) (peak_pos_right s) = Ok (lp, ppl, ppr) ->
  F32.gtb (F32.mul (left lp) (left pre)) (left (peak s))
  && F32.gtb (F32.mul (left lp) (left pre)) upper_bound = false ->
  F32.gtb (F32.mul (right lp) (right pre)) (right (peak s))
  && F32.gtb (F32.mul (right lp) (right pre)) upper_bound = false ->
  FindPeaks pre s inp k = Ok s1 ->
  peak s1 = peak s /\
  forall j, 0 <= j < Z.of_nat (length inp) - 1 ->
            written_as inp (out s1) j (F32.zero, steady_factor (peak_of s j)).
Proof.
  intros HN Hs El Er H. unfold FindPeaks in H. rewrite Hs in H.
  cbn [bind] in H.
  rewrite (TriageSignal_steady _ _ _ _ _ _ _ _ _ El) in H.
  unfold LEFT, RIGHT in H.
  bind_inv H. bind_inv Ha. injection Ha as <-.
  rewrite (TriageSignal_steady _ _ _ _ _ _ _ _ _ Er) in H.
  bind_inv H. bind_inv Ha. injection Ha as <-.
  injection H as <-. cbn [peak out].
  split; [destruct (peak s); reflexivity|].
  apply ScaleSide_spec in Ha0, Ha1.
  destruct Ha0 as (_ & Hin1 & _). destruct Ha1 as (_ & Hin2 & Hout2).
  intros j Hj. unfold peak_of.
  destruct (Z.eq_dec (j mod 2) 0) as [Hpar|Hodd].
  - rewrite Hpar. cbn [Z.eqb].
    apply (written_as_keep inp a0).
    + apply Hout2; [lia|]. intros Hc. apply in_pass_parity in Hc.
      rewrite Hpar in Hc. discriminate.
    + apply Hin1. apply in_pass_intro; [|rewrite Hpar; reflexivity].
      pose proof (even_lt_succ j _ Hpar HN). lia.
  - assert (Hpar : j mod 2 = 1)
      by (pose proof (Z.mod_pos_bound j 2 ltac:(lia)); lia).
    rewrite Hpar. cbn [Z.eqb].
    apply Hin2. apply in_pass_intro; [|rewrite Hpar; reflexivity].
    pose proof (Z.div_mod j 2). pose proof (Z.div_mod (Z.of_nat (length inp)) 2).
    lia.
Qed.

(** X24: a call that finds no new peak scales each channel by one
    factor.  When no requested sample, prescaled, is above both the
    tracked peak of its channel and the bound, every slot of the output
    but the last one holds [static_cast<int16_t>(0 + in[j] * f)], where
    [f] is [upper_bound / peak] for a channel whose tracked peak is
    above the bound and 1 otherwise; the tracked peaks are only
    released. *)
Theorem Apply_without_new_peak_scales_by_peak af pre s inp n s' :
  Z.of_nat (length inp) = af * 2 ->
  no_new_peak pre s inp (samples_of n) ->
  Apply af pre s inp n = Ok s' ->
  peak s' = mkFrame (release_side (left (peak s)))
                    (release_side (right (peak s))) /\
  forall j, 0 <= j < af * 2 - 1 ->
    written_as inp (out s') j (F32.zero, steady_factor (peak_of s j)).
Proof.
  intros HN Hq H. apply Apply_Ok in H.
  destruct H as (s1 & s2 & _ & H1 & H2 & H3).
  apply FindPeaks_peak in H1 as Hp1.
  destruct Hp1 as (lp & ppl & ppr & Hs & _).
  destruct (no_new_peak_scan pre s inp _ lp ppl ppr (samples_of_even n)
              Hq Hs) as [El Er].
  assert (HN2 : Z.of_nat (length inp) mod 2 = 0)
    by (rewrite HN; apply Z.mod_mul; lia).
  destruct (steady_but_last_right_slot pre s inp _ s1 lp ppl ppr
              HN2 Hs El Er H1) as [Hpk Hw].
  apply SaveTailFrame_frame in H2. destruct H2 as (Ho2 & Hp2 & _).
  apply Release_frame in H3. destruct H3 as (Ho3 & _ & _ & _ & _ & Hp3).
  split.
  - rewrite Hp3, Hp2, Hpk. reflexivity.
  - intros j Hj. rewrite Ho3, Ho2. apply Hw. lia.
Qed.

Lemma Apply_without_new_peak_scales_by_peak_witness :
  peak after_steady_block
  = mkFrame (release_side (left (peak after_peak_block)))
            (release_side (right (peak after_peak_block))) /\
  forall j, 0 <= j < 4 * 2 - 1 ->
    written_as steady_block (out after_steady_block) j
               (F32.zero, steady_factor (peak_of after_peak_block j)).
Proof.
  apply (Apply_without_new_peak_scales_by_peak 4 unit_prescale
           after_peak_block steady_block 4 after_steady_block).
  - reflexivity.
  - intros j x Hj Hx. change (samples_of 4) with 8 in Hj.
    assert (Hc : j = 0 \/ j = 1 \/ j = 2 \/ j = 3 \/ j = 4 \/ j = 5 \/
                 j = 6 \/ j = 7) by lia.
    destruct Hc as [-> | [-> | [-> | [-> | [-> | [-> | [-> | ->]]]]]]];
      vm_compute in Hx; injection Hx as <-; vm_compute; reflexivity.
  - vm_compute. reflexivity.
Defined.

Lemma no_sample_over_peak_new_peak s inp k :
  Forall (fun x => F32.valid x = true /\ finite_sample x = true) inp ->
  no_sample_over_peak s inp -> no_new_peak unit_prescale s inp k.
Proof.
  intros Hall Hq j x Hj Hx.
  rewrite Forall_lookup in Hall. destruct (Hall _ _ Hx) as [Hv _].
  replace (prescale_of unit_prescale j) with F32.one
    by (unfold prescale_of; destruct (j mod 2 =? 0); reflexivity).
  rewrite F32_mul_one by (apply F32_abs_valid; exact Hv).
  apply (Hq j x); [lia | exact Hx].
Qed.

(** X25: such a call stays within the range of [int16_t].  At unit
    prescale, with finite samples none of which is above both the
    tracked peak of its channel and the bound, tracked peaks of at least
    1 and the counter below [INT_MAX], Apply returns: the roundings of
    [upper_bound / peak] and of the product leave every scaled sample
    below 32768. *)
Theorem Apply_without_new_peak_returns af s inp n :
  0 < af < 16384 ->
  Z.of_nat (length inp) = af * 2 -> Z.of_nat (length (out s)) = af * 2 ->
  0 <= n <= af ->
  Forall (fun x => F32.valid x = true /\ finite_sample x = true) inp ->
  at_least_one (left (peak s)) -> at_least_one (right (peak s)) ->
  no_sample_over_peak s inp ->
  limited_ms s <> INT_MAX ->
  exists s', Apply af unit_prescale s inp n = Ok s'.
Proof.
  intros Haf HN HO Hn Hall [Vl Ll] [Vr Lr] Hq Hms.
  destruct (Apply af unit_prescale s inp n) as [s'|f] eqn:H; [eauto|].
  exfalso.
  destruct (Apply_fault_kinds af unit_prescale s inp n f Haf HN HO Hn H)
    as [[v ->]|[_ Hm]]; [|contradiction].
  unfold Apply in H.
  destruct (samples_of n <=? af * 2); [|discriminate].
  apply bind_Fail in H. destruct H as [H|(s1 & _ & H)].
  - unfold FindPeaks in H.
    apply bind_Fail in H. destruct H as [H|([[lp ppl] ppr] & Hs & H)].
    { rewrite samples_of_small in H by lia.
      apply scan_peaks_in_bounds in H;
        [discriminate | apply Z.mod_mul; lia | lia | lia | reflexivity]. }
    destruct (no_new_peak_scan unit_prescale s inp _ lp ppl ppr
                (samples_of_even n)
                (no_sample_over_peak_new_peak s inp _ Hall Hq) Hs)
      as [El Er].
    rewrite (TriageSignal_steady _ _ _ _ _ _ _ _ _ El) in H.
    unfold LEFT, RIGHT in H.
    assert (Hno : forall side existing pos last o opos,
              0 <= pos -> pos mod 2 = side ->
              F32.valid existing = true ->
              F32.leb F32.one existing = true ->
              (forall j, j mod 2 = side -> peak_of s j = existing) ->
              ScaleSide (S (length inp)) inp pos last o opos F32.zero
                        (steady_factor existing)
              <> Fail (CastOutOfRange v)).
    { intros side existing pos last o opos Hpos Hside Ve Le Hpk Hc.
      apply ScaleSide_cast_fault in Hc.
      destruct Hc as (j & x & Hj & Hx & Hc).
      apply in_pass_parity in Hj as Hpar. rewrite Hside in Hpar.
      destruct Hj as [Hj _].
      rewrite Forall_lookup in Hall. destruct (Hall _ _ Hx) as [Vx Fx].
      specialize (Hq j x ltac:(lia) Hx). rewrite (Hpk j Hpar) in Hq.
      unfold steady_factor in Hc.
      destruct (F32.gtb existing upper_bound) eqn:Eg.
      - destruct (scaled_sample_fits x existing Vx Fx Ve Eg
                    (sample_within_peak x existing Fx Le Eg Hq)) as [w Hw].
        congruence.
      - rewrite cast_adjusted_unit in Hc by exact Vx.
        destruct (small_sample_fits x Vx Fx
                    (sample_within_bound x existing Fx Le Eg Hq)) as [w Hw].
        congruence. }
    apply bind_Fail in H. destruct H as [H|([[o1 pl] sl] & Ho1 & H)].
    { apply bind_Fail in H. destruct H as [H|(o1 & _ & H)]; [|discriminate].
      revert H. apply (Hno 0 (left (peak s))); try assumption;
        try reflexivity; try lia.
      intros j Hj. unfold peak_of. rewrite Hj. reflexivity. }
    rewrite (TriageSignal_steady _ _ _ _ _ _ _ _ _ Er) in H.
    apply bind_Fail in H. destruct H as [H|([[o2 pr] sr] & _ & H)];
      [|discriminate].
    apply bind_Fail in H. destruct H as [H|(o2 & _ & H)]; [|discriminate].
    revert H. apply (Hno 1 (right (peak s))); try assumption;
      try reflexivity; try lia.
    intros j Hj. unfold peak_of. rewrite Hj. reflexivity.
  - apply bind_Fail in H. destruct H as [H|(s2 & _ & H)].
    + unfold SaveTailFrame in H. destruct (n =? 0); [discriminate|].
      apply bind_Fail in H. destruct H as [H|(l & _ & H)].
      { apply read_Fail in H. discriminate. }
      apply bind_Fail in H. destruct H as [H|(r & _ & H)]; [|discriminate].
      apply read_Fail in H. discriminate.
    + unfold Release in H. destruct (limited_ms s2 =? INT_MAX); discriminate.
Qed.

Lemma Apply_without_new_peak_returns_witness :
  exists s', Apply 4 unit_prescale after_peak_block steady_block 4 = Ok s'.
Proof.
  apply (Apply_without_new_peak_returns 4 after_peak_block steady_block 4).
  - lia.
  - reflexivity.
  - reflexivity.
  - lia.
  - repeat constructor.
  - split; vm_compute; reflexivity.
  - split; vm_compute; reflexivity.
  - intros j x Hj Hx. apply lookup_lt_Some in Hx as Hlt.
    change (length steady_block) with 8%nat in Hlt.
    assert (Hc : j = 0 \/ j = 1 \/ j = 2 \/ j = 3 \/ j = 4 \/ j = 5 \/
                 j = 6 \/ j = 7) by lia.
    destruct Hc as [-> | [-> | [-> | [-> | [-> | [-> | [-> | ->]]]]]]];
      vm_compute in Hx; injection Hx as <-; vm_compute; reflexivity.
  - vm_compute. discriminate.
Defined.

(** ** Host paths *)

Lemma all_chars_complete (c : ascii) : In c all_chars.
Proof.
  unfold all_chars. rewrite <- (ascii_nat_embedding c).
  apply in_map. apply in_seq. pose proof (nat_ascii_bounded c). lia.
Qed.

Lemma for_all_chars (P : ascii -> bool) :
  forallb P all_chars = true -> forall c, P c = true.
Proof.
  intros H c. rewrite forallb_forall in H. apply H.
  apply all_chars_complete.
Qed.

Lemma translate_loop_app (p acc : list ascii) :
  translate_loop p acc = acc ++ translate_loop p [].
Proof.
  revert acc. induction p as [|c p IH]; intros acc; cbn [translate_loop].
  - rewrite app_nil_r. reflexivity.
  - destruct (isalpha c); [|destruct (Ascii.eqb c backslash);
                             [|destruct (is_glob_special c)]];
      rewrite IH; symmetry; rewrite IH; cbn [app];
      rewrite <- ?app_assoc; reflexivity.
Qed.

(** The pattern is built character by character. *)
Lemma translate_cons (c : ascii) (p : list ascii) :
  translate_to_glob_pattern (c :: p)
  = char_pattern c ++ translate_to_glob_pattern p.
Proof.
  unfold char_pattern, translate_to_glob_pattern. cbn [translate_loop].
  destruct (isalpha c); [|destruct (Ascii.eqb c backslash);
                           [|destruct (is_glob_special c)]];
    rewrite translate_loop_app; reflexivity.
Qed.

Lemma char_pattern_length (c : ascii) :
  (1 <= length (char_pattern c) <= 4)%nat.
Proof.
  unfold char_pattern, translate_to_glob_pattern. cbn [translate_loop].
  destruct (isalpha c); [|destruct (Ascii.eqb c backslash);
                           [|destruct (is_glob_special c)]];
    cbn; lia.
Qed.

(** X21: the pattern has at least as many characters as the path and at
    most four times as many: the [reserve(win_path.size() * 4)] before
    the loop is never exceeded. *)
Theorem glob_pattern_fits_its_reserve (win_path : list ascii) :
  (length win_path <= length (translate_to_glob_pattern win_path)
   <= length win_path * 4)%nat.
Proof.
  induction win_path as [|c p IH]; [cbn; lia|].
  rewrite translate_cons, length_app. cbn [length].
  pose proof (char_pattern_length c). lia.
Qed.

(** The first character of a character's pattern tells its length. *)
Lemma char_pattern_head (c : ascii) :
  exists h t,
    char_pattern c = h :: t /\
    length t = if Ascii.eqb h left_bracket then 3%nat
               else if Ascii.eqb h backslash then 1%nat else 0%nat.
Proof.
  pose proof (for_all_chars
                (fun c =>
                   match char_pattern c with
                   | [] => false
                   | h :: t =>
                       Nat.eqb (length t)
                         (if Ascii.eqb h left_bracket then 3
                          else if Ascii.eqb h backslash then 1 else 0)
                   end)
                ltac:(vm_compute; reflexivity) c) as H.
  cbv beta in H. destruct (char_pattern c) as [|h t]; [discriminate|].
  exists h, t. split; [reflexivity|]. apply Nat.eqb_eq. exact H.
Qed.

Lemma char_pattern_prefix_free (c1 c2 : ascii) (t1 t2 : list ascii) :
  char_pattern c1 ++ t1 = char_pattern c2 ++ t2 ->
  char_pattern c1 = char_pattern c2 /\ t1 = t2.
Proof.
  destruct (char_pattern_head c1) as (h1 & r1 & E1 & L1).
  destruct (char_pattern_head c2) as (h2 & r2 & E2 & L2).
  rewrite E1, E2. cbn [app]. intros H. injection H as Hh Hr. subst h2.
  apply app_inj_1 in Hr; [|congruence].
  destruct Hr as [-> ->]. split; reflexivity.
Qed.

(** A character's pattern and its folded form determine each other. *)
Lemma char_pattern_of_fold :
  exists g : ascii -> list ascii,
    forall c, char_pattern c = g (fold_char c).
Proof.
  exists (fun f => if islower f
                   then [left_bracket; f; toupper f; right_bracket]
                   else if is_glob_special f then [backslash; f] else [f]).
  intros c.
  pose proof (for_all_chars
                (fun c =>
                   String.eqb
                     (string_of_list_ascii (char_pattern c))
                     (string_of_list_ascii
                        ((fun f =>
                            if islower f
                            then [left_bracket; f; toupper f; right_bracket]
                            else if is_glob_special f then [backslash; f]
                                 else [f]) (fold_char c))))
                ltac:(vm_compute; reflexivity) c) as H.
  cbv beta in H. apply String.eqb_eq in H.
  apply (f_equal list_ascii_of_string) in H.
  rewrite !list_ascii_of_string_of_list_ascii in H. exact H.
Qed.

Lemma fold_of_char_pattern :
  exists h : list ascii -> ascii,
    forall c, fold_char c = h (char_pattern c).
Proof.
  exists (fun pat => match pat with
                     | [a] => a
                     | [_; b] => b
                     | [_; l; _; _] => l
                     | _ => slash
                     end).
  intros c.
  pose proof (for_all_chars
                (fun c =>
                   Ascii.eqb (fold_char c)
                     (match char_pattern c with
                      | [a] => a
                      | [_; b] => b
                      | [_; l; _; _] => l
                      | _ => slash
                      end))
                ltac:(vm_compute; reflexivity) c) as H.
  cbv beta in H. apply Ascii.eqb_eq in H. exact H.
Qed.

Lemma char_pattern_iff_fold (c1 c2 : ascii) :
  char_pattern c1 = char_pattern c2 <-> fold_char c1 = fold_char c2.
Proof.
  destruct char_pattern_of_fold as [g Hg].
  destruct fold_of_char_pattern as [h Hh].
  split; intros H.
  - rewrite !Hh, H. reflexivity.
  - rewrite !Hg, H. reflexivity.
Qed.

Lemma same_fold_same_pattern (p1 p2 : list ascii) :
  map fold_char p1 = map fold_char p2 ->
  translate_to_glob_pattern p1 = translate_to_glob_pattern p2.
Proof.
  revert p2. induction p1 as [|c1 p1 IH]; intros [|c2 p2]; cbn [map];
    try discriminate; [reflexivity|].
  intros [= Hc Hp]. rewrite !translate_cons.
  apply char_pattern_iff_fold in Hc. rewrite Hc, (IH p2 Hp). reflexivity.
Qed.

(** X22: two paths get the same glob pattern exactly when they are equal
    up to the case of their letters and the kind of their separators
    (a backslash counts as a slash). *)
Theorem glob_pattern_identifies_path_up_to_case (p1 p2 : list ascii) :
  translate_to_glob_pattern p1 = translate_to_glob_pattern p2 <->
  map fold_char p1 = map fold_char p2.
Proof.
  split; [|apply same_fold_same_pattern].
  revert p2. induction p1 as [|c1 p1 IH]; intros [|c2 p2];
    rewrite ?translate_cons; cbn [map].
  - reflexivity.
  - intros H. exfalso. pose proof (char_pattern_length c2) as Hl.
    destruct (char_pattern c2); [cbn in Hl; lia | discriminate H].
  - intros H. exfalso. pose proof (char_pattern_length c1) as Hl.
    destruct (char_pattern c1); [cbn in Hl; lia | discriminate H].
  - intros H. apply char_pattern_prefix_free in H. destruct H as [Hc Ht].
    apply char_pattern_iff_fold in Hc. rewrite Hc, (IH p2 Ht). reflexivity.
Qed.

(** X23: whatever the file system holds, [to_posix_path] gives the same
    answer for two DOS paths that differ only in the case of letters and
    in the kind of separators. *)
Theorem to_posix_path_ignores_case (glob : list ascii -> glob_result)
    (p1 p2 : list ascii) :
  map fold_char p1 = map fold_char p2 ->
  to_posix_path glob p1 = to_posix_path glob p2.
Proof.
  intros H. unfold to_posix_path.
  rewrite (same_fold_same_pattern p1 p2 H). reflexivity.
Qed.

Lemma to_posix_path_ignores_case_witness :
  to_posix_path one_file_glob dos_path = to_posix_path one_file_glob mixed_path.
Proof.
  apply (to_posix_path_ignores_case one_file_glob dos_path mixed_path).
  vm_compute. reflexivity.
Defined.
